(** * wollok-ts: the interpreter core (src/interpreter.ts)

    A shallow embedding of the compiler to stack-machine instructions, of the
    [Operations] on an evaluation, of [step], [cloneEvaluation] and
    [buildEvaluationFor], followed by the properties proved about them.

    Conventions of the embedding:
    - JS arrays used as stacks ([frameStack], [operandStack]) are lists whose
      head is the top of the stack, that is, the LAST element of the JS array;
      [resume] is a list in array order.
    - JS objects used as dictionaries ([Locals], [instances]) are finite maps
      over their own keys; what they inherit from [Object.prototype] is added
      where they are read.
    - [undefined] is [None]; a string is truthy when it is not empty. *)

From Stdlib Require Import ZArith Floats.
From stdpp Require Import gmap strings list fin_maps pretty.

#[local] Set Warnings "-register-all".

Abbreviation Id := string (only parsing).
Abbreviation Name := string (only parsing).
Abbreviation Locals := (gmap string string) (only parsing).

Definition NULL_ID : Id := "null".
Definition VOID_ID : Id := "void".
Definition TRUE_ID : Id := "true".
Definition FALSE_ID : Id := "false".

(** JS truthiness of a string: [!!s]. *)
Definition truthy (s : string) : bool := negb (String.eqb s "").

(** ** Objects used as dictionaries

    [Locals], the fields of an instance and [instances] are objects made by
    object literals: each holds its own properties, here a finite map, and
    inherits the properties of [Object.prototype]. A read [object[key]] and
    the test [key in object] see the inherited properties as well. A write
    [object[key] = value] makes an own property, but for the key [__proto__]
    on an object that has no own property of that name: the write then
    reaches the setter of [Object.prototype], which ignores a string. *)
Definition objectPrototype : list Name :=
  ["constructor"; "__defineGetter__"; "__defineSetter__"; "hasOwnProperty";
   "__lookupGetter__"; "__lookupSetter__"; "isPrototypeOf"; "propertyIsEnumerable";
   "toString"; "valueOf"; "__proto__"; "toLocaleString"].

Definition onPrototype (key : Name) : bool := bool_decide (key ∈ objectPrototype).

(** [key in object] *)
Definition hasProperty {A : Type} (object : gmap string A) (key : Name) : bool :=
  bool_decide (is_Some (object !! key)) || onPrototype key.

(** An inherited property read where an id is expected: a function, or
    [Object.prototype] itself under [__proto__]. interpreter.ts does with it
    what it does with an id: it pushes it, stores it, tests it for emptiness,
    compares it with the ids of [true] and [false], and uses it as a key and
    in a message, where it is the string that it converts to. That string
    stands for it here. *)
Definition inheritedId (key : Name) : Id :=
  if decide (key = "__proto__") then "[object Object]"
  else if decide (key = "constructor") then "function Object() { [native code] }"
  else "function " +:+ key +:+ "() { [native code] }".

(** [object[key]], on locals and on fields *)
Definition getProperty (object : gmap string string) (key : Name) : option Id :=
  match object !! key with
  | Some value => Some value
  | None => if onPrototype key then Some (inheritedId key) else None
  end.

(** [object[key] = value], on locals and on fields *)
Definition setProperty (key : Name) (value : Id) (object : gmap string string)
    : gmap string string :=
  if decide (key = "__proto__") then
    match object !! key with
    | Some _ => <[key := value]> object
    | None => object
    end
  else <[key := value]> object.

(** ** The linked model (src/model.ts is not part of this development: the
    node types below carry the attributes that interpreter.ts reads) *)

Record ReferenceNode := { reference_id : Id; reference_name : Name }.

Record ParameterNode := { parameter_name : Name; isVarArg : bool }.

Inductive Expression :=
| Reference_ (reference : ReferenceNode)
| Self
| Literal (value : LiteralValue)
| Send (receiver : Expression) (message : Name) (args : list Expression)
| Super (super_id : Id) (args : list Expression)
| New (className : ReferenceNode) (args : list Expression)
| If (condition : Expression) (thenBody elseBody : Body)
| Throw (arg : Expression)
| Try (body : Body) (catches : list Catch) (always : Body)
with LiteralValue :=
| LNull
| LBoolean (b : bool)
| LNumber (n : float)
| LString (s : string)
| LSingleton (singleton : Singleton)
| LNew (className : ReferenceNode) (args : list Expression)
with Sentence :=
| Variable_ (name : Name) (value : Expression)
| Return (value : option Expression)
| Assignment (reference : ReferenceNode) (value : Expression)
| Expression_ (expression : Expression)
with Body :=
| Body_ (sentences : list Sentence)
with Catch :=
| Catch_ (parameter : ParameterNode) (parameterType : ReferenceNode) (body : Body)
with Singleton :=
| Singleton_ (singleton_id : Id) (singleton_name : option Name)
    (superclass_ref : ReferenceNode) (superCall_args : list Expression).

Definition singleton_id (s : Singleton) : Id :=
  let 'Singleton_ i _ _ _ := s in i.
Definition singleton_name (s : Singleton) : option Name :=
  let 'Singleton_ _ n _ _ := s in n.
Definition superCall_superclass (s : Singleton) : ReferenceNode :=
  let 'Singleton_ _ _ r _ := s in r.
Definition superCall_args (s : Singleton) : list Expression :=
  let 'Singleton_ _ _ _ a := s in a.

Record Field := { field_name : Name; field_value : Expression }.

Record Method := {
  method_id : Id;
  method_name : Name;
  method_parameters : list ParameterNode;
  isNative : bool;
  method_body : option Body;
}.

Record BaseCall := { callsSuper : bool; baseCall_args : list Expression }.

Record Constructor := {
  constructor_parameters : list ParameterNode;
  baseCall : BaseCall;
  constructor_body : Body;
}.

Inductive ClassMember :=
| MField (f : Field)
| MMethod (m : Method)
| MConstructor (c : Constructor).

(** A class (or any module with members); [Class] itself is a reserved word. *)
Record ClassNode := { class_id : Id; members : list ClassMember }.

(** What a reference, a parent or a descendant can be. *)
Inductive Node :=
| NField (f : Field)
| NClass (c : ClassNode)
| NSingleton (s : Singleton)
| NTest (name : Name) (body : Body)
| NOther.

Definition is_Field (n : Node) : bool :=
  match n with NField _ => true | _ => false end.

Definition isModule (n : Node) : bool :=
  match n with NClass _ | NSingleton _ => true | _ => false end.

(** The linked environment together with the query helpers that
    [utils(environment)] of src/utils.ts derives from it. utils.ts is not part
    of this development: the helpers are fields of the environment, so every
    statement below holds for whatever they compute. A helper whose result
    interpreter.ts tests for absence returns an [option]. [resolveUndefined]
    is [resolve(undefined)], which a [CALL] with a [lookupStart] reaches past
    the top of a hierarchy: [None] when it throws. *)
Record Environment := {
  environment_id : Id;
  descendants : list Node;
  resolve : Name -> ClassNode;
  resolveUndefined : option ClassNode;
  resolveTarget : ReferenceNode -> Node;
  fullyQualifiedName : Node -> Name;
  firstAncestorOfKind_Method : Id -> Method;
  parentOf : Method -> Node;
  hierarchy : ClassNode -> list ClassNode;
  superclass : ClassNode -> option ClassNode;
  inherits : ClassNode -> ClassNode -> bool;
  methodLookup : Name -> nat -> ClassNode -> option Method;
  constructorLookup : nat -> ClassNode -> option Constructor;
}.

(** ** Runtime values *)

Inductive Interruption := Return_ | Exception | Result.

Global Instance Interruption_eq_dec : EqDecision Interruption.
Proof. solve_decision. Defined.

(** [innerValue?: any]: the payloads interpreter.ts stores. *)
Inductive InnerValue :=
| VNull
| VBoolean (b : bool)
| VNumber (n : float)
| VString (s : string)
| VList (ids : list Id).

Inductive Instruction :=
| LOAD (name : Name)
| STORE (name : Name) (lookup : bool)
| PUSH (id : Id)
| GET (name : Name)
| SET (name : Name)
| SWAP
| INSTANTIATE (module : Name) (innerValue : option InnerValue)
| INHERITS (module : Name)
| CONDITIONAL_JUMP (count : Z)
| CALL (message : Name) (arity : nat) (lookupStart : option Name)
| INIT (arity : nat) (lookupStart : Name) (initFields : bool)
| IF_THEN_ELSE (thenHandler elseHandler : list Instruction)
| TRY_CATCH_ALWAYS (body catchHandler alwaysHandler : list Instruction)
| INTERRUPT (interruption : Interruption)
| RESUME_INTERRUPTION.

(** ** The compiler

    [compile(environment)] is memoized on [environment.id + node.id]; node ids
    are unique in a linked environment, so the memoized function is the
    function below. One function per syntactic class of the node. *)

Section Compile.
Variable environment : Environment.

Fixpoint compileExpression (node : Expression) : list Instruction :=
  match node with
  | Self => [LOAD "self"]
  | Reference_ r =>
      let target := resolveTarget environment r in
      if is_Field target then [LOAD "self"; GET (reference_name r)]
      else if isModule target then [LOAD (fullyQualifiedName environment target)]
      else [LOAD (reference_name r)]
  | Literal value =>
      match value with
      | LNull => [PUSH NULL_ID]
      | LBoolean b => [PUSH (if b then TRUE_ID else FALSE_ID)]
      | LNumber n => [INSTANTIATE "wollok.lang.Number" (Some (VNumber n))]
      | LString s => [INSTANTIATE "wollok.lang.String" (Some (VString s))]
      | LSingleton (Singleton_ _ _ superclass args as s) =>
          flat_map compileExpression args
          ++ [INSTANTIATE (fullyQualifiedName environment (NSingleton s)) None;
              INIT (length args)
                (fullyQualifiedName environment (resolveTarget environment superclass))
                true]
      | LNew className args =>
          flat_map compileExpression args
          ++ [INSTANTIATE (reference_name className) (Some (VList []));
              INIT (length args) (reference_name className) false]
      end
  | Send receiver message args =>
      compileExpression receiver
      ++ flat_map compileExpression args
      ++ [CALL message (length args) None]
  | Super super_id args =>
      let currentMethod := firstAncestorOfKind_Method environment super_id in
      [LOAD "self"]
      ++ flat_map compileExpression args
      ++ [CALL (method_name currentMethod) (length args)
            (Some (fullyQualifiedName environment (parentOf environment currentMethod)))]
  | New className args =>
      let fqn := fullyQualifiedName environment (resolveTarget environment className) in
      flat_map compileExpression args
      ++ [INSTANTIATE fqn None; INIT (length args) fqn true]
  | If condition thenBody elseBody =>
      compileExpression condition
      ++ [IF_THEN_ELSE (compileBody thenBody) (compileBody elseBody)]
  | Throw arg =>
      compileExpression arg ++ [INTERRUPT Exception]
  | Try body catches always =>
      [TRY_CATCH_ALWAYS
         (compileBody body)
         (flat_map
            (fun c =>
               let 'Catch_ parameter parameterType body := c in
               let compiledCatch :=
                 [PUSH VOID_ID; LOAD "<exception>"; STORE (parameter_name parameter) false]
                 ++ compileBody body
                 ++ [INTERRUPT Result] in
               [LOAD "<exception>";
                INHERITS (fullyQualifiedName environment (resolveTarget environment parameterType));
                CONDITIONAL_JUMP (Z.of_nat (length compiledCatch))]
               ++ compiledCatch)
            catches)
         (compileBody always)]
  end
with compileSentence (node : Sentence) : list Instruction :=
  match node with
  | Variable_ name value =>
      compileExpression value ++ [STORE name false]
  | Return value =>
      match value with
      | Some v => compileExpression v
      | None => [PUSH VOID_ID]
      end ++ [INTERRUPT Return_]
  | Assignment reference value =>
      if is_Field (resolveTarget environment reference)
      then [LOAD "self"] ++ compileExpression value ++ [SET (reference_name reference)]
      else compileExpression value ++ [STORE (reference_name reference) true]
  | Expression_ e => compileExpression e
  end
with compileBody (node : Body) : list Instruction :=
  match node with
  | Body_ sentences => flat_map compileSentence sentences
  end.
End Compile.

(** ** Evaluations *)

Record RuntimeObject := {
  id : Id;
  module : Name;
  fields : Locals;
  innerValue : option InnerValue;
}.

(** What [instances[id]] is when it is defined: an instance, or the property
    that [Object.prototype] has under the key [id], a function or the
    prototype itself, on which none of [id], [module], [fields] and
    [innerValue] is defined. *)
Inductive Referent :=
| AnInstance (o : RuntimeObject)
| Inherited (key : Name).

(** [objects[i]] *)
Definition getReferent (own : option RuntimeObject) (i : Id) : option Referent :=
  match own with
  | Some o => Some (AnInstance o)
  | None => if onPrototype i then Some (Inherited i) else None
  end.

(** [self.module] *)
Definition moduleOf (self : Referent) : option Name :=
  match self with
  | AnInstance o => Some (module o)
  | Inherited _ => None
  end.

Record Frame := {
  instructions : list Instruction;
  nextInstruction : nat;
  locals : Locals;
  operandStack : list Id;
  resume : list Interruption;
}.

Record Evaluation := {
  environment : Environment;
  frameStack : list Frame;
  instances : gmap string RuntimeObject;
}.

(** The host errors: [Failure(message)] with each of its messages, and the
    [TypeError] that JS raises on a property of [undefined]. *)
Inductive Error :=
| PoppedEmptyOperandStack
| UndefinedInstance (i : Id)
| UnhandledInterruption (interruption : Interruption) (valueId : Id)
| ReachedEndOfFrameStack
| ReachedEndOfInstructions
| MissingLocal (name : Name)
| UndefinedField (module name : Name)
| InvalidJumpCount (count : Z)
| MissingConstructor (arity : nat) (fqn : Name)
| CannotInferInterruption
| TypeError.

(** ** [Number(x.toFixed(4))] on IEEE-754 doubles

    [toFixed(4)] prints the integer [n] closest to [|x| * 10^4] (the larger one
    on a tie) with four fraction digits and the sign of [x]; at [10^21] and
    above it prints [x] itself. [Number] reads the decimal back as the nearest
    double. *)
Definition toFixed4_digits (m : positive) (e : Z) : Z :=
  if (0 <=? e)%Z then (Z.pos m * 2 ^ e * 10000)%Z
  else ((2 * Z.pos m * 10000 + 2 ^ (- e)) / (2 * 2 ^ (- e)))%Z.

Definition toFixed4 (x : float) : float :=
  match Prim2SF x with
  | S754_finite s m e =>
      if (if (0 <=? e)%Z then (10 ^ 21 <=? Z.pos m * 2 ^ e)%Z
          else (10 ^ 21 * 2 ^ (- e) <=? Z.pos m)%Z)
      then x
      else
        match toFixed4_digits m e with
        | Zpos n => SF2Prim (SFdiv prec emax (S754_finite s n 0) (S754_finite false 10000 0))
        | _ => SF2Prim (S754_zero s)
        end
  | S754_zero _ => SF2Prim (S754_zero false)
  | _ => x
  end.

(** ** Programs over an evaluation

    [step] and the [Operations] reach the evaluation through a few primitive
    accesses. A program is a tree of such accesses; it is run against an
    evaluation held by value ([run], below) and against an evaluation held by
    reference in a store of JS objects ([exec], further down), so that
    what is proved of a program is proved of the same program in both readings.
    A frame is addressed by its depth [d] below the top of [frameStack].

    interpreter.ts itself assigns [innerValue] when it creates an instance
    and never after. A native is handed the instances themselves and may do
    more: assign the field ([SetInnerValue]), or change in place the array
    that the field refers to, as in [self.innerValue.push(x)]
    ([MutateList]). *)
Inductive Op : Type -> Type :=
| Frames : Op (list Frame)
| Instance (i : Id) : Op (option Referent)
| SetNextInstruction (d n : nat) : Op unit
| SetLocal (d : nat) (name : Name) (v : Id) : Op unit
| OperandPop (d : nat) : Op (option Id)
| OperandPush (d : nat) (v : Id) : Op unit
| ResumePush (d : nat) (k : Interruption) : Op unit
| SetResume (d : nat) (r : list Interruption) : Op unit
| FramePop : Op unit
| FramePush (f : Frame) : Op unit
| Uuid : Op Id
| NewInstance (module : Name) (value : option InnerValue) : Op Id
| SetField (i : Id) (name : Name) (v : Id) : Op unit
| SetInnerValue (i : Id) (value : option InnerValue) : Op unit
| MutateList (i : Id) (g : list Id -> list Id) : Op unit
| Interrupting (k : Interruption) (v : Id) : Op unit.

Inductive Prog (A : Type) : Type :=
| Ret (a : A)
| Raise (e : Error)
| Do {X : Type} (op : Op X) (k : X -> Prog A).
Arguments Ret {A} a.
Arguments Raise {A} e.
Arguments Do {A X} op k.

Fixpoint bind {A B : Type} (p : Prog A) (f : A -> Prog B) : Prog B :=
  match p with
  | Ret a => f a
  | Raise e => Raise e
  | Do op k => Do op (fun x => bind (k x) f)
  end.

Global Instance Prog_ret : MRet Prog := @Ret.
Global Instance Prog_bind : MBind Prog := fun A B f p => bind p f.

Definition perform {X : Type} (op : Op X) : Prog X := Do op Ret.

(** ** Running a program on an evaluation held by value

    A world is the evaluation together with what the host keeps outside it: the
    ids that the successive calls of [uuid()] return and how many were drawn.
    [raised] is a ghost record of the calls of [interrupt] made so far.
    Held by value, an instance has its [innerValue] to itself: [MutateList]
    shows in the one instance here, and in every instance that refers to the
    array when the evaluation is held by reference. *)
Record World := {
  evaluation : Evaluation;
  uuid : nat -> Id;
  uuidCalls : nat;
  raised : list (Interruption * Id);
}.

(** What a program ends with, in a state of type [S]: a value, or a host error
    thrown with the state as mutated so far. *)
Inductive Completion (S A : Type) : Type :=
| Done (a : A) (s : S)
| Thrown (e : Error) (s : S).
Arguments Done {S A} a s.
Arguments Thrown {S A} e s.

Definition Outcome (A : Type) : Type := Completion World A.

Definition withFrameStack (fs : list Frame) (w : World) : World :=
  {| evaluation := {| environment := environment (evaluation w);
                      frameStack := fs;
                      instances := instances (evaluation w) |};
     uuid := uuid w; uuidCalls := uuidCalls w; raised := raised w |}.

Definition withInstances (m : gmap string RuntimeObject) (w : World) : World :=
  {| evaluation := {| environment := environment (evaluation w);
                      frameStack := frameStack (evaluation w);
                      instances := m |};
     uuid := uuid w; uuidCalls := uuidCalls w; raised := raised w |}.

Definition drawUuid (w : World) : World :=
  {| evaluation := evaluation w;
     uuid := uuid w; uuidCalls := S (uuidCalls w); raised := raised w |}.

Definition withRaised (r : list (Interruption * Id)) (w : World) : World :=
  {| evaluation := evaluation w;
     uuid := uuid w; uuidCalls := uuidCalls w; raised := r |}.

Definition setNextInstruction (n : nat) (f : Frame) : Frame :=
  {| instructions := instructions f; nextInstruction := n; locals := locals f;
     operandStack := operandStack f; resume := resume f |}.

Definition setLocals (l : Locals) (f : Frame) : Frame :=
  {| instructions := instructions f; nextInstruction := nextInstruction f; locals := l;
     operandStack := operandStack f; resume := resume f |}.

Definition setOperandStack (s : list Id) (f : Frame) : Frame :=
  {| instructions := instructions f; nextInstruction := nextInstruction f; locals := locals f;
     operandStack := s; resume := resume f |}.

Definition setResume (r : list Interruption) (f : Frame) : Frame :=
  {| instructions := instructions f; nextInstruction := nextInstruction f; locals := locals f;
     operandStack := operandStack f; resume := r |}.

Definition setFields (l : Locals) (o : RuntimeObject) : RuntimeObject :=
  {| id := id o; module := module o; fields := l; innerValue := innerValue o |}.

Definition setInnerValue (v : option InnerValue) (o : RuntimeObject) : RuntimeObject :=
  {| id := id o; module := module o; fields := fields o; innerValue := v |}.

(** An access to the frame at depth [d]; on a missing frame JS raises a
    [TypeError] (a property of [undefined]). *)
Definition onFrame (d : nat) (g : Frame -> Frame) (w : World) : Outcome unit :=
  match frameStack (evaluation w) !! d with
  | Some _ => Done tt (withFrameStack (alter g d (frameStack (evaluation w))) w)
  | None => Thrown TypeError w
  end.

Definition onInstance (i : Id) (g : RuntimeObject -> RuntimeObject) (w : World) : Outcome unit :=
  match instances (evaluation w) !! i with
  | Some o => Done tt (withInstances (<[i := g o]> (instances (evaluation w))) w)
  | None => Thrown TypeError w
  end.

Definition handle {X : Type} (op : Op X) (w : World) : Outcome X :=
  match op in Op X return Outcome X with
  | Frames => Done (frameStack (evaluation w)) w
  | Instance i => Done (getReferent (instances (evaluation w) !! i) i) w
  | SetNextInstruction d n => onFrame d (setNextInstruction n) w
  | SetLocal d name v => onFrame d (fun f => setLocals (setProperty name v (locals f)) f) w
  | OperandPop d =>
      match frameStack (evaluation w) !! d with
      | Some f =>
          match operandStack f with
          | v :: rest =>
              Done (Some v)
                (withFrameStack (alter (setOperandStack rest) d (frameStack (evaluation w))) w)
          | [] => Done None w
          end
      | None => Thrown TypeError w
      end
  | OperandPush d v => onFrame d (fun f => setOperandStack (v :: operandStack f) f) w
  | ResumePush d k => onFrame d (fun f => setResume (resume f ++ [k]) f) w
  | SetResume d r => onFrame d (setResume r) w
  | FramePop => Done tt (withFrameStack (tail (frameStack (evaluation w))) w)
  | FramePush f => Done tt (withFrameStack (f :: frameStack (evaluation w)) w)
  | Uuid => Done (uuid w (uuidCalls w)) (drawUuid w)
  | NewInstance module value =>
      let i := uuid w (uuidCalls w) in
      Done i
        (withInstances
           (<[i := {| id := i; module := module; fields := ∅; innerValue := value |}]>
              (instances (evaluation w)))
           (drawUuid w))
  | SetField i name v => onInstance i (fun o => setFields (setProperty name v (fields o)) o) w
  | SetInnerValue i value => onInstance i (setInnerValue value) w
  | MutateList i g =>
      match instances (evaluation w) !! i with
      | Some o =>
          match innerValue o with
          | Some (VList ids) =>
              Done tt
                (withInstances
                   (<[i := setInnerValue (Some (VList (g ids))) o]> (instances (evaluation w)))
                   w)
          | _ => Thrown TypeError w
          end
      | None => Thrown TypeError w
      end
  | Interrupting k v => Done tt (withRaised (raised w ++ [(k, v)]) w)
  end.

Fixpoint run {A : Type} (p : Prog A) (w : World) : Outcome A :=
  match p with
  | Ret a => Done a w
  | Raise e => Thrown e w
  | Do op k =>
      match handle op w with
      | Done x w' => run (k x) w'
      | Thrown e w' => Thrown e w'
      end
  end.

(** A native acts on the evaluation it is handed, through the same accesses:
    [(self, ...args) => (evaluation) => void]. [Natives] stands for
    [nativeLookup(natives, method)]; [None] when the registry has no entry. *)
Definition Native := Referent -> list (option Referent) -> Prog unit.
Definition Natives := Method -> option Native.

(** ** Operations *)

Definition popOperand : Prog Id :=
  response ← perform (OperandPop 0);
  match response with
  | Some r => if truthy r then Ret r else Raise PoppedEmptyOperandStack
  | None => Raise PoppedEmptyOperandStack
  end.

Definition pushOperand (i : Id) : Prog unit := perform (OperandPush 0 i).

Definition getInstance (i : Id) : Prog Referent :=
  response ← perform (Instance i);
  match response with
  | Some o => Ret o
  | None => Raise (UndefinedInstance i)
  end.

(** [uuid()] is drawn first; [toFixed] exists on numbers only. *)
Definition addInstance (module : Name) (innerValue : option InnerValue) : Prog Id :=
  if decide (module = "wollok.lang.Number") then
    match innerValue with
    | Some (VNumber n) => perform (NewInstance module (Some (VNumber (toFixed4 n))))
    | _ => _ ← perform Uuid; Raise TypeError
    end
  else perform (NewInstance module innerValue).

Definition includes (k : Interruption) (r : list Interruption) : bool :=
  bool_decide (k ∈ r).

(** The [do ... while] of [interrupt]: [below] holds the frames under the one
    being popped, so its head is [last(frameStack)] after the pop. *)
Fixpoint unwind (interruption : Interruption) (below : list Frame) : Prog (option Frame) :=
  _ ← perform FramePop;
  match below with
  | nextFrame :: below' =>
      if includes interruption (resume nextFrame) then Ret (Some nextFrame)
      else unwind interruption below'
  | [] => Ret None
  end.

Definition interrupt (interruption : Interruption) (valueId : Id) : Prog unit :=
  _ ← perform (Interrupting interruption valueId);
  frames ← perform Frames;
  nextFrame ← unwind interruption (tail frames);
  match nextFrame with
  | None =>
      _ ← (if decide (interruption = Exception) then
             value ← getInstance valueId;
             match value with
             | AnInstance value =>
                 match getProperty (fields value) "message" with
                 | Some m => if truthy m then _ ← getInstance m; Ret tt else Ret tt
                 | None => Ret tt
                 end
             | Inherited _ => Raise TypeError
             end
           else Ret tt);
      Raise (UnhandledInterruption interruption valueId)
  | Some f =>
      _ ← perform (SetResume 0 (filter (fun elem => elem ≠ interruption) (resume f)));
      perform (OperandPush 0 valueId)
  end.

(** ** Helpers of [step] *)

(** [Array.from({ length: n }, popOperand)] *)
Fixpoint popOperands (n : nat) : Prog (list Id) :=
  match n with
  | O => Ret []
  | S n' => v ← popOperand; vs ← popOperands n'; Ret (v :: vs)
  end.

(** Ramda's [zipObj]: pairs up to the shorter list, a later key overriding an
    earlier equal one. *)
Definition zipObj (keys : list Name) (values : list Id) : Locals :=
  fold_left (fun m kv => <[kv.1 := kv.2]> m) (zip keys values) ∅.

Definition parameterNames (ps : list ParameterNode) : list Name :=
  map parameter_name ps.

(** The locals of a call: [{...zipObj(names, argIds), self: selfId}], and with
    a vararg parameter
    [{...zipObj(names.slice(0, -1), argIds), [last.name]: restId, self: selfId}]. *)
Definition bindParameters (ps : list ParameterNode) (argIds : list Id) (selfId : Id)
    : Prog Locals :=
  if existsb isVarArg ps then
    restId ← addInstance "wollok.lang.List" (Some (VList (drop (length ps - 1) argIds)));
    match last ps with
    | Some lastParameter =>
        Ret (<["self" := selfId]>
               (<[parameter_name lastParameter := restId]>
                  (zipObj (removelast (parameterNames ps)) argIds)))
    | None => Raise TypeError
    end
  else Ret (<["self" := selfId]> (zipObj (parameterNames ps) argIds)).

(** [list.findIndex(fqn => fqn === name) + 1]: [-1 + 1] when nothing is found. *)
Definition findIndexSucc (name : Name) (l : list Name) : nat :=
  match list_find (fun fqn => fqn = name) l with
  | Some (start, _) => S start
  | None => 0
  end.

Definition fieldsOf (c : ClassNode) : list Field :=
  omap (fun m => match m with MField f => Some f | _ => None end) (members c).

(** [hierarchy.reduce((fields, module) => [...module.fields, ...fields], [])] *)
Definition allFieldsOf (h : list ClassNode) : list Field :=
  fold_left (fun fields module => fieldsOf module ++ fields) h [].

Definition newFrame (code : list Instruction) (l : Locals) (r : list Interruption) : Frame :=
  {| instructions := code; nextInstruction := 0; locals := l; operandStack := []; resume := r |}.

(** [compile(environment)(node)] where [node] may be [undefined]: the
    memoization key reads [node.id]. *)
Definition compileBody' (environment : Environment) (body : option Body)
    : Prog (list Instruction) :=
  match body with
  | Some b => Ret (compileBody environment b)
  | None => Raise TypeError
  end.

(** ** Steps *)

Section Step.
Variable natives : Natives.
Variable environment : Environment.

Definition classFqn (c : ClassNode) : Name := fullyQualifiedName environment (NClass c).

(** [frameStack.map(({ locals }) => locals[name]).reverse().find(it => !!it)] *)
Definition loadLocal (name : Name) (frames : list Frame) : option Id :=
  find truthy (omap (fun f => getProperty (locals f) name) frames).

(** [[...frameStack].reverse().find(({ locals }) => name in locals)], as the
    depth of the frame found. *)
Definition findBinding (name : Name) (frames : list Frame) : option nat :=
  fst <$> list_find (fun f => hasProperty (locals f) name = true) frames.

(** [resolve(name)], where [name] may be [undefined]. *)
Definition resolveMaybe (name : option Name) : option ClassNode :=
  match name with
  | Some n => Some (resolve environment n)
  | None => resolveUndefined environment
  end.

(** The class at which the method lookup of a [CALL] starts, on a receiver
    whose [module] is [selfModule]: the class after [lookupStart] in the
    receiver's hierarchy when one is given ([ownHierarchy[start + 1]]), the
    receiver's module otherwise. Past the top of the hierarchy the name is
    [undefined], and so is the [module] of a receiver that is no instance.
    [None] when a [resolve] throws. *)
Definition lookupStartClass (selfModule : option Name) (lookupStart : option Name)
    : option ClassNode :=
  match lookupStart with
  | Some start =>
      if truthy start then
        match resolveMaybe selfModule with
        | Some selfClass =>
            let ownHierarchy := map classFqn (hierarchy environment selfClass) in
            resolveMaybe (ownHierarchy !! findIndexSucc start ownHierarchy)
        | None => None
        end
      else resolveMaybe selfModule
  | None => resolveMaybe selfModule
  end.

(** The same on a receiver that is an instance, of module [selfModule]. *)
Definition lookupClass (selfModule : Name) (lookupStart : option Name) : option ClassNode :=
  lookupStartClass (Some selfModule) lookupStart.

(** [argIds.map(id => evaluation.instances[id])] *)
Fixpoint instancesOf (ids : list Id) : Prog (list (option Referent)) :=
  match ids with
  | [] => Ret []
  | i :: ids' => o ← perform (Instance i); os ← instancesOf ids'; Ret (o :: os)
  end.

(** case 'CALL' *)
Definition stepCALL (message : Name) (arity : nat) (lookupStart : option Name)
    : Prog unit :=
  popped ← popOperands arity;
  let argIds := reverse popped in
  selfId ← popOperand;
  self ← getInstance selfId;
  startClass ← (match lookupStartClass (moduleOf self) lookupStart with
                | Some c => Ret c
                | None => Raise TypeError
                end);
  let method := methodLookup environment message arity startClass in
  match method with
  | None =>
      match resolveMaybe (moduleOf self) with
      | None => Raise TypeError
      | Some selfClass =>
          let messageNotUnderstood :=
            methodLookup environment "messageNotUnderstood" 2 selfClass in
          nameId ← addInstance "wollok.lang.String" (Some (VString message));
          argsId ← addInstance "wollok.lang.List" (Some (VList argIds));
          _ ← perform (ResumePush 0 Return_);
          match messageNotUnderstood with
          | None => Raise TypeError
          | Some mnu =>
              code ← compileBody' environment (method_body mnu);
              perform (FramePush
                (newFrame code
                   (<["self" := selfId]>
                      (zipObj (parameterNames (method_parameters mnu)) [nameId; argsId]))
                   []))
          end
      end
  | Some method =>
      if isNative method then
        match natives method with
        | None => Raise TypeError
        | Some native =>
            args ← instancesOf argIds;
            native self args
        end
      else
        locals ← bindParameters (method_parameters method) argIds selfId;
        _ ← perform (ResumePush 0 Return_);
        code ← compileBody' environment (method_body method);
        perform (FramePush (newFrame (code ++ [PUSH VOID_ID; INTERRUPT Return_]) locals []))
  end.

(** case 'INIT' *)
Definition stepINIT (arity : nat) (lookupStart : Name) (initFields : bool)
    : Prog unit :=
  selfId ← popOperand;
  popped ← popOperands arity;
  let argIds := reverse popped in
  self ← getInstance selfId;
  let lookupStart' := resolve environment lookupStart in
  match resolveMaybe (moduleOf self) with
  | None => Raise TypeError
  | Some selfClass =>
  let allFields := allFieldsOf (hierarchy environment selfClass) in
  let constructor := constructorLookup environment arity lookupStart' in
  let ownSuperclass := superclass environment lookupStart' in
  match constructor with
  | None => Raise (MissingConstructor arity (classFqn lookupStart'))
  | Some constructor =>
      locals ← bindParameters (constructor_parameters constructor) argIds selfId;
      _ ← perform (ResumePush 0 Return_);
      let fieldInitialization :=
        if initFields then
          flat_map (fun f => [LOAD "self"]
                             ++ compileExpression environment (field_value f)
                             ++ [SET (field_name f)]) allFields
        else [] in
      let base := baseCall constructor in
      baseCallChaining ←
        (if bool_decide (is_Some ownSuperclass) || negb (callsSuper base) then
           target ← (if callsSuper base then
                       match ownSuperclass with
                       | Some c => Ret (classFqn c)
                       | None => Raise TypeError
                       end
                     else Ret lookupStart);
           Ret (flat_map (compileExpression environment) (baseCall_args base)
                ++ [LOAD "self"; INIT (length (baseCall_args base)) target false])
         else Ret []);
      perform (FramePush
        (newFrame
           (fieldInitialization
            ++ baseCallChaining
            ++ compileBody environment (constructor_body constructor)
            ++ [LOAD "self"; INTERRUPT Return_])
           locals []))
  end
  end.

(** The [switch] of [step]; [currentFrame] is the frame as read at the start
    of the step and [next] its [nextInstruction] after the increment. *)
Definition execute (frames : list Frame) (currentFrame : Frame) (next : nat)
    (instruction : Instruction) : Prog unit :=
  match instruction with
  | LOAD name =>
      match loadLocal name frames with
      | Some value => pushOperand value
      | None => Raise (MissingLocal name)
      end
  | STORE name lookup =>
      valueId ← popOperand;
      let frame := default 0 (if lookup then findBinding name frames else None) in
      perform (SetLocal frame name valueId)
  | PUSH i => pushOperand i
  | GET name =>
      selfId ← popOperand;
      self ← getInstance selfId;
      match self with
      | AnInstance self =>
          match getProperty (fields self) name with
          | Some value =>
              if truthy value then pushOperand value
              else Raise (UndefinedField (module self) name)
          | None => Raise (UndefinedField (module self) name)
          end
      | Inherited _ => Raise TypeError
      end
  | SET name =>
      valueId ← popOperand;
      selfId ← popOperand;
      self ← getInstance selfId;
      match self with
      | AnInstance _ => perform (SetField selfId name valueId)
      | Inherited _ => Raise TypeError
      end
  | SWAP =>
      a ← popOperand;
      b ← popOperand;
      _ ← pushOperand a;
      pushOperand b
  | INSTANTIATE module innerValue =>
      i ← addInstance module innerValue;
      pushOperand i
  | INHERITS module' =>
      selfId ← popOperand;
      self ← getInstance selfId;
      match resolveMaybe (moduleOf self) with
      | Some selfClass =>
          pushOperand
            (if inherits environment selfClass (resolve environment module')
             then TRUE_ID else FALSE_ID)
      | None => Raise TypeError
      end
  | CONDITIONAL_JUMP count =>
      check ← popOperand;
      if bool_decide (check ≠ TRUE_ID) && bool_decide (check ≠ FALSE_ID) then
        i ← addInstance "wollok.lang.BadParameterException" None;
        interrupt Exception i
      else if (Z.of_nat (length (instructions currentFrame)) <=? Z.of_nat next + count)%Z
              || (count <? 0)%Z then
        Raise (InvalidJumpCount count)
      else
        perform (SetNextInstruction 0
                   (if decide (check = FALSE_ID) then Z.to_nat (Z.of_nat next + count)
                    else next))
  | CALL message arity lookupStart => stepCALL message arity lookupStart
  | INIT arity lookupStart initFields => stepINIT arity lookupStart initFields
  | IF_THEN_ELSE thenHandler elseHandler =>
      check ← popOperand;
      if bool_decide (check ≠ TRUE_ID) && bool_decide (check ≠ FALSE_ID) then
        i ← addInstance "wollok.lang.BadParameterException" None;
        interrupt Exception i
      else
        _ ← perform (ResumePush 0 Result);
        perform (FramePush
          (newFrame
             ([PUSH VOID_ID]
              ++ (if decide (check = TRUE_ID) then thenHandler else elseHandler)
              ++ [INTERRUPT Result])
             ∅ []))
  | TRY_CATCH_ALWAYS body catchHandler alwaysHandler =>
      _ ← perform (ResumePush 0 Result);
      _ ← perform (FramePush
             (newFrame
                ([STORE "<previous_interruption>" false]
                 ++ alwaysHandler
                 ++ [LOAD "<previous_interruption>"; RESUME_INTERRUPTION])
                ∅ [Result; Return_; Exception]));
      _ ← perform (FramePush
             (newFrame
                ([STORE "<exception>" false]
                 ++ catchHandler
                 ++ [LOAD "<exception>"; INTERRUPT Exception])
                ∅ [Exception]));
      perform (FramePush
        (newFrame ([PUSH VOID_ID] ++ body ++ [INTERRUPT Result]) ∅ []))
  | INTERRUPT interruption =>
      valueId ← popOperand;
      interrupt interruption valueId
  | RESUME_INTERRUPTION =>
      let allInterruptions := [Exception; Return_; Result] in
      if decide (length (resume currentFrame) ≠ length allInterruptions - 1) then
        Raise CannotInferInterruption
      else
        match find (fun interruption => negb (includes interruption (resume currentFrame)))
                allInterruptions with
        | Some lastInterruption =>
            valueId ← popOperand;
            interrupt lastInterruption valueId
        | None => Raise TypeError
        end
  end.

(** [Operations(evaluation)] destructures [last(frameStack)!] before [step]
    tests it, so an empty frame stack is a [TypeError]. *)
Definition stepProgram : Prog unit :=
  frames ← perform Frames;
  match frames with
  | [] => Raise TypeError
  | currentFrame :: _ =>
      match instructions currentFrame !! nextInstruction currentFrame with
      | None => Raise ReachedEndOfInstructions
      | Some instruction =>
          let next := S (nextInstruction currentFrame) in
          _ ← perform (SetNextInstruction 0 next);
          execute frames currentFrame next instruction
      end
  end.
End Step.

(** [step(natives)(evaluation)] *)
Definition step (natives : Natives) (w : World) : Outcome unit :=
  run (stepProgram natives (environment (evaluation w))) w.

(** ** Evaluation *)

(** [descendants(environment).filter(is('Singleton')).filter(node => !!node.name)] *)
Definition globalSingletons (environment : Environment) : list Singleton :=
  omap (fun node =>
          match node with
          | NSingleton s =>
              match singleton_name s with
              | Some name => if truthy name then Some s else None
              | None => None
              end
          | _ => None
          end)
       (descendants environment).

Definition buildEvaluationFor (environment : Environment) : Evaluation :=
  let globalSingletons := globalSingletons environment in
  let instances :=
    fold_left (fun all instance => <[id instance := instance]> all)
      ([ {| id := NULL_ID; module := "wollok.lang.Object"; fields := ∅;
            innerValue := Some VNull |};
         {| id := TRUE_ID; module := "wollok.lang.Boolean"; fields := ∅;
            innerValue := Some (VBoolean true) |};
         {| id := FALSE_ID; module := "wollok.lang.Boolean"; fields := ∅;
            innerValue := Some (VBoolean false) |} ]
       ++ map (fun module' =>
                 {| id := singleton_id module';
                    module := fullyQualifiedName environment (NSingleton module');
                    fields := ∅; innerValue := None |})
              globalSingletons)
      ∅ in
  let locals : Locals :=
    fold_left (fun all singleton =>
                 <[fullyQualifiedName environment (NSingleton singleton)
                   := singleton_id singleton]> all)
      globalSingletons
      (<["false" := FALSE_ID]> (<["true" := TRUE_ID]> (<["null" := NULL_ID]> ∅))) in
  {| environment := environment;
     instances := instances;
     frameStack :=
       [ {| instructions :=
              flat_map (fun s =>
                          flat_map (compileExpression environment) (superCall_args s)
                          ++ [PUSH (singleton_id s);
                              INIT (length (superCall_args s))
                                (fullyQualifiedName environment
                                   (resolveTarget environment (superCall_superclass s)))
                                true])
                       globalSingletons;
            nextInstruction := 0;
            locals := locals;
            operandStack := [];
            resume := [] |} ] |}.

(** The frame that [run(evaluation, natives, body)] pushes. *)
Definition runFrame (environment : Environment) (body : Body) : Frame :=
  newFrame (compileBody environment body) ∅ [].

(** The evaluations that stepping reaches. *)
Inductive steps (natives : Natives) : World -> World -> Prop :=
| steps_refl w : steps natives w w
| steps_step w w' w'' :
    steps natives w w' -> step natives w' = Done tt w'' -> steps natives w w''.

(** A world around an evaluation, for a given sequence of uuids. *)
Definition worldOf (u : nat -> Id) (e : Evaluation) : World :=
  {| evaluation := e; uuid := u; uuidCalls := 0; raised := [] |}.

(** ** Notions used in the statements *)

Definition outcomeWorld {A : Type} (o : Outcome A) : World :=
  match o with Done _ w => w | Thrown _ w => w end.

(** The current frame once [nextInstruction++] is done. *)
Definition advance (cur : Frame) : Frame :=
  setNextInstruction (S (nextInstruction cur)) cur.

(** [frame.locals[name] = v] *)
Definition assign (name : Name) (v : Id) (f : Frame) : Frame :=
  setLocals (<[name := v]> (locals f)) f.

(** A frame whose locals give nothing under [name]: they bind it to the
    empty id, or they do not bind it and inherit nothing under it. *)
Definition givesNothing (name : Name) (f : Frame) : Prop :=
  match locals f !! name with
  | Some v => truthy v = false
  | None => name ∉ objectPrototype
  end.

(** The id that a [CALL] or an [INIT] pops as its receiver, from the operand
    stack it finds: under the [arity] arguments for a [CALL], on top for an
    [INIT]. *)
Definition receiverOf (instruction : Instruction) (stack : list Id) : option Id :=
  match instruction with
  | CALL _ arity _ => stack !! arity
  | INIT _ _ _ => stack !! 0
  | _ => None
  end.

(** A [CALL] whose method lookup finds a native method. *)
Definition resolvesToNative (e : Evaluation) (instruction : Instruction) (stack : list Id)
    : Prop :=
  match instruction with
  | CALL message arity lookupStart =>
      exists selfId self startClass method,
        stack !! arity = Some selfId
        /\ getReferent (instances e !! selfId) selfId = Some self
        /\ lookupStartClass (environment e) (moduleOf self) lookupStart = Some startClass
        /\ methodLookup (environment e) message arity startClass = Some method
        /\ isNative method = true
  | _ => False
  end.

(** Programs that, when they complete, leave on top a frame whose [self] is
    [selfId]. *)
Definition endsWithSelf (selfId : Id) (p : Prog unit) : Prop :=
  forall w w', run p w = Done tt w' ->
    exists top, frameStack (evaluation w') !! 0 = Some top
                /\ locals top !! "self" = Some selfId.

(** Programs that never call [interrupt]. *)
Definition isInterrupting {X : Type} (op : Op X) : bool :=
  match op with Interrupting _ _ => true | _ => false end.

Fixpoint silent {A : Type} (p : Prog A) : Prop :=
  match p with
  | Ret _ | Raise _ => True
  | Do op k => isInterrupting op = false /\ forall x, silent (k x)
  end.

(** The operand on top of a frame is an id other than [true] and [false]. *)
Definition nonBooleanOperand (f : Frame) : Prop :=
  exists check rest,
    operandStack f = check :: rest
    /\ truthy check = true /\ check <> TRUE_ID /\ check <> FALSE_ID.

(** The instance under the id [k], if any, keeps its module from [w] to
    [w'], and no instance appears under [k]. *)
Definition stable (k : Id) (w w' : World) : Prop :=
  uuid w' = uuid w
  /\ (forall o, instances (evaluation w) !! k = Some o ->
      exists o', instances (evaluation w') !! k = Some o' /\ module o' = module o)
  /\ (instances (evaluation w) !! k = None -> instances (evaluation w') !! k = None).

(** The instances that [buildEvaluationFor] starts from, and the one it makes
    of a named global singleton. *)
Definition wellKnownInstances : gmap string RuntimeObject :=
  <[FALSE_ID := {| id := FALSE_ID; module := "wollok.lang.Boolean"; fields := ∅;
                   innerValue := Some (VBoolean false) |}]>
    (<[TRUE_ID := {| id := TRUE_ID; module := "wollok.lang.Boolean"; fields := ∅;
                     innerValue := Some (VBoolean true) |}]>
       (<[NULL_ID := {| id := NULL_ID; module := "wollok.lang.Object"; fields := ∅;
                        innerValue := Some VNull |}]> ∅)).

Definition singletonInstance (environment : Environment) (s : Singleton) : RuntimeObject :=
  {| id := singleton_id s;
     module := fullyQualifiedName environment (NSingleton s);
     fields := ∅; innerValue := None |}.

(** * The evaluation as a graph of JS objects

    In interpreter.ts an evaluation is an object that refers to an array of
    frames and to a dictionary of instances; a frame refers to its locals, its
    operand stack and its resume array, and an instance to its fields. [step]
    mutates these objects in place and [cloneEvaluation] copies them one by
    one. Here they live in a store, one heap per type of object, a reference
    being an index into the heap of its type: a new object goes to the end of
    its heap. An instance refers to its [innerValue], in the heap of
    payloads: [cloneEvaluation] copies the field, that is the reference, so
    that an instance and its copy share the payload, and what [MutateList]
    does to the array of one is done to the array of the other. A payload
    that is a number, a string, a boolean or [null] is a cell that nothing
    writes to. *)

Record FrameCell := {
  cell_instructions : list Instruction;
  cell_nextInstruction : nat;
  cell_locals : nat;
  cell_operandStack : nat;
  cell_resume : nat;
}.

Record ObjectCell := {
  cell_id : Id;
  cell_module : Name;
  cell_fields : nat;
  cell_innerValue : option nat;
}.

Record Store := {
  frameStacks : list (list nat);
  frameCells : list FrameCell;
  dictionaries : list Locals;
  operandStacks : list (list Id);
  resumes : list (list Interruption);
  instanceTables : list (gmap string nat);
  objectCells : list ObjectCell;
  payloads : list InnerValue;
}.

(** The evaluation object: [step] never assigns its fields. *)
Record EvaluationRef := {
  ref_environment : Environment;
  ref_frameStack : nat;
  ref_instances : nat;
}.

(** What the host keeps outside the evaluations: the ids that the calls of
    [uuid()] return, to the steps of whichever evaluation, and the ghost
    record of the interruptions. *)
Record Host := {
  host_uuid : nat -> Id;
  host_uuidCalls : nat;
  host_raised : list (Interruption * Id);
}.

Definition Machine : Type := Store * Host.

Definition withFrameStacks (x : list (list nat)) (s : Store) : Store :=
  {| frameStacks := x; frameCells := frameCells s; dictionaries := dictionaries s;
     operandStacks := operandStacks s; resumes := resumes s;
     instanceTables := instanceTables s; objectCells := objectCells s;
     payloads := payloads s |}.

Definition withFrameCells (x : list FrameCell) (s : Store) : Store :=
  {| frameStacks := frameStacks s; frameCells := x; dictionaries := dictionaries s;
     operandStacks := operandStacks s; resumes := resumes s;
     instanceTables := instanceTables s; objectCells := objectCells s;
     payloads := payloads s |}.

Definition withDictionaries (x : list Locals) (s : Store) : Store :=
  {| frameStacks := frameStacks s; frameCells := frameCells s; dictionaries := x;
     operandStacks := operandStacks s; resumes := resumes s;
     instanceTables := instanceTables s; objectCells := objectCells s;
     payloads := payloads s |}.

Definition withOperandStacks (x : list (list Id)) (s : Store) : Store :=
  {| frameStacks := frameStacks s; frameCells := frameCells s; dictionaries := dictionaries s;
     operandStacks := x; resumes := resumes s;
     instanceTables := instanceTables s; objectCells := objectCells s;
     payloads := payloads s |}.

Definition withResumes (x : list (list Interruption)) (s : Store) : Store :=
  {| frameStacks := frameStacks s; frameCells := frameCells s; dictionaries := dictionaries s;
     operandStacks := operandStacks s; resumes := x;
     instanceTables := instanceTables s; objectCells := objectCells s;
     payloads := payloads s |}.

Definition withInstanceTables (x : list (gmap string nat)) (s : Store) : Store :=
  {| frameStacks := frameStacks s; frameCells := frameCells s; dictionaries := dictionaries s;
     operandStacks := operandStacks s; resumes := resumes s;
     instanceTables := x; objectCells := objectCells s; payloads := payloads s |}.

Definition withObjectCells (x : list ObjectCell) (s : Store) : Store :=
  {| frameStacks := frameStacks s; frameCells := frameCells s; dictionaries := dictionaries s;
     operandStacks := operandStacks s; resumes := resumes s;
     instanceTables := instanceTables s; objectCells := x; payloads := payloads s |}.

Definition withPayloads (x : list InnerValue) (s : Store) : Store :=
  {| frameStacks := frameStacks s; frameCells := frameCells s; dictionaries := dictionaries s;
     operandStacks := operandStacks s; resumes := resumes s;
     instanceTables := instanceTables s; objectCells := objectCells s; payloads := x |}.

Definition cellNextInstruction (n : nat) (c : FrameCell) : FrameCell :=
  {| cell_instructions := cell_instructions c; cell_nextInstruction := n;
     cell_locals := cell_locals c; cell_operandStack := cell_operandStack c;
     cell_resume := cell_resume c |}.

Definition cellResume (r : nat) (c : FrameCell) : FrameCell :=
  {| cell_instructions := cell_instructions c; cell_nextInstruction := cell_nextInstruction c;
     cell_locals := cell_locals c; cell_operandStack := cell_operandStack c;
     cell_resume := r |}.

Definition cellInnerValue (v : option nat) (c : ObjectCell) : ObjectCell :=
  {| cell_id := cell_id c; cell_module := cell_module c; cell_fields := cell_fields c;
     cell_innerValue := v |}.

(** Reading a frame and an instance through their references. *)
Definition viewFrameCell (s : Store) (c : FrameCell) : option Frame :=
  l ← dictionaries s !! cell_locals c;
  o ← operandStacks s !! cell_operandStack c;
  r ← resumes s !! cell_resume c;
  Some {| instructions := cell_instructions c; nextInstruction := cell_nextInstruction c;
          locals := l; operandStack := o; resume := r |}.

Definition viewFrame (s : Store) (a : nat) : option Frame :=
  c ← frameCells s !! a; viewFrameCell s c.

Definition viewObject (s : Store) (a : nat) : option RuntimeObject :=
  c ← objectCells s !! a;
  l ← dictionaries s !! cell_fields c;
  Some {| id := cell_id c; module := cell_module c; fields := l;
          innerValue := cell_innerValue c ≫= fun a => payloads s !! a |}.

(** [evaluation.frameStack] and [evaluation.instances], read through. *)
Definition framesOf (s : Store) (e : EvaluationRef) : option (list Frame) :=
  frames ← frameStacks s !! ref_frameStack e; mapM (viewFrame s) frames.

Definition heapOf (s : Store) (e : EvaluationRef) : gmap string RuntimeObject :=
  match instanceTables s !! ref_instances e with
  | Some table => omap (viewObject s) table
  | None => ∅
  end.

(** The frame at depth [d] of [evaluation.frameStack]. *)
Definition frameAt (s : Store) (e : EvaluationRef) (d : nat) : option (nat * FrameCell) :=
  frames ← frameStacks s !! ref_frameStack e;
  a ← frames !! d;
  c ← frameCells s !! a;
  Some (a, c).

Definition objectAt (s : Store) (e : EvaluationRef) (i : Id) : option (nat * ObjectCell) :=
  table ← instanceTables s !! ref_instances e;
  a ← table !! i;
  c ← objectCells s !! a;
  Some (a, c).

(** A value that becomes the [innerValue] of an instance goes to the end of
    the heap of payloads, [undefined] nowhere. *)
Definition payloadRef (value : option InnerValue) (s : Store) : option nat :=
  match value with
  | Some _ => Some (length (payloads s))
  | None => None
  end.

Definition drawHostUuid (h : Host) : Host :=
  {| host_uuid := host_uuid h; host_uuidCalls := S (host_uuidCalls h);
     host_raised := host_raised h |}.

(** One access, on the evaluation [e] in the machine [m]: [None] when JS
    raises a [TypeError] on a property of [undefined]. *)
Definition access {X : Type} (e : EvaluationRef) (op : Op X) (m : Machine)
    : option (X * Machine) :=
  let s := m.1 in
  let h := m.2 in
  match op in Op X return option (X * Machine) with
  | Frames => frames ← framesOf s e; Some (frames, m)
  | Instance i =>
      table ← instanceTables s !! ref_instances e;
      Some (getReferent (table !! i ≫= viewObject s) i, m)
  | SetNextInstruction d n =>
      '(a, c) ← frameAt s e d;
      Some (tt, (withFrameCells (<[a := cellNextInstruction n c]> (frameCells s)) s, h))
  | SetLocal d name v =>
      '(a, c) ← frameAt s e d;
      l ← dictionaries s !! cell_locals c;
      Some (tt,
            (withDictionaries (<[cell_locals c := setProperty name v l]> (dictionaries s)) s, h))
  | OperandPop d =>
      '(a, c) ← frameAt s e d;
      o ← operandStacks s !! cell_operandStack c;
      match o with
      | v :: rest =>
          Some (Some v,
                (withOperandStacks (<[cell_operandStack c := rest]> (operandStacks s)) s, h))
      | [] => Some (None, m)
      end
  | OperandPush d v =>
      '(a, c) ← frameAt s e d;
      o ← operandStacks s !! cell_operandStack c;
      Some (tt, (withOperandStacks (<[cell_operandStack c := v :: o]> (operandStacks s)) s, h))
  | ResumePush d k =>
      '(a, c) ← frameAt s e d;
      r ← resumes s !! cell_resume c;
      Some (tt, (withResumes (<[cell_resume c := r ++ [k]]> (resumes s)) s, h))
  | SetResume d r =>
      '(a, c) ← frameAt s e d;
      Some (tt,
            (withFrameCells (<[a := cellResume (length (resumes s)) c]> (frameCells s))
               (withResumes (resumes s ++ [r]) s), h))
  | FramePop =>
      frames ← frameStacks s !! ref_frameStack e;
      Some (tt, (withFrameStacks (<[ref_frameStack e := tail frames]> (frameStacks s)) s, h))
  | FramePush f =>
      frames ← frameStacks s !! ref_frameStack e;
      let c := {| cell_instructions := instructions f;
                  cell_nextInstruction := nextInstruction f;
                  cell_locals := length (dictionaries s);
                  cell_operandStack := length (operandStacks s);
                  cell_resume := length (resumes s) |} in
      Some (tt,
            (withFrameStacks
               (<[ref_frameStack e := length (frameCells s) :: frames]> (frameStacks s))
               (withFrameCells (frameCells s ++ [c])
                  (withResumes (resumes s ++ [resume f])
                     (withOperandStacks (operandStacks s ++ [operandStack f])
                        (withDictionaries (dictionaries s ++ [locals f]) s)))), h))
  | Uuid => Some (host_uuid h (host_uuidCalls h), (s, drawHostUuid h))
  | NewInstance module value =>
      table ← instanceTables s !! ref_instances e;
      let i := host_uuid h (host_uuidCalls h) in
      let c := {| cell_id := i; cell_module := module;
                  cell_fields := length (dictionaries s);
                  cell_innerValue := payloadRef value s |} in
      Some (i,
            (withInstanceTables
               (<[ref_instances e := <[i := length (objectCells s)]> table]> (instanceTables s))
               (withObjectCells (objectCells s ++ [c])
                  (withDictionaries (dictionaries s ++ [∅])
                     (withPayloads (payloads s ++ option_list value) s))),
             drawHostUuid h))
  | SetField i name v =>
      '(a, c) ← objectAt s e i;
      l ← dictionaries s !! cell_fields c;
      Some (tt,
            (withDictionaries (<[cell_fields c := setProperty name v l]> (dictionaries s)) s, h))
  | SetInnerValue i value =>
      '(a, c) ← objectAt s e i;
      Some (tt,
            (withObjectCells (<[a := cellInnerValue (payloadRef value s) c]> (objectCells s))
               (withPayloads (payloads s ++ option_list value) s), h))
  | MutateList i g =>
      '(a, c) ← objectAt s e i;
      p ← cell_innerValue c;
      v ← payloads s !! p;
      match v with
      | VList ids => Some (tt, (withPayloads (<[p := VList (g ids)]> (payloads s)) s, h))
      | _ => None
      end
  | Interrupting k v =>
      Some (tt, (s, {| host_uuid := host_uuid h; host_uuidCalls := host_uuidCalls h;
                       host_raised := host_raised h ++ [(k, v)] |}))
  end.

(** Running a program on the evaluation [e] of a machine. *)
Fixpoint exec {A : Type} (e : EvaluationRef) (p : Prog A) (m : Machine)
    : Completion Machine A :=
  match p with
  | Ret a => Done a m
  | Raise err => Thrown err m
  | Do op k =>
      match access e op m with
      | Some (x, m') => exec e (k x) m'
      | None => Thrown TypeError m
      end
  end.

(** [step(natives)(evaluation)] on an evaluation of the store. *)
Definition stepIn (natives : Natives) (e : EvaluationRef) (m : Machine)
    : Completion Machine unit :=
  exec e (stepProgram natives (ref_environment e)) m.

Definition machineOf {A : Type} (c : Completion Machine A) : Machine :=
  match c with Done _ m => m | Thrown _ m => m end.

(** ** [cloneEvaluation] *)

(** [{ id, module, fields: { ...fields }, innerValue }]: the fields are
    copied into a new dictionary, the [innerValue] is the one of the
    original. *)
Definition cloneObject (s : Store) (a : nat) : option (nat * Store) :=
  c ← objectCells s !! a;
  l ← dictionaries s !! cell_fields c;
  Some (length (objectCells s),
        withObjectCells
          (objectCells s
           ++ [ {| cell_id := cell_id c; cell_module := cell_module c;
                   cell_fields := length (dictionaries s);
                   cell_innerValue := cell_innerValue c |} ])
          (withDictionaries (dictionaries s ++ [l]) s)).

(** [Object.keys(evaluation.instances).reduce(...)], over the entries of the
    dictionary. *)
Fixpoint cloneObjects (entries : list (string * nat)) (clones : gmap string nat) (s : Store)
    : option (gmap string nat * Store) :=
  match entries with
  | [] => Some (clones, s)
  | (name, a) :: entries' =>
      '(a', s') ← cloneObject s a;
      cloneObjects entries' (<[name := a']> clones) s'
  end.

(** [{ locals: { ...locals }, operandStack: [...operandStack], instructions,
       nextInstruction, resume: [...resume] }] *)
Definition cloneFrame (s : Store) (a : nat) : option (nat * Store) :=
  c ← frameCells s !! a;
  l ← dictionaries s !! cell_locals c;
  o ← operandStacks s !! cell_operandStack c;
  r ← resumes s !! cell_resume c;
  Some (length (frameCells s),
        withFrameCells
          (frameCells s
           ++ [ {| cell_instructions := cell_instructions c;
                   cell_nextInstruction := cell_nextInstruction c;
                   cell_locals := length (dictionaries s);
                   cell_operandStack := length (operandStacks s);
                   cell_resume := length (resumes s) |} ])
          (withResumes (resumes s ++ [r])
             (withOperandStacks (operandStacks s ++ [o])
                (withDictionaries (dictionaries s ++ [l]) s)))).

(** [evaluation.frameStack.map(frame => ...)] *)
Fixpoint cloneFrames (frames : list nat) (s : Store) : option (list nat * Store) :=
  match frames with
  | [] => Some ([], s)
  | a :: frames' =>
      '(a', s') ← cloneFrame s a;
      '(clones, s'') ← cloneFrames frames' s';
      Some (a' :: clones, s'')
  end.

Definition cloneEvaluation (e : EvaluationRef) (s : Store) : option (EvaluationRef * Store) :=
  table ← instanceTables s !! ref_instances e;
  '(clones, s1) ← cloneObjects (map_to_list table) ∅ s;
  let s2 := withInstanceTables (instanceTables s1 ++ [clones]) s1 in
  frames ← frameStacks s2 !! ref_frameStack e;
  '(frames', s3) ← cloneFrames frames s2;
  Some ({| ref_environment := ref_environment e;
           ref_frameStack := length (frameStacks s3);
           ref_instances := length (instanceTables s1) |},
        withFrameStacks (frameStacks s3 ++ [frames']) s3).

(** ** Evaluations laid out in a store *)

(** Where the objects of an evaluation are. *)
Record FrameLayout := {
  at_frame : nat; at_locals : nat; at_operandStack : nat; at_resume : nat;
}.

Record ObjectLayout := { at_object : nat; at_fields : nat; at_payload : option nat }.

Record Layout := {
  layout_frames : list FrameLayout;
  layout_objects : gmap string ObjectLayout;
}.

Definition repFrame (s : Store) (l : FrameLayout) (f : Frame) : Prop :=
  frameCells s !! at_frame l
  = Some {| cell_instructions := instructions f; cell_nextInstruction := nextInstruction f;
            cell_locals := at_locals l; cell_operandStack := at_operandStack l;
            cell_resume := at_resume l |}
  /\ dictionaries s !! at_locals l = Some (locals f)
  /\ operandStacks s !! at_operandStack l = Some (operandStack f)
  /\ resumes s !! at_resume l = Some (resume f).

Definition repObject (s : Store) (l : ObjectLayout) (o : RuntimeObject) : Prop :=
  objectCells s !! at_object l
  = Some {| cell_id := id o; cell_module := module o; cell_fields := at_fields l;
            cell_innerValue := at_payload l |}
  /\ dictionaries s !! at_fields l = Some (fields o)
  /\ option_Forall2 (fun a v => payloads s !! a = Some v) (at_payload l) (innerValue o).

(** The store holds the evaluation [E] at [e], laid out as [L]. *)
Definition rep (s : Store) (e : EvaluationRef) (L : Layout) (E : Evaluation) : Prop :=
  environment E = ref_environment e
  /\ frameStacks s !! ref_frameStack e = Some (map at_frame (layout_frames L))
  /\ Forall2 (repFrame s) (layout_frames L) (frameStack E)
  /\ instanceTables s !! ref_instances e = Some (at_object <$> layout_objects L)
  /\ (forall i, option_Forall2 (repObject s) (layout_objects L !! i) (instances E !! i)).

(** The references that an evaluation owns in each heap. *)
Definition ownsFrame (L : Layout) (a : nat) : Prop :=
  a ∈ map at_frame (layout_frames L).
Definition ownsOperandStack (L : Layout) (a : nat) : Prop :=
  a ∈ map at_operandStack (layout_frames L).
Definition ownsResume (L : Layout) (a : nat) : Prop :=
  a ∈ map at_resume (layout_frames L).
Definition ownsObject (L : Layout) (a : nat) : Prop :=
  exists i x, layout_objects L !! i = Some x /\ at_object x = a.
Definition ownsFields (L : Layout) (a : nat) : Prop :=
  exists i x, layout_objects L !! i = Some x /\ at_fields x = a.
Definition ownsDictionary (L : Layout) (a : nat) : Prop :=
  a ∈ map at_locals (layout_frames L) \/ ownsFields L a.

(** No object of the evaluation is referred to twice. *)
Definition separate (L : Layout) : Prop :=
  NoDup (map at_frame (layout_frames L))
  /\ NoDup (map at_locals (layout_frames L))
  /\ NoDup (map at_operandStack (layout_frames L))
  /\ NoDup (map at_resume (layout_frames L))
  /\ (forall i j x y,
         layout_objects L !! i = Some x -> layout_objects L !! j = Some y ->
         at_object x = at_object y \/ at_fields x = at_fields y -> i = j)
  /\ (forall a, ownsFields L a -> a ∉ map at_locals (layout_frames L)).

(** Two evaluations that share no object that [step] mutates; they may
    share payloads. *)
Definition disjoint (e1 : EvaluationRef) (L1 : Layout) (e2 : EvaluationRef) (L2 : Layout)
    : Prop :=
  ref_frameStack e1 <> ref_frameStack e2
  /\ ref_instances e1 <> ref_instances e2
  /\ (forall a, ownsFrame L1 a -> ~ ownsFrame L2 a)
  /\ (forall a, ownsOperandStack L1 a -> ~ ownsOperandStack L2 a)
  /\ (forall a, ownsResume L1 a -> ~ ownsResume L2 a)
  /\ (forall a, ownsObject L1 a -> ~ ownsObject L2 a)
  /\ (forall a, ownsDictionary L1 a -> ~ ownsDictionary L2 a).

Definition hostWorld (E : Evaluation) (h : Host) : World :=
  {| evaluation := E; uuid := host_uuid h; uuidCalls := host_uuidCalls h;
     raised := host_raised h |}.

(** Two evaluations of one store, laid out apart from each other. *)
Definition apart (s : Store) (e1 : EvaluationRef) (L1 : Layout) (E1 : Evaluation)
    (e2 : EvaluationRef) (L2 : Layout) (E2 : Evaluation) : Prop :=
  rep s e1 L1 E1 /\ separate L1
  /\ rep s e2 L2 E2 /\ separate L2
  /\ disjoint e1 L1 e2 L2.

(** What [s'] keeps of [s]: every object that the evaluation owns. *)
Definition preserved (s s' : Store) (e : EvaluationRef) (L : Layout) : Prop :=
  (forall x, frameStacks s !! ref_frameStack e = Some x ->
             frameStacks s' !! ref_frameStack e = Some x)
  /\ (forall x, instanceTables s !! ref_instances e = Some x ->
                instanceTables s' !! ref_instances e = Some x)
  /\ (forall a x, ownsFrame L a -> frameCells s !! a = Some x -> frameCells s' !! a = Some x)
  /\ (forall a x, ownsOperandStack L a ->
                  operandStacks s !! a = Some x -> operandStacks s' !! a = Some x)
  /\ (forall a x, ownsResume L a -> resumes s !! a = Some x -> resumes s' !! a = Some x)
  /\ (forall a x, ownsObject L a -> objectCells s !! a = Some x -> objectCells s' !! a = Some x)
  /\ (forall a x, ownsDictionary L a ->
                  dictionaries s !! a = Some x -> dictionaries s' !! a = Some x)
  /\ (forall a x, payloads s !! a = Some x -> payloads s' !! a = Some x).

(** A store that differs from [s] at most in the four objects of a frame,
    and one that differs at most in the two objects of an instance and in
    payloads that [s] does not have. *)
Definition frameWrite (s s' : Store) (l : FrameLayout) : Prop :=
  frameStacks s' = frameStacks s
  /\ instanceTables s' = instanceTables s
  /\ objectCells s' = objectCells s
  /\ (forall a x, a <> at_frame l -> frameCells s !! a = Some x -> frameCells s' !! a = Some x)
  /\ (forall a x, a <> at_locals l ->
                  dictionaries s !! a = Some x -> dictionaries s' !! a = Some x)
  /\ (forall a x, a <> at_operandStack l ->
                  operandStacks s !! a = Some x -> operandStacks s' !! a = Some x)
  /\ (forall a x, a <> at_resume l -> resumes s !! a = Some x -> resumes s' !! a = Some x)
  /\ payloads s' = payloads s.

Definition objectWrite (s s' : Store) (l : ObjectLayout) : Prop :=
  frameStacks s' = frameStacks s
  /\ instanceTables s' = instanceTables s
  /\ frameCells s' = frameCells s
  /\ operandStacks s' = operandStacks s
  /\ resumes s' = resumes s
  /\ (forall a x, a <> at_object l -> objectCells s !! a = Some x -> objectCells s' !! a = Some x)
  /\ (forall a x, a <> at_fields l ->
                  dictionaries s !! a = Some x -> dictionaries s' !! a = Some x)
  /\ (forall a x, payloads s !! a = Some x -> payloads s' !! a = Some x).

Definition withEvaluationFrames (fs : list Frame) (E : Evaluation) : Evaluation :=
  {| environment := environment E; frameStack := fs; instances := instances E |}.

Definition withEvaluationInstances (m : gmap string RuntimeObject) (E : Evaluation)
    : Evaluation :=
  {| environment := environment E; frameStack := frameStack E; instances := m |}.

(** The pure world [w] is what the machine [m] holds at [e1], apart from a
    second evaluation [E2] that it holds at [e2]. *)
Definition related (e1 e2 : EvaluationRef) (L2 : Layout) (E2 : Evaluation)
    (w : World) (m : Machine) : Prop :=
  exists L1 E1, w = hostWorld E1 m.2 /\ apart m.1 e1 L1 E1 e2 L2 E2.

Definition simulates {A : Type} (R : World -> Machine -> Prop)
    (o : Outcome A) (c : Completion Machine A) : Prop :=
  match o, c with
  | Done a w, Done a' m => a = a' /\ R w m
  | Thrown e w, Thrown e' m => e = e' /\ R w m
  | _, _ => False
  end.

(** [n] rounds of lock-step: one step of the evaluation at [e], then one of
    the evaluation at [e'], both drawing their ids from the one supply of the
    host, as the calls of [uuid()] do. *)
Fixpoint lockstepShared (natives : Natives) (e e' : EvaluationRef) (n : nat)
    (m : Machine) : Machine :=
  match n with
  | 0 => m
  | S n' =>
      lockstepShared natives e e' n'
        (machineOf (stepIn natives e' (machineOf (stepIn natives e m))))
  end.

(** The machines that steps of the evaluation at [e] and steps of the
    evaluation at [e'] lead to from [m0], in whatever order. *)
Inductive interleaved (natives : Natives) (e e' : EvaluationRef) (m0 : Machine)
    : Machine -> Prop :=
| interleaved_start : interleaved natives e e' m0 m0
| interleaved_original m :
    interleaved natives e e' m0 m ->
    interleaved natives e e' m0 (machineOf (stepIn natives e m))
| interleaved_clone m :
    interleaved natives e e' m0 m ->
    interleaved natives e e' m0 (machineOf (stepIn natives e' m)).

(** What one evaluation shows of itself. *)
Definition observe (s : Store) (e : EvaluationRef)
    : gmap string RuntimeObject * option (list Frame) :=
  (heapOf s e, framesOf s e).

(** [n] steps of the interpreter, going on after a step that throws as the
    lock-step does. *)
Fixpoint stepMany (natives : Natives) (n : nat) (w : World) : World :=
  match n with
  | 0 => w
  | S n' => stepMany natives n' (outcomeWorld (step natives w))
  end.

(** ** Notions of the proofs about the store *)

(** What an access answers: its result, or the [TypeError] of JS. *)
Definition answer {X : Type} (m : Machine) (r : option (X * Machine)) : Completion Machine X :=
  match r with
  | Some (x, m') => Done x m'
  | None => Thrown TypeError m
  end.

(** The references of an evaluation point into the heaps. *)
Definition bounded (s : Store) (L : Layout) : Prop :=
  (forall a, ownsFrame L a -> a < length (frameCells s))
  /\ (forall a, ownsOperandStack L a -> a < length (operandStacks s))
  /\ (forall a, ownsResume L a -> a < length (resumes s))
  /\ (forall a, ownsObject L a -> a < length (objectCells s))
  /\ (forall a, ownsDictionary L a -> a < length (dictionaries s)).

(** Worlds that differ at most in the ghost record of the interruptions. *)
Definition sameButRaised (w w' : World) : Prop :=
  evaluation w = evaluation w' /\ uuid w = uuid w' /\ uuidCalls w = uuidCalls w'.

(** The layout of an evaluation, with the instance [i] laid out as [l]. *)
Definition withLayoutObject (i : Id) (l : ObjectLayout) (L : Layout) : Layout :=
  {| layout_frames := layout_frames L; layout_objects := <[i := l]> (layout_objects L) |}.

(** A store that only grew: every heap of [s] is the beginning of the heap
    of [s']. *)
Definition grown (s s' : Store) : Prop :=
  (forall a x, frameCells s !! a = Some x -> frameCells s' !! a = Some x)
  /\ (forall a x, operandStacks s !! a = Some x -> operandStacks s' !! a = Some x)
  /\ (forall a x, resumes s !! a = Some x -> resumes s' !! a = Some x)
  /\ (forall a x, objectCells s !! a = Some x -> objectCells s' !! a = Some x)
  /\ (forall a x, dictionaries s !! a = Some x -> dictionaries s' !! a = Some x)
  /\ (forall a x, payloads s !! a = Some x -> payloads s' !! a = Some x).

(** What a copy leaves as it is. *)
Definition sameFrames (s s' : Store) : Prop :=
  frameStacks s' = frameStacks s /\ frameCells s' = frameCells s
  /\ operandStacks s' = operandStacks s /\ resumes s' = resumes s
  /\ instanceTables s' = instanceTables s /\ payloads s' = payloads s.

Definition sameObjects (s s' : Store) : Prop :=
  frameStacks s' = frameStacks s /\ instanceTables s' = instanceTables s
  /\ objectCells s' = objectCells s /\ payloads s' = payloads s.

(** The copies made so far of the instances of [E], in a store that was
    [s0] when the copy began: new objects, one for each instance copied. *)
Definition clonesOf (E : Evaluation) (s0 s : Store) (LO : gmap string ObjectLayout) : Prop :=
  (forall i l, LO !! i = Some l ->
     length (objectCells s0) <= at_object l /\ length (dictionaries s0) <= at_fields l
     /\ exists o, instances E !! i = Some o /\ repObject s l o)
  /\ (forall i j x y, LO !! i = Some x -> LO !! j = Some y ->
        at_object x = at_object y \/ at_fields x = at_fields y -> i = j).

(** A frame laid out in objects that [s] does not hold yet. *)
Definition freshFrame (s : Store) (l : FrameLayout) : Prop :=
  length (frameCells s) <= at_frame l /\ length (dictionaries s) <= at_locals l
  /\ length (operandStacks s) <= at_operandStack l /\ length (resumes s) <= at_resume l.

(** ** Notions used in the statements about several steps *)

(** [n] steps in a row, up to the first one that throws. *)
Fixpoint stepsN (natives : Natives) (n : nat) (w : World) : Outcome unit :=
  match n with
  | 0 => Done tt w
  | S n' =>
      match step natives w with
      | Done _ w' => stepsN natives n' w'
      | Thrown e w' => Thrown e w'
      end
  end.

(** The frame that an interruption resumes: [valueId] is pushed on its operand
    stack and every mark of the interruption leaves its resume set. *)
Definition resumed (interruption : Interruption) (valueId : Id) (f : Frame) : Frame :=
  setOperandStack (valueId :: operandStack f)
    (setResume (filter (fun elem => elem ≠ interruption) (resume f)) f).

(** Where the [do ... while] of [interrupt] stops, given the frames under the
    one it is called in: at the first of them that resumes on the
    interruption, with none left when there is no such frame. *)
Fixpoint unwound (interruption : Interruption) (below : list Frame) : list Frame :=
  match below with
  | [] => []
  | f :: below' =>
      if includes interruption (resume f) then below else unwound interruption below'
  end.

Definition deliver (interruption : Interruption) (valueId : Id) (below : list Frame)
    : option (list Frame) :=
  match unwound interruption below with
  | f :: rest => Some (resumed interruption valueId f :: rest)
  | [] => None
  end.

(** What [interrupt] throws once no frame is left: the failure of one of the
    [getInstance] that log an exception, the [TypeError] of a value that is
    no instance, or "Unhandled interruption". *)
Definition unhandledError (interruption : Interruption) (valueId : Id)
    (heap : gmap string RuntimeObject) : Error :=
  if decide (interruption = Exception) then
    match getReferent (heap !! valueId) valueId with
    | None => UndefinedInstance valueId
    | Some (Inherited _) => TypeError
    | Some (AnInstance value) =>
        match getProperty (fields value) "message" with
        | Some m =>
            if truthy m then
              match getReferent (heap !! m) m with
              | Some _ => UnhandledInterruption interruption valueId
              | None => UndefinedInstance m
              end
            else UnhandledInterruption interruption valueId
        | None => UnhandledInterruption interruption valueId
        end
    end
  else UnhandledInterruption interruption valueId.

(** [interrupt(interruption, valueId)] called in a frame over [below]. *)
Definition interrupted (interruption : Interruption) (valueId : Id) (below : list Frame)
    (w : World) : Outcome unit :=
  let w' := withRaised (raised w ++ [(interruption, valueId)]) w in
  match deliver interruption valueId below with
  | Some frames => Done tt (withFrameStack frames w')
  | None =>
      Thrown (unhandledError interruption valueId (instances (evaluation w)))
        (withFrameStack [] w')
  end.

(** ** [run]

    The [while] of [run] and of [runTests]: [step] as long as the top frame
    has an instruction left. [fuel] bounds the number of steps; the answer is
    [false] when it runs out before the loop ends. *)
Fixpoint stepAll (natives : Natives) (environment : Environment) (fuel : nat) : Prog bool :=
  frames ← perform Frames;
  match frames with
  | [] => Raise TypeError
  | top :: _ =>
      if nextInstruction top <? length (instructions top) then
        match fuel with
        | 0 => Ret false
        | S fuel' =>
            _ ← stepProgram natives environment;
            stepAll natives environment fuel'
        end
      else Ret true
  end.

(** [run(evaluation, natives, body)]; the name [run] is taken by the reading
    of programs above. The answer is [None] when the fuel runs out, and
    otherwise what [run] returns: the instance, if any, under the id on top
    of the frame that it pops, [instances[undefined]] when that frame has no
    operand. The operand is popped before the frame is, which leaves the same
    objects as popping it from the frame just popped. *)
Definition runBody (natives : Natives) (environment : Environment) (fuel : nat) (body : Body)
    : Prog (option (option Referent)) :=
  _ ← perform (FramePush (runFrame environment body));
  finished ← stepAll natives environment fuel;
  if finished : bool then
    response ← perform (OperandPop 0);
    _ ← perform FramePop;
    o ← perform (Instance (default "undefined" response));
    Ret (Some o)
  else Ret None.

(** ** Notions used in the statements about what an instruction leaves alone *)

(** The accesses that leave the frame stack with the frames it has, each
    with its instructions, its [nextInstruction] and its resume set, and
    those that leave the heap as it is. *)
Definition keepsFrames {X : Type} (op : Op X) : bool :=
  match op with
  | SetNextInstruction _ _ | ResumePush _ _ | SetResume _ _ | FramePop | FramePush _ => false
  | _ => true
  end.

Definition keepsHeap {X : Type} (op : Op X) : bool :=
  match op with
  | NewInstance _ _ | SetField _ _ _ | SetInnerValue _ _ | MutateList _ _ => false
  | _ => true
  end.

(** The accesses that change no array in place. *)
Definition keepsPayloads {X : Type} (op : Op X) : bool :=
  match op with
  | MutateList _ _ => false
  | _ => true
  end.

(** Programs made of accesses that [P] accepts. *)
Fixpoint within {A : Type} (P : forall X, Op X -> bool) (p : Prog A) : Prop :=
  match p with
  | Ret _ | Raise _ => True
  | Do op k => P _ op = true /\ forall x, within P (k x)
  end.

(** Natives that change no array in place. *)
Definition payloadSafe (natives : Natives) : Prop :=
  forall method native self args,
    natives method = Some native -> within (@keepsPayloads) (native self args).

(** What of a frame stack such accesses cannot change. *)
Definition shape (frames : list Frame)
    : list (list Instruction * nat * list Interruption) :=
  map (fun f => (instructions f, nextInstruction f, resume f)) frames.

(** The instructions that work on operands, locals and instances only, and
    those among them that leave the heap alone. *)
Definition straight (instruction : Instruction) : bool :=
  match instruction with
  | LOAD _ | STORE _ _ | PUSH _ | GET _ | SET _ | SWAP | INSTANTIATE _ _ | INHERITS _ => true
  | _ => false
  end.

Definition reading (instruction : Instruction) : bool :=
  match instruction with
  | LOAD _ | STORE _ _ | PUSH _ | GET _ | SWAP | INHERITS _ => true
  | _ => false
  end.

(** The operands that an instruction pops before anything else it does;
    [RESUME_INTERRUPTION] looks at the resume set first. *)
Definition operandsNeeded (instruction : Instruction) : nat :=
  match instruction with
  | STORE _ _ | GET _ | INHERITS _ | CONDITIONAL_JUMP _ | IF_THEN_ELSE _ _ | INTERRUPT _ => 1
  | SET _ | SWAP => 2
  | CALL _ arity _ | INIT arity _ _ => S arity
  | LOAD _ | PUSH _ | INSTANTIATE _ _ | TRY_CATCH_ALWAYS _ _ _ | RESUME_INTERRUPTION => 0
  end.

(** For an instruction that works on a receiver: how many operands it pops
    before the receiver's id, and how many between that id and the look-up of
    the receiver. *)
Definition receiverPosition (instruction : Instruction) : option (nat * nat) :=
  match instruction with
  | GET _ | INHERITS _ => Some (0, 0)
  | SET _ => Some (1, 0)
  | CALL _ arity _ => Some (arity, 0)
  | INIT arity _ _ => Some (0, arity)
  | _ => None
  end.

(** Expressions and sentences without a message, an instantiation of a class
    or a control structure: references, [self] and literals of a value. *)
Definition plainExpression (e : Expression) : bool :=
  match e with
  | Reference_ _ | Self => true
  | Literal (LNull | LBoolean _ | LNumber _ | LString _) => true
  | _ => false
  end.

Definition plainSentence (s : Sentence) : bool :=
  match s with
  | Variable_ _ value | Assignment _ value | Expression_ value => plainExpression value
  | Return _ => false
  end.

(** The two frames that [TRY_CATCH_ALWAYS] pushes under the frame of the
    body: the one of the [catch] clauses, over the one of the [always]
    clause. *)
Definition catchFrame (catchHandler : list Instruction) : Frame :=
  newFrame
    ([STORE "<exception>" false] ++ catchHandler
     ++ [LOAD "<exception>"; INTERRUPT Exception])
    ∅ [Exception].

Definition alwaysFrame (alwaysHandler : list Instruction) : Frame :=
  newFrame
    ([STORE "<previous_interruption>" false] ++ alwaysHandler
     ++ [LOAD "<previous_interruption>"; RESUME_INTERRUPTION])
    ∅ [Result; Return_; Exception].

(** The code of one [catch] of a [Try], as [compile] lays it out: the handler
    proper, and before it the test of the exception against the type that the
    [catch] names, which jumps over the handler. *)
Definition catchHandler (environment : Environment) (c : Catch) : list Instruction :=
  match c with
  | Catch_ parameter _ body =>
      [PUSH VOID_ID; LOAD "<exception>"; STORE (parameter_name parameter) false]
      ++ compileBody environment body
      ++ [INTERRUPT Result]
  end.

Definition compileCatch (environment : Environment) (c : Catch) : list Instruction :=
  match c with
  | Catch_ _ parameterType _ =>
      [LOAD "<exception>";
       INHERITS (fullyQualifiedName environment (resolveTarget environment parameterType));
       CONDITIONAL_JUMP (Z.of_nat (length (catchHandler environment c)))]
      ++ catchHandler environment c
  end.

(** ** An example program

    Modelled from the spec: the query helpers of utils.ts (sections 4.3 and 6),
    over a table of classes, to run the interpreter on concrete programs.
    [hierarchy] goes from the class up to the root; a method matches a message
    on its name and on its arity, "exact on arity for fixed-arity methods, and
    greater-or-equal on (declared params - 1) for varargs methods". *)
Module Example.

Record Entry := { name : Name; parent : option Name; node : ClassNode }.

Definition emptyClass : ClassNode := {| class_id := ""; members := [] |}.

Section Table.
Variable table : list Entry.

Definition entryOf (fqn : Name) : option Entry :=
  find (fun e => String.eqb (name e) fqn) table.

Definition resolveIn (fqn : Name) : ClassNode :=
  match entryOf fqn with Some e => node e | None => emptyClass end.

Definition superclassIn (c : ClassNode) : option ClassNode :=
  e ← entryOf (class_id c); p ← parent e; node <$> entryOf p.

Fixpoint hierarchyFrom (fuel : nat) (c : ClassNode) : list ClassNode :=
  match fuel with
  | O => [c]
  | S fuel' =>
      match superclassIn c with
      | Some p => c :: hierarchyFrom fuel' p
      | None => [c]
      end
  end.

Definition hierarchyIn (c : ClassNode) : list ClassNode := hierarchyFrom (length table) c.

Definition inheritsIn (sub sup : ClassNode) : bool :=
  existsb (fun c => String.eqb (class_id c) (class_id sup)) (hierarchyIn sub).

Definition matchesArity (ps : list ParameterNode) (arity : nat) : bool :=
  if existsb isVarArg ps then length ps - 1 <=? arity else length ps =? arity.

Definition methodsOf (c : ClassNode) : list Method :=
  omap (fun m => match m with MMethod x => Some x | _ => None end) (members c).

Definition constructorsOf (c : ClassNode) : list Constructor :=
  omap (fun m => match m with MConstructor x => Some x | _ => None end) (members c).

Definition methodLookupIn (message : Name) (arity : nat) (start : ClassNode) : option Method :=
  find (fun m => String.eqb (method_name m) message
                 && matchesArity (method_parameters m) arity)
       (flat_map methodsOf (hierarchyIn start)).

Definition constructorLookupIn (arity : nat) (c : ClassNode) : option Constructor :=
  find (fun k => matchesArity (constructor_parameters k) arity) (constructorsOf c).

Definition fullyQualifiedNameIn (n : Node) : Name :=
  match n with
  | NClass c => class_id c
  | NSingleton s => default "" (singleton_name s)
  | _ => ""
  end.

Definition environmentOf (nodes : list Node) : Environment :=
  {| environment_id := "environment";
     descendants := nodes;
     resolve := resolveIn;
     resolveUndefined := None;
     resolveTarget := fun r =>
       match entryOf (reference_name r) with
       | Some e => NClass (node e)
       | None => NOther
       end;
     fullyQualifiedName := fullyQualifiedNameIn;
     firstAncestorOfKind_Method := fun _ =>
       {| method_id := ""; method_name := ""; method_parameters := [];
          isNative := false; method_body := None |};
     parentOf := fun _ => NOther;
     hierarchy := hierarchyIn;
     superclass := superclassIn;
     inherits := inheritsIn;
     methodLookup := methodLookupIn;
     constructorLookup := constructorLookupIn |}.
End Table.

Definition parameter (n : Name) : ParameterNode := {| parameter_name := n; isVarArg := false |}.
Definition vararg (n : Name) : ParameterNode := {| parameter_name := n; isVarArg := true |}.
Definition localReference (n : Name) : Expression :=
  Reference_ {| reference_id := n; reference_name := n |}.

Definition defaultConstructor : Constructor :=
  {| constructor_parameters := [];
     baseCall := {| callsSuper := true; baseCall_args := [] |};
     constructor_body := Body_ [] |}.

Definition messageNotUnderstoodBody : Body := Body_ [Return (Some (Literal LNull))].

Definition messageNotUnderstoodMethod : Method :=
  {| method_id := "Object.messageNotUnderstood";
     method_name := "messageNotUnderstood";
     method_parameters := [parameter "name"; parameter "parameters"];
     isNative := false;
     method_body := Some messageNotUnderstoodBody |}.

(** [class Object { constructor()
                    method messageNotUnderstood(name, parameters) { return null } }] *)
Definition Object : ClassNode :=
  {| class_id := "wollok.lang.Object";
     members := [MConstructor defaultConstructor; MMethod messageNotUnderstoodMethod] |}.

Definition firstBody : Body := Body_ [Return (Some (localReference "a"))].

Definition firstMethod : Method :=
  {| method_id := "A.first"; method_name := "first";
     method_parameters := [parameter "a"; parameter "b"];
     isNative := false;
     method_body := Some firstBody |}.

Definition restBody : Body := Body_ [Return (Some (localReference "b"))].

Definition restMethod : Method :=
  {| method_id := "A.rest"; method_name := "rest";
     method_parameters := [parameter "a"; vararg "b"];
     isNative := false;
     method_body := Some restBody |}.

Definition sizeMethod : Method :=
  {| method_id := "A.size"; method_name := "size";
     method_parameters := [];
     isNative := true;
     method_body := None |}.

Definition xField : Field := {| field_name := "x"; field_value := Literal (LNumber 1%float) |}.
Definition yField : Field := {| field_name := "y"; field_value := Literal (LBoolean true) |}.
Definition zField : Field := {| field_name := "z"; field_value := Literal LNull |}.

(** [class A { var x = 1
               constructor()
               method first(a, b) { return a }
               method rest(a, b...) { return b }
               method size() native }] *)
Definition A : ClassNode :=
  {| class_id := "A";
     members := [MField xField; MConstructor defaultConstructor; MMethod firstMethod;
                 MMethod restMethod; MMethod sizeMethod] |}.

(** [class B inherits A { var y = true  constructor()  var z = null }] *)
Definition B : ClassNode :=
  {| class_id := "B";
     members := [MField yField; MConstructor defaultConstructor; MField zField] |}.

Definition table : list Entry :=
  [ {| name := "wollok.lang.Object"; parent := None; node := Object |};
    {| name := "A"; parent := Some "wollok.lang.Object"; node := A |};
    {| name := "B"; parent := Some "A"; node := B |} ].

Definition env : Environment := environmentOf table [].

(** [object pepita { }], a named global singleton, and the program that
    declares it. *)
Definition pepita : Singleton :=
  Singleton_ "pepita-id" (Some "pepita")
    {| reference_id := "pepita-super"; reference_name := "wollok.lang.Object" |} [].

Definition program : Environment := environmentOf table [NSingleton pepita].

(** A native that answers [void]: [() => evaluation => pushOperand(VOID_ID)]. *)
Definition natives : Natives :=
  fun _ => Some (fun _ _ => pushOperand VOID_ID).

(** [uuid()] answering [uuid-0], [uuid-1], ... *)
Definition uuid (n : nat) : Id := "uuid-" +:+ pretty n.

Definition object (i : Id) (module : Name) : RuntimeObject :=
  {| id := i; module := module; fields := ∅; innerValue := None |}.

(** An evaluation with the given frames over the given instances. *)
Definition world (frames : list Frame) (objects : list RuntimeObject) : World :=
  worldOf uuid
    {| environment := env;
       frameStack := frames;
       instances := list_to_map (map (fun o => (id o, o)) objects) |}.

Definition frame (code : list Instruction) (l : list (Name * Id)) (stack : list Id) : Frame :=
  {| instructions := code; nextInstruction := 0; locals := list_to_map l;
     operandStack := stack; resume := [] |}.

(** A native that adds an id to the list it is called on, in place:
    [self => evaluation => { self.innerValue.push('x'); pushOperand(VOID_ID) }]. *)
Definition pushing : Natives :=
  fun _ => Some (fun self _ =>
    match self with
    | AnInstance self =>
        _ ← perform (MutateList (id self) (fun ids => ids ++ ["x"]));
        pushOperand VOID_ID
    | Inherited _ => Raise TypeError
    end).

(** A store that holds one evaluation: a frame about to call the native
    [size] on [self], to store the answer in a local and to instantiate an
    [A], over one instance, of an empty list. *)
Definition storedFrame : Frame :=
  frame [LOAD "self"; CALL "size" 0 None; STORE "a" false; INSTANTIATE "A" None]
    [("self", "o")] [].

Definition storedObject : RuntimeObject :=
  {| id := "o"; module := "A"; fields := ∅; innerValue := Some (VList []) |}.

Definition storedEvaluation : Evaluation :=
  {| environment := env; frameStack := [storedFrame];
     instances := {[ "o" := storedObject ]} |}.

Definition store : Store :=
  {| frameStacks := [[0]];
     frameCells := [ {| cell_instructions := instructions storedFrame;
                        cell_nextInstruction := 0; cell_locals := 0;
                        cell_operandStack := 0; cell_resume := 0 |} ];
     dictionaries := [locals storedFrame; ∅];
     operandStacks := [[]];
     resumes := [[]];
     instanceTables := [ {[ "o" := 0 ]} ];
     objectCells := [ {| cell_id := "o"; cell_module := "A"; cell_fields := 1;
                         cell_innerValue := Some 0 |} ];
     payloads := [VList []] |}.

Definition stored : EvaluationRef :=
  {| ref_environment := env; ref_frameStack := 0; ref_instances := 0 |}.

Definition storedLayout : Layout :=
  {| layout_frames := [ {| at_frame := 0; at_locals := 0; at_operandStack := 0;
                           at_resume := 0 |} ];
     layout_objects :=
       {[ "o" := {| at_object := 0; at_fields := 1; at_payload := Some 0 |} ]} |}.

Definition host : Host := {| host_uuid := uuid; host_uuidCalls := 0; host_raised := [] |}.

(** A frame with a resume set. *)
Definition resuming (code : list Instruction) (stack : list Id) (r : list Interruption)
    : Frame :=
  {| instructions := code; nextInstruction := 0; locals := ∅; operandStack := stack;
     resume := r |}.

(** [catch err : A { }], and the frame of the [catch] clauses of a [Try] that
    has this one only, about to test the exception [e] that it has stored. *)
Definition catchA : Catch :=
  Catch_ (parameter "err") {| reference_id := "ref"; reference_name := "A" |} (Body_ []).

Definition catching : Frame :=
  {| instructions :=
       [STORE "<exception>" false] ++ flat_map (compileCatch env) ([] ++ catchA :: [])
       ++ [LOAD "<exception>"; INTERRUPT Exception];
     nextInstruction := 1;
     locals := {[ "<exception>" := "e" ]};
     operandStack := [];
     resume := [] |}.

(** The program of [pepita], with references to [pepita] resolved. *)
Definition linked : Environment :=
  {| environment_id := environment_id program;
     descendants := descendants program;
     resolve := resolve program;
     resolveUndefined := resolveUndefined program;
     resolveTarget := fun r =>
       if String.eqb (reference_name r) "pepita" then NSingleton pepita
       else resolveTarget program r;
     fullyQualifiedName := fullyQualifiedName program;
     firstAncestorOfKind_Method := firstAncestorOfKind_Method program;
     parentOf := parentOf program;
     hierarchy := hierarchy program;
     superclass := superclass program;
     inherits := inherits program;
     methodLookup := methodLookup program;
     constructorLookup := constructorLookup program |}.

Definition pepitaReference : ReferenceNode :=
  {| reference_id := "r"; reference_name := "pepita" |}.
End Example.

(** * Properties *)

(** ** Running programs *)

Lemma run_bind {A B : Type} (p : Prog A) (f : A -> Prog B) (w : World) :
  run (p ≫= f) w
  = match run p w with
    | Done a w' => run (f a) w'
    | Thrown e w' => Thrown e w'
    end.
Proof.
  unfold mbind, Prog_bind. revert w.
  induction p as [a | e | X op k IH]; intros w; simpl; try reflexivity.
  destruct (handle op w); [apply IH | reflexivity].
Qed.

Lemma step_fetch natives w cur below instruction :
  frameStack (evaluation w) = cur :: below ->
  instructions cur !! nextInstruction cur = Some instruction ->
  step natives w
  = run (execute natives (environment (evaluation w)) (cur :: below) cur
           (S (nextInstruction cur)) instruction)
        (withFrameStack (advance cur :: below) w).
Proof.
  intros Hfs Hi. unfold step, stepProgram. rewrite run_bind. simpl.
  rewrite Hfs, Hi. simpl. unfold onFrame. rewrite Hfs. reflexivity.
Qed.

Lemma run_popOperand w f below v rest :
  operandStack f = v :: rest ->
  truthy v = true ->
  run popOperand (withFrameStack (f :: below) w)
  = Done v (withFrameStack (setOperandStack rest f :: below) w).
Proof.
  intros Hst Hv. unfold popOperand. rewrite run_bind. simpl.
  rewrite Hst. simpl. rewrite Hv. reflexivity.
Qed.

Lemma run_pushOperand w f below v :
  run (pushOperand v) (withFrameStack (f :: below) w)
  = Done tt (withFrameStack (setOperandStack (v :: operandStack f) f :: below) w).
Proof. reflexivity. Qed.

Lemma run_getInstance w i o :
  instances (evaluation w) !! i = Some o ->
  run (getInstance i) w = Done (AnInstance o) w.
Proof. intros H. unfold getInstance. rewrite run_bind. simpl. rewrite H. reflexivity. Qed.

Lemma run_getInstance_inherited w i :
  instances (evaluation w) !! i = None ->
  onPrototype i = true ->
  run (getInstance i) w = Done (Inherited i) w.
Proof.
  intros H Hp. unfold getInstance. rewrite run_bind. simpl. rewrite H. simpl.
  rewrite Hp. reflexivity.
Qed.

Lemma run_getInstance_undefined w i :
  instances (evaluation w) !! i = None ->
  onPrototype i = false ->
  run (getInstance i) w = Thrown (UndefinedInstance i) w.
Proof.
  intros H Hp. unfold getInstance. rewrite run_bind. simpl. rewrite H. simpl.
  rewrite Hp. reflexivity.
Qed.

(** Programs made of accesses of one kind. *)
Lemma within_run {A T : Type} (P : forall X, Op X -> bool) (I : World -> T) (p : Prog A) :
  (forall X (op : Op X) w, P X op = true -> I (outcomeWorld (handle op w)) = I w) ->
  forall w, within P p -> I (outcomeWorld (run p w)) = I w.
Proof.
  intros HP. induction p as [a | e | X op k IH]; intros w Hp; simpl; try reflexivity.
  destruct Hp as [Hop Hk]. pose proof (HP X op w Hop) as Hh.
  destruct (handle op w) as [x w1|e w1]; simpl in *; [|exact Hh].
  rewrite IH by apply Hk. exact Hh.
Qed.

Lemma within_bind {A B : Type} P (p : Prog A) (f : A -> Prog B) :
  within P p -> (forall a, within P (f a)) -> within P (p ≫= f).
Proof.
  unfold mbind, Prog_bind. intros Hp Hf.
  induction p as [a | e | X op k IH]; simpl; [apply Hf | exact I |].
  destruct Hp as [Hop Hk]. split; [exact Hop|]. intros x. apply IH, Hk.
Qed.

Lemma within_perform {X : Type} (P : forall X, Op X -> bool) (op : Op X) :
  P X op = true -> within P (perform op).
Proof. intros H. split; [exact H | intros x; exact I]. Qed.

Ltac within_cases :=
  repeat first
    [ exact I
    | apply within_perform; reflexivity
    | apply within_bind; [|intros ?]
    | match goal with
      | |- within _ (match ?x with _ => _ end) => destruct x
      | |- within _ (if ?x then _ else _) => destruct x
      | |- within _ (let _ := _ in _) => cbv zeta
      end ].

(** ** [STORE] *)

Lemma onPrototype_false key : key ∉ objectPrototype -> onPrototype key = false.
Proof. intros H. unfold onPrototype. by apply bool_decide_eq_false. Qed.

Lemma onPrototype_true key : key ∈ objectPrototype -> onPrototype key = true.
Proof. intros H. unfold onPrototype. by apply bool_decide_eq_true. Qed.

Lemma hasProperty_own {A : Type} (object : gmap string A) key :
  onPrototype key = false ->
  hasProperty object key = true <-> is_Some (object !! key).
Proof.
  intros Hp. unfold hasProperty. rewrite Hp, orb_false_r. apply bool_decide_eq_true.
Qed.

Lemma hasProperty_inherited {A : Type} (object : gmap string A) key :
  onPrototype key = true -> hasProperty object key = true.
Proof. intros Hp. unfold hasProperty. rewrite Hp. apply orb_true_r. Qed.

Lemma getProperty_own object key :
  onPrototype key = false -> getProperty object key = object !! key.
Proof. intros Hp. unfold getProperty. rewrite Hp. by destruct (object !! key). Qed.

Lemma getProperty_Some object key value :
  object !! key = Some value -> getProperty object key = Some value.
Proof. intros H. unfold getProperty. by rewrite H. Qed.

Lemma setProperty_insert key value object :
  key <> "__proto__" -> setProperty key value object = <[key := value]> object.
Proof. intros H. unfold setProperty. by destruct (decide _). Qed.

Lemma setProperty_proto value object :
  object !! "__proto__" = None -> setProperty "__proto__" value object = object.
Proof. intros H. unfold setProperty. simpl. by rewrite H. Qed.

Lemma objectPrototype_proto key : key ∉ objectPrototype -> key <> "__proto__".
Proof. intros H ->. apply H. apply (bool_decide_unpack _). reflexivity. Qed.

Lemma findBinding_Some name frames d :
  findBinding name frames = Some d ->
  (exists f, frames !! d = Some f /\ hasProperty (locals f) name = true)
  /\ (forall d' f', d' < d -> frames !! d' = Some f' -> hasProperty (locals f') name = false).
Proof.
  unfold findBinding. intros H.
  destruct (list_find _ frames) as [[i f]|] eqn:E; simpl in H; [|discriminate].
  injection H as <-. apply list_find_Some in E as (Hi & Hf & Hlt).
  split; [eauto|]. intros d' f' Hd Hf'.
  specialize (Hlt d' f' Hf' Hd). by apply not_true_is_false.
Qed.

Lemma findBinding_None name frames :
  findBinding name frames = None ->
  forall f, f ∈ frames -> hasProperty (locals f) name = false.
Proof.
  unfold findBinding. intros H f Hf.
  destruct (list_find _ frames) as [[i g]|] eqn:E; simpl in H; [discriminate|].
  rewrite list_find_None in E. rewrite Forall_forall in E.
  apply not_true_is_false. by apply E.
Qed.

Lemma findBinding_inherited name cur below :
  onPrototype name = true -> findBinding name (cur :: below) = Some 0.
Proof.
  intros Hp. unfold findBinding. simpl.
  rewrite decide_True by (by apply hasProperty_inherited). reflexivity.
Qed.

Lemma hasProperty_false_own {A : Type} (object : gmap string A) key :
  hasProperty object key = false -> object !! key = None.
Proof.
  unfold hasProperty. intros [H _]%orb_false_elim.
  apply bool_decide_eq_false in H. by apply eq_None_not_Some.
Qed.

(** What a [STORE] does, for the depth that it finds. *)
Lemma step_STORE_at natives w cur below name lookup v rest :
  frameStack (evaluation w) = cur :: below ->
  instructions cur !! nextInstruction cur = Some (STORE name lookup) ->
  operandStack cur = v :: rest ->
  truthy v = true ->
  let d := default 0 (if lookup then findBinding name (cur :: below) else None) in
  step natives w
  = Done tt
      (withFrameStack
         (alter (fun f => setLocals (setProperty name v (locals f)) f) d
            (setOperandStack rest (advance cur) :: below)) w).
Proof.
  intros Hfs Hi Hst Hv d.
  rewrite (step_fetch _ _ _ _ _ Hfs Hi). cbn [execute].
  rewrite run_bind, (run_popOperand _ _ _ v rest) by (simpl; auto).
  simpl. unfold onFrame. simpl. fold d.
  destruct ((setOperandStack rest (advance cur) :: below) !! d) eqn:E; [reflexivity|].
  exfalso. subst d. destruct lookup; simpl in E; [|discriminate].
  destruct (findBinding name (cur :: below)) as [d|] eqn:F; simpl in E; [|discriminate].
  apply findBinding_Some in F as [(f & Hf & _) _].
  destruct d; simpl in *; [discriminate | congruence].
Qed.




(** ** [GET] and [SET] *)

Lemma truthy_inheritedId key : truthy (inheritedId key) = true.
Proof. unfold inheritedId. by repeat destruct (decide _). Qed.



(** C10, the claim as stated fails on a name that [Object.prototype] has: an
    instance without fields has no field [toString], and [GET("toString")]
    does not fail on it: it pushes the function that the fields inherit.
    [SET("__proto__")] creates no field either. *)
Lemma get_inherited_field_counterexample :
  let o := Example.object "o" "A" in
  let w := Example.world [Example.frame [GET "toString"] [] ["o"]] [o] in
  let w2 := Example.world [Example.frame [SET "__proto__"] [] ["v"; "o"]] [o] in
  fields o !! "toString" = None
  /\ step Example.natives w
     = Done tt
         (Example.world
            [setOperandStack ["function toString() { [native code] }"]
               (advance (Example.frame [GET "toString"] [] ["o"]))] [o])
  /\ (forall w', step Example.natives w <> Thrown (UndefinedField "A" "toString") w')
  /\ exists w', step Example.natives w2 = Done tt w'
                /\ instances (evaluation w') !! "o" = Some o.
Proof.
  simpl. split; [reflexivity|]. split; [reflexivity|]. split; [discriminate|].
  eexists. split; [reflexivity|]. reflexivity.
Qed.

(** ** Popping arguments and binding parameters *)

Lemma run_popOperands n : forall w f below vs rest,
  operandStack f = vs ++ rest ->
  length vs = n ->
  Forall (fun v => truthy v = true) vs ->
  run (popOperands n) (withFrameStack (f :: below) w)
  = Done vs (withFrameStack (setOperandStack rest f :: below) w).
Proof.
  induction n as [|n IH]; intros w f below vs rest Hst Hlen Hall.
  - destruct vs; [|discriminate]. simpl in *. destruct f; simpl in *; subst. reflexivity.
  - destruct vs as [|v vs]; [discriminate|]. simpl in Hst, Hlen.
    apply Forall_cons in Hall as [Hv Hall]. cbn [popOperands].
    rewrite run_bind, (run_popOperand _ _ _ v (vs ++ rest)) by auto.
    rewrite run_bind, (IH _ _ _ vs rest) by (simpl; auto; lia).
    reflexivity.
Qed.

Lemma zipObj_acc_notin (keys : list Name) : forall (values : list Id) (acc : Locals) k,
  k ∉ keys ->
  fold_left (fun m kv => <[kv.1 := kv.2]> m) (zip keys values) acc !! k = acc !! k.
Proof.
  induction keys as [|k' keys IH]; intros values acc k Hk; [reflexivity|].
  destruct values as [|v values]; [reflexivity|]. simpl.
  apply not_elem_of_cons in Hk as [Hne Hk].
  rewrite IH by exact Hk. by rewrite lookup_insert_ne.
Qed.

Lemma zipObj_acc_lookup (keys : list Name) : forall (values : list Id) (acc : Locals) i k v,
  NoDup keys ->
  keys !! i = Some k ->
  values !! i = Some v ->
  fold_left (fun m kv => <[kv.1 := kv.2]> m) (zip keys values) acc !! k = Some v.
Proof.
  induction keys as [|k' keys IH]; intros values acc i k v Hnd Hk Hv; [discriminate|].
  destruct values as [|v' values]; [discriminate|].
  apply NoDup_cons in Hnd as [Hnotin Hnd]. simpl.
  destruct i as [|i]; simpl in Hk, Hv.
  - injection Hk as ->. injection Hv as ->.
    rewrite zipObj_acc_notin by exact Hnotin. apply lookup_insert_eq.
  - by apply (IH values _ i).
Qed.

Lemma zipObj_lookup keys values i k v :
  NoDup keys -> keys !! i = Some k -> values !! i = Some v ->
  zipObj keys values !! k = Some v.
Proof. apply zipObj_acc_lookup. Qed.

Lemma zipObj_notin keys values k : k ∉ keys -> zipObj keys values !! k = None.
Proof. intros H. unfold zipObj. by rewrite zipObj_acc_notin. Qed.

(** A key without a value is not bound. *)
Lemma zipObj_acc_short (keys : list Name) : forall (values : list Id) (acc : Locals) i k,
  NoDup keys ->
  keys !! i = Some k ->
  values !! i = None ->
  fold_left (fun m kv => <[kv.1 := kv.2]> m) (zip keys values) acc !! k = acc !! k.
Proof.
  induction keys as [|k' keys IH]; intros values acc i k Hnd Hk Hv; [discriminate|].
  destruct values as [|v values]; [reflexivity|].
  destruct i as [|i]; [discriminate|]. simpl in *.
  apply NoDup_cons in Hnd as [Hk' Hnd].
  rewrite (IH values _ i k Hnd Hk Hv). simpl. apply lookup_insert_ne.
  intros ->. apply Hk'. by eapply list_elem_of_lookup_2.
Qed.

Lemma zipObj_lookup_at keys values i k :
  NoDup keys -> keys !! i = Some k -> zipObj keys values !! k = values !! i.
Proof.
  intros Hnd Hk. destruct (values !! i) as [v|] eqn:Hv.
  - by apply (zipObj_lookup keys values i).
  - unfold zipObj. by rewrite (zipObj_acc_short keys values ∅ i k).
Qed.

Lemma run_addInstance w module value :
  module <> "wollok.lang.Number" ->
  run (addInstance module value) w
  = Done (uuid w (uuidCalls w))
      (withInstances
         (<[uuid w (uuidCalls w) :=
              {| id := uuid w (uuidCalls w); module := module; fields := ∅;
                 innerValue := value |}]> (instances (evaluation w)))
         (drawUuid w)).
Proof. intros H. unfold addInstance. destruct (decide _); [done | reflexivity]. Qed.

Lemma existsb_isVarArg_last ps :
  existsb isVarArg ps = true -> is_Some (last ps).
Proof.
  destruct ps as [|p ps]; [discriminate|]. intros _.
  rewrite last_cons. destruct (last ps); by eexists.
Qed.

Lemma run_bindParameters_fixed w ps argIds selfId :
  existsb isVarArg ps = false ->
  run (bindParameters ps argIds selfId) w
  = Done (<["self" := selfId]> (zipObj (parameterNames ps) argIds)) w.
Proof. intros H. unfold bindParameters. rewrite H. reflexivity. Qed.

Lemma run_bindParameters_vararg w ps argIds selfId lastParameter :
  existsb isVarArg ps = true ->
  last ps = Some lastParameter ->
  run (bindParameters ps argIds selfId) w
  = Done (<["self" := selfId]>
            (<[parameter_name lastParameter := uuid w (uuidCalls w)]>
               (zipObj (removelast (parameterNames ps)) argIds)))
      (withInstances
         (<[uuid w (uuidCalls w) :=
              {| id := uuid w (uuidCalls w); module := "wollok.lang.List"; fields := ∅;
                 innerValue := Some (VList (drop (length ps - 1) argIds)) |}]>
            (instances (evaluation w)))
         (drawUuid w)).
Proof.
  intros H Hlast. unfold bindParameters. rewrite H.
  rewrite run_bind, run_addInstance by done. rewrite Hlast. reflexivity.
Qed.

Lemma removelast_lookup {A : Type} (l : list A) i :
  i < length l - 1 -> removelast l !! i = l !! i.
Proof.
  revert i. induction l as [|x l IH]; intros i Hi; [reflexivity|].
  destruct l as [|y l]; [simpl in Hi; lia|].
  change (removelast (x :: y :: l)) with (x :: removelast (y :: l)).
  destruct i as [|i]; [reflexivity|]. simpl. apply IH. simpl in *. lia.
Qed.

Lemma removelast_last_notin (l : list Name) x :
  NoDup l -> last l = Some x -> x ∉ removelast l.
Proof.
  induction l as [|y l IH]; intros Hnd Hlast; [discriminate|].
  destruct l as [|z l].
  - simpl. apply not_elem_of_nil.
  - change (removelast (y :: z :: l)) with (y :: removelast (z :: l)).
    rewrite last_cons_cons in Hlast. apply NoDup_cons in Hnd as [Hy Hnd].
    apply not_elem_of_cons. split.
    + intros ->. apply Hy. by apply last_Some_elem_of.
    + by apply IH.
Qed.

Lemma removelast_NoDup (l : list Name) : NoDup l -> NoDup (removelast l).
Proof.
  induction l as [|y l IH]; intros Hnd; [constructor|].
  destruct l as [|z l]; [constructor|].
  change (removelast (y :: z :: l)) with (y :: removelast (z :: l)).
  apply NoDup_cons in Hnd as [Hy Hnd]. apply NoDup_cons. split; [|by apply IH].
  intros Hin. apply Hy. clear -Hin. revert Hin. generalize (z :: l). intros l'.
  induction l' as [|a l' IH]; simpl; [by intros ?%elem_of_nil|].
  destruct l' as [|b l']; [by intros ?%elem_of_nil|].
  intros [->|Hin]%elem_of_cons; [left | right; by apply IH].
Qed.

(** ** [CALL] *)

(** The operands of a [CALL]: the arguments, then the receiver and its instance. *)
Ltac call_prelude args selfId rest self Hst :=
  rewrite run_bind, (run_popOperands _ _ _ _ (reverse args) (selfId :: rest));
    [| exact Hst | by rewrite length_reverse | by apply Forall_reverse];
  cbv zeta; rewrite reverse_involutive;
  rewrite run_bind, (run_popOperand _ _ _ selfId rest) by (simpl; auto);
  rewrite run_bind, (run_getInstance _ selfId self) by (simpl; auto);
  change (lookupStartClass ?e (moduleOf (AnInstance ?s)) ?l) with (lookupClass e (module s) l);
  cbn [resolveMaybe moduleOf].

(** C1 (amended). A [CALL] that resolves to a non-native method with a body
    pops [arity] argument ids, kept in the order they were pushed, and then
    the receiver id; it adds [return] to the current frame's resume set and
    pushes a frame that runs the compiled body followed by [PUSH(void)] and
    [INTERRUPT(return)], with [nextInstruction] 0, an empty operand stack and
    an empty resume set. Its locals bind [self] to the receiver id and nothing
    but [self] and the parameters; when no parameter is a vararg, each
    parameter is bound to the argument id at its position (a parameter
    without an argument is not bound); when a parameter is a vararg, the
    parameters before the last one are bound to the argument ids at their
    positions and the last one to a freshly allocated wollok.lang.List that
    holds the remaining argument ids. The bindings of the parameters are
    stated for parameters of distinct names, none of them [self] or
    [__proto__]. *)
Theorem call_pushes_method_frame natives w cur below message arity lookupStart
    args selfId rest self startClass method body :
  frameStack (evaluation w) = cur :: below ->
  instructions cur !! nextInstruction cur = Some (CALL message arity lookupStart) ->
  operandStack cur = reverse args ++ selfId :: rest ->
  length args = arity ->
  Forall (fun v => truthy v = true) args ->
  truthy selfId = true ->
  instances (evaluation w) !! selfId = Some self ->
  lookupClass (environment (evaluation w)) (module self) lookupStart = Some startClass ->
  methodLookup (environment (evaluation w)) message arity startClass = Some method ->
  isNative method = false ->
  method_body method = Some body ->
  let ps := method_parameters method in
  exists w' locals',
    step natives w = Done tt w'
    /\ frameStack (evaluation w')
       = {| instructions :=
              compileBody (environment (evaluation w)) body
              ++ [PUSH VOID_ID; INTERRUPT Return_];
            nextInstruction := 0;
            locals := locals';
            operandStack := [];
            resume := [] |}
         :: {| instructions := instructions cur;
               nextInstruction := S (nextInstruction cur);
               locals := locals cur;
               operandStack := rest;
               resume := resume cur ++ [Return_] |}
         :: below
    /\ locals' !! "self" = Some selfId
    /\ (forall name, name <> "self" -> name ∉ parameterNames ps -> locals' !! name = None)
    /\ (existsb isVarArg ps = false ->
        instances (evaluation w') = instances (evaluation w)
        /\ (NoDup (parameterNames ps) -> "self" ∉ parameterNames ps ->
            "__proto__" ∉ parameterNames ps ->
            forall i p, ps !! i = Some p -> locals' !! parameter_name p = args !! i))
    /\ (existsb isVarArg ps = true ->
        let restId := uuid w (uuidCalls w) in
        instances (evaluation w')
        = <[restId := {| id := restId; module := "wollok.lang.List"; fields := ∅;
                         innerValue := Some (VList (drop (length ps - 1) args)) |}]>
            (instances (evaluation w))
        /\ (NoDup (parameterNames ps) -> "self" ∉ parameterNames ps ->
            "__proto__" ∉ parameterNames ps ->
            (forall i p, i < length ps - 1 -> ps !! i = Some p ->
                         locals' !! parameter_name p = args !! i)
            /\ (forall p, last ps = Some p -> locals' !! parameter_name p = Some restId))).
Proof.
  intros Hfs Hi Hst Hlen Hall Hs Hself Hstart Hmethod Hnative Hbody ps.
  rewrite (step_fetch _ _ _ _ _ Hfs Hi). cbn [execute]. unfold stepCALL.
  call_prelude args selfId rest self Hst.
  rewrite Hstart. rewrite run_bind. cbn [run]. rewrite Hmethod, Hnative.
  destruct (existsb isVarArg ps) eqn:Hvar.
  - destruct (existsb_isVarArg_last ps Hvar) as [lastParameter Hlast].
    assert (last (parameterNames ps) = Some (parameter_name lastParameter)) as Hlastname
      by (unfold parameterNames; change (map parameter_name ps) with (parameter_name <$> ps);
          by rewrite fmap_last, Hlast).
    fold ps. rewrite run_bind, (run_bindParameters_vararg _ _ _ _ lastParameter) by assumption.
    rewrite Hbody. eexists _, _. split; [reflexivity|].
    split; [reflexivity|]. split; [apply lookup_insert_eq|]. split.
    { intros name Hname Hnotin. rewrite lookup_insert_ne by done.
      rewrite lookup_insert_ne.
      - apply zipObj_notin. intros Hin. apply Hnotin. clear -Hin.
        induction (parameterNames ps) as [|a l IH]; [by apply elem_of_nil in Hin|].
        destruct l as [|b l]; [by apply elem_of_nil in Hin|].
        change (removelast (a :: b :: l)) with (a :: removelast (b :: l)) in Hin.
        apply elem_of_cons in Hin as [->|Hin]; [left | right; by apply IH].
      - intros <-. apply Hnotin. by apply last_Some_elem_of. }
    split; [discriminate|]. intros _. split; [reflexivity|].
    intros Hnd Hself' _. split.
    + intros i p Hi' Hp.
      assert (parameterNames ps !! i = Some (parameter_name p)) as Hname
        by (unfold parameterNames; by rewrite list_lookup_fmap, Hp).
      assert (parameter_name p ∈ parameterNames ps) as Hin
        by (eapply list_elem_of_lookup_2; exact Hname).
      assert (removelast (parameterNames ps) !! i = Some (parameter_name p)) as Hname'.
      { rewrite removelast_lookup; [exact Hname|].
        unfold parameterNames. rewrite length_map. exact Hi'. }
      rewrite lookup_insert_ne by (intros Heq; rewrite <- Heq in Hin; contradiction).
      rewrite lookup_insert_ne.
      * by apply zipObj_lookup_at; [apply removelast_NoDup|].
      * intros Heq. apply (removelast_last_notin _ _ Hnd Hlastname).
        rewrite Heq. eapply list_elem_of_lookup_2. exact Hname'.
    + intros p Hp. rewrite Hlast in Hp. injection Hp as <-.
      rewrite lookup_insert_ne; [apply lookup_insert_eq|].
      intros Heq. apply Hself'. rewrite Heq. unfold parameterNames.
      apply list_elem_of_fmap. exists lastParameter. split; [reflexivity|].
      by apply last_Some_elem_of.
  - fold ps. rewrite run_bind, run_bindParameters_fixed by assumption.
    rewrite Hbody. eexists _, _. split; [reflexivity|].
    split; [reflexivity|]. split; [apply lookup_insert_eq|]. split.
    { intros name Hname Hnotin. rewrite lookup_insert_ne by done.
      by apply zipObj_notin. }
    split; [|discriminate]. intros _. split; [reflexivity|].
    intros Hnd Hself' _ i p Hp.
    assert (parameterNames ps !! i = Some (parameter_name p)) as Hname
      by (unfold parameterNames; by rewrite list_lookup_fmap, Hp).
    rewrite lookup_insert_ne.
    + by apply zipObj_lookup_at.
    + intros Heq. apply Hself'. rewrite Heq. eapply list_elem_of_lookup_2. exact Hname.
Qed.

(** The theorem on [o.first(a1, a2)], [o] an instance of [B]: the frame of
    [A.first(a, b)] binds [a], [b] and [self]. *)
Lemma call_pushes_method_frame_witness :
  exists w' locals',
    step Example.natives
      (Example.world [Example.frame [CALL "first" 2 None] [] ["a2"; "a1"; "o"]]
         [Example.object "o" "B"])
    = Done tt w'
    /\ frameStack (evaluation w')
       = [ {| instructions := [LOAD "a"; INTERRUPT Return_; PUSH VOID_ID; INTERRUPT Return_];
              nextInstruction := 0; locals := locals'; operandStack := []; resume := [] |};
           {| instructions := [CALL "first" 2 None]; nextInstruction := 1; locals := ∅;
              operandStack := []; resume := [Return_] |} ]
    /\ locals' !! "self" = Some "o"
    /\ locals' !! "a" = Some "a1"
    /\ locals' !! "b" = Some "a2"
    /\ locals' !! "c" = None.
Proof.
  destruct (call_pushes_method_frame Example.natives
              (Example.world [Example.frame [CALL "first" 2 None] [] ["a2"; "a1"; "o"]]
                 [Example.object "o" "B"])
              (Example.frame [CALL "first" 2 None] [] ["a2"; "a1"; "o"]) []
              "first" 2 None ["a1"; "a2"] "o" [] (Example.object "o" "B")
              Example.B Example.firstMethod Example.firstBody
              eq_refl eq_refl eq_refl eq_refl
              ltac:(repeat constructor)
              eq_refl eq_refl eq_refl eq_refl eq_refl eq_refl)
    as (w' & locals' & Hstep & Hframes & Hself & Hnone & Hfixed & _).
  destruct (Hfixed eq_refl) as (_ & Hbound).
  assert (NoDup (parameterNames (method_parameters Example.firstMethod))) as Hnd
    by (apply (bool_decide_unpack _); vm_compute; exact I).
  assert ("self" ∉ parameterNames (method_parameters Example.firstMethod)) as Hnotself
    by (apply (bool_decide_unpack _); vm_compute; exact I).
  assert ("__proto__" ∉ parameterNames (method_parameters Example.firstMethod)) as Hnotproto
    by (apply (bool_decide_unpack _); vm_compute; exact I).
  exists w', locals'. split; [exact Hstep|]. split; [exact Hframes|]. split; [exact Hself|].
  split; [|split].
  - exact (Hbound Hnd Hnotself Hnotproto 0 (Example.parameter "a") eq_refl).
  - exact (Hbound Hnd Hnotself Hnotproto 1 (Example.parameter "b") eq_refl).
  - apply Hnone; [discriminate|]. apply (bool_decide_unpack _). vm_compute. exact I.
Defined.

(** C1, the claim as stated fails on a method with a vararg parameter:
    [o.rest(a1, a2, a3)] resolves to the non-native [A.rest(a, b...)], and the
    pushed frame binds [b] to a freshly allocated list, not to [a2]. *)
Lemma call_vararg_counterexample :
  let w := Example.world [Example.frame [CALL "rest" 3 None] [] ["a3"; "a2"; "a1"; "o"]]
             [Example.object "o" "B"] in
  methodLookup Example.env "rest" 3 (resolve Example.env "B") = Some Example.restMethod
  /\ isNative Example.restMethod = false
  /\ Example.restMethod.(method_parameters) !! 1 = Some (Example.vararg "b")
  /\ exists w' top,
       step Example.natives w = Done tt w'
       /\ frameStack (evaluation w') !! 0 = Some top
       /\ locals top !! "a" = Some "a1"
       /\ locals top !! "b" = Some "uuid-0"
       /\ locals top !! "b" <> Some "a2"
       /\ instances (evaluation w') !! "uuid-0"
          = Some {| id := "uuid-0"; module := "wollok.lang.List"; fields := ∅;
                    innerValue := Some (VList ["a2"; "a3"]) |}.
Proof.
  simpl. split; [reflexivity|]. split; [reflexivity|]. split; [reflexivity|].
  eexists _, _. split; [vm_compute; reflexivity|].
  split; [reflexivity|]. split; [reflexivity|]. split; [reflexivity|].
  split; [discriminate | reflexivity].
Qed.

(** C6. When the method lookup of a [CALL] finds no method and
    [messageNotUnderstood/2], looked up from the receiver's own module, has a
    body, the step allocates a wollok.lang.String holding the message name and
    then a wollok.lang.List holding the popped argument ids, adds [return] to
    the current frame's resume set and pushes a frame that runs the compiled
    body of [messageNotUnderstood], with [nextInstruction] 0, an empty operand
    stack and an empty resume set, and with locals that bind its two
    parameters to the String id and to the List id, [self] to the receiver id,
    and nothing else. The bindings of the parameters are stated for two
    distinct names, none of them [self] or [__proto__]. *)
Theorem call_message_not_understood natives w cur below message arity lookupStart
    args selfId rest self startClass mnu body :
  frameStack (evaluation w) = cur :: below ->
  instructions cur !! nextInstruction cur = Some (CALL message arity lookupStart) ->
  operandStack cur = reverse args ++ selfId :: rest ->
  length args = arity ->
  Forall (fun v => truthy v = true) args ->
  truthy selfId = true ->
  instances (evaluation w) !! selfId = Some self ->
  lookupClass (environment (evaluation w)) (module self) lookupStart = Some startClass ->
  methodLookup (environment (evaluation w)) message arity startClass = None ->
  methodLookup (environment (evaluation w)) "messageNotUnderstood" 2
    (resolve (environment (evaluation w)) (module self)) = Some mnu ->
  method_body mnu = Some body ->
  let nameId := uuid w (uuidCalls w) in
  let argsId := uuid w (S (uuidCalls w)) in
  exists w' locals',
    step natives w = Done tt w'
    /\ frameStack (evaluation w')
       = {| instructions := compileBody (environment (evaluation w)) body;
            nextInstruction := 0;
            locals := locals';
            operandStack := [];
            resume := [] |}
         :: {| instructions := instructions cur;
               nextInstruction := S (nextInstruction cur);
               locals := locals cur;
               operandStack := rest;
               resume := resume cur ++ [Return_] |}
         :: below
    /\ instances (evaluation w')
       = <[argsId := {| id := argsId; module := "wollok.lang.List"; fields := ∅;
                        innerValue := Some (VList args) |}]>
           (<[nameId := {| id := nameId; module := "wollok.lang.String"; fields := ∅;
                           innerValue := Some (VString message) |}]>
              (instances (evaluation w)))
    /\ locals' !! "self" = Some selfId
    /\ (forall name, name <> "self" ->
                     name ∉ parameterNames (method_parameters mnu) ->
                     locals' !! name = None)
    /\ (forall p1 p2,
           method_parameters mnu = [p1; p2] ->
           parameter_name p1 <> parameter_name p2 ->
           parameter_name p1 <> "self" -> parameter_name p2 <> "self" ->
           parameter_name p1 <> "__proto__" -> parameter_name p2 <> "__proto__" ->
           locals' !! parameter_name p1 = Some nameId
           /\ locals' !! parameter_name p2 = Some argsId).
Proof.
  intros Hfs Hi Hst Hlen Hall Hs Hself Hstart Hmethod Hmnu Hbody nameId argsId.
  rewrite (step_fetch _ _ _ _ _ Hfs Hi). cbn [execute]. unfold stepCALL.
  call_prelude args selfId rest self Hst.
  rewrite Hstart. rewrite run_bind. cbn [run]. rewrite Hmethod.
  rewrite run_bind, run_addInstance by done.
  rewrite run_bind, run_addInstance by done.
  rewrite Hmnu, Hbody.
  eexists _, _. split; [reflexivity|]. split; [reflexivity|]. split; [reflexivity|].
  split; [apply lookup_insert_eq|]. split.
  { intros name Hname Hnotin. rewrite lookup_insert_ne by done. by apply zipObj_notin. }
  intros p1 p2 Hps Hne H1 H2 _ _. rewrite Hps. unfold zipObj. simpl. split.
  - rewrite lookup_insert_ne by congruence. rewrite lookup_insert_ne by congruence.
    apply lookup_insert_eq.
  - rewrite lookup_insert_ne by congruence. apply lookup_insert_eq.
Qed.

(** The theorem on [o.foo(a1)], which no class of [o] understands. *)
Lemma call_message_not_understood_witness :
  exists w' locals',
    step Example.natives
      (Example.world [Example.frame [CALL "foo" 1 None] [] ["a1"; "o"]]
         [Example.object "o" "B"])
    = Done tt w'
    /\ frameStack (evaluation w')
       = [ {| instructions := [PUSH NULL_ID; INTERRUPT Return_]; nextInstruction := 0;
              locals := locals'; operandStack := []; resume := [] |};
           {| instructions := [CALL "foo" 1 None]; nextInstruction := 1; locals := ∅;
              operandStack := []; resume := [Return_] |} ]
    /\ instances (evaluation w') !! "uuid-0"
       = Some {| id := "uuid-0"; module := "wollok.lang.String"; fields := ∅;
                 innerValue := Some (VString "foo") |}
    /\ instances (evaluation w') !! "uuid-1"
       = Some {| id := "uuid-1"; module := "wollok.lang.List"; fields := ∅;
                 innerValue := Some (VList ["a1"]) |}
    /\ locals' !! "self" = Some "o"
    /\ locals' !! "name" = Some "uuid-0"
    /\ locals' !! "parameters" = Some "uuid-1"
    /\ locals' !! "a1" = None.
Proof.
  destruct (call_message_not_understood Example.natives
              (Example.world [Example.frame [CALL "foo" 1 None] [] ["a1"; "o"]]
                 [Example.object "o" "B"])
              (Example.frame [CALL "foo" 1 None] [] ["a1"; "o"]) []
              "foo" 1 None ["a1"] "o" [] (Example.object "o" "B")
              Example.B Example.messageNotUnderstoodMethod Example.messageNotUnderstoodBody
              eq_refl eq_refl eq_refl eq_refl ltac:(repeat constructor)
              eq_refl eq_refl eq_refl eq_refl eq_refl eq_refl)
    as (w' & locals' & Hstep & Hframes & Hinstances & Hself & Hnone & Hbound).
  destruct (Hbound (Example.parameter "name") (Example.parameter "parameters") eq_refl
              ltac:(discriminate) ltac:(discriminate) ltac:(discriminate)
              ltac:(discriminate) ltac:(discriminate))
    as [Hname Hparameters].
  exists w', locals'. split; [exact Hstep|]. split; [exact Hframes|].
  split; [rewrite Hinstances; reflexivity|]. split; [rewrite Hinstances; reflexivity|].
  split; [exact Hself|]. split; [exact Hname|]. split; [exact Hparameters|].
  apply Hnone; [discriminate|]. apply (bool_decide_unpack _). vm_compute. exact I.
Defined.

(** ** The receiver of [CALL] and [INIT] *)

Lemma run_bind_Done {A B : Type} (p : Prog A) (f : A -> Prog B) w b w' :
  run (p ≫= f) w = Done b w' ->
  exists a w1, run p w = Done a w1 /\ run (f a) w1 = Done b w'.
Proof.
  rewrite run_bind. destruct (run p w) as [a w1|e w1]; [|discriminate]. eauto.
Qed.

Lemma popOperand_Done w f below v w1 :
  run popOperand (withFrameStack (f :: below) w) = Done v w1 ->
  exists rest,
    operandStack f = v :: rest /\ truthy v = true
    /\ w1 = withFrameStack (setOperandStack rest f :: below) w.
Proof.
  unfold popOperand. rewrite run_bind. simpl.
  destruct (operandStack f) as [|v' rest] eqn:E; simpl; [discriminate|].
  destruct (truthy v') eqn:Hv; simpl; [|discriminate].
  intros [= <- <-]. eauto.
Qed.

Lemma popOperands_Done n : forall w f below vs w1,
  run (popOperands n) (withFrameStack (f :: below) w) = Done vs w1 ->
  exists rest,
    operandStack f = vs ++ rest /\ length vs = n
    /\ Forall (fun v => truthy v = true) vs
    /\ w1 = withFrameStack (setOperandStack rest f :: below) w.
Proof.
  induction n as [|n IH]; intros w f below vs w1 H.
  - simpl in H. injection H as <- <-. exists (operandStack f).
    repeat split; [constructor|]. by destruct f.
  - cbn [popOperands] in H.
    apply run_bind_Done in H as (v & w2 & Hpop & H).
    apply popOperand_Done in Hpop as (rest & Hst & Hv & ->).
    apply run_bind_Done in H as (vs' & w3 & Hpops & H).
    apply IH in Hpops as (rest' & Hst' & Hlen & Hall & ->).
    simpl in H. injection H as <- <-. simpl in Hst'. exists rest'.
    split; [by rewrite Hst, Hst'|]. split; [simpl; by rewrite Hlen|].
    split; [by constructor | reflexivity].
Qed.

Lemma getInstance_Done w i self w1 :
  run (getInstance i) w = Done self w1 ->
  w1 = w
  /\ ((exists o, self = AnInstance o /\ instances (evaluation w) !! i = Some o)
      \/ (self = Inherited i /\ instances (evaluation w) !! i = None
          /\ onPrototype i = true)).
Proof.
  unfold getInstance. rewrite run_bind. simpl.
  destruct (instances (evaluation w) !! i) as [o|]; simpl.
  - intros [= <- <-]. split; [reflexivity|]. left. by exists o.
  - destruct (onPrototype i); simpl; [|discriminate].
    intros [= <- <-]. split; [reflexivity|]. by right.
Qed.

Lemma bindParameters_self ps argIds selfId w l w1 :
  run (bindParameters ps argIds selfId) w = Done l w1 ->
  l !! "self" = Some selfId.
Proof.
  unfold bindParameters. destruct (existsb isVarArg ps).
  - intros (restId & w2 & _ & H)%run_bind_Done.
    destruct (last ps); simpl in H; [|discriminate].
    injection H as <- _. apply lookup_insert_eq.
  - simpl. intros [= <- _]. apply lookup_insert_eq.
Qed.

Lemma endsWithSelf_bind {A : Type} selfId (p : Prog A) (f : A -> Prog unit) (Q : A -> Prop) :
  (forall w a w1, run p w = Done a w1 -> Q a) ->
  (forall a, Q a -> endsWithSelf selfId (f a)) ->
  endsWithSelf selfId (p ≫= f).
Proof.
  intros Hp Hf w w' (a & w1 & Ha & H)%run_bind_Done.
  exact (Hf a (Hp _ _ _ Ha) _ _ H).
Qed.

Lemma endsWithSelf_raise selfId e : endsWithSelf selfId (Raise e).
Proof. intros w w' H. discriminate. Qed.

Lemma endsWithSelf_push selfId f :
  locals f !! "self" = Some selfId ->
  endsWithSelf selfId (perform (FramePush f)).
Proof. intros Hf w w' H. simpl in H. injection H as <-. exists f. by split. Qed.

Ltac ends_with_self :=
  repeat first
    [ apply endsWithSelf_raise
    | apply endsWithSelf_push; simpl; first [apply lookup_insert_eq | assumption]
    | apply (endsWithSelf_bind _ _ _ (fun _ => True)); [done | intros ? _] ].

(** C9 (amended). After a step that executes, without a host-level failure, an
    [INIT] or a [CALL] that does not resolve to a native method (the
    [messageNotUnderstood] fallback included), the top frame of the evaluation
    has a [self] local equal to the id of the receiver popped by that
    instruction. *)
Theorem call_init_bind_self natives w cur below instruction selfId w' :
  frameStack (evaluation w) = cur :: below ->
  instructions cur !! nextInstruction cur = Some instruction ->
  receiverOf instruction (operandStack cur) = Some selfId ->
  ~ resolvesToNative (evaluation w) instruction (operandStack cur) ->
  step natives w = Done tt w' ->
  exists top, frameStack (evaluation w') !! 0 = Some top
              /\ locals top !! "self" = Some selfId.
Proof.
  intros Hfs Hi Hreceiver Hnonnative.
  rewrite (step_fetch _ _ _ _ _ Hfs Hi).
  destruct instruction; try discriminate; cbn [execute receiverOf] in *.
  - (* CALL *)
    unfold stepCALL.
    intros (popped & w1 & Hpops & H)%run_bind_Done.
    apply popOperands_Done in Hpops as (rest & Hst & Hlen & _ & ->).
    cbv zeta in H. apply run_bind_Done in H as (selfId' & w2 & Hpop & H).
    apply popOperand_Done in Hpop as (rest' & Hst' & _ & ->).
    simpl in Hst, Hst'. rewrite Hst' in Hst.
    assert (selfId' = selfId) as ->.
    { rewrite Hst in Hreceiver. rewrite lookup_app_r in Hreceiver by lia.
      rewrite Hlen, Nat.sub_diag in Hreceiver. by injection Hreceiver. }
    apply run_bind_Done in H as (self & w3 & Hget & H).
    apply getInstance_Done in Hget as [-> Hself]. simpl in Hself.
    assert (getReferent (instances (evaluation w) !! selfId) selfId = Some self) as Href.
    { destruct Hself as [(o & -> & ->)|(-> & -> & Hp)]; simpl; [reflexivity|].
      by rewrite Hp. }
    revert H. simpl environment.
    destruct (lookupStartClass _ (moduleOf self) lookupStart) as [startClass|] eqn:Hstart;
      [|discriminate].
    rewrite run_bind. cbn [run].
    destruct (methodLookup _ message arity startClass) as [method|] eqn:Hmethod.
    + destruct (isNative method) eqn:Hnative.
      * exfalso. apply Hnonnative. exists selfId, self, startClass, method.
        repeat split; assumption.
      * apply (endsWithSelf_bind _ _ _ (fun l => l !! "self" = Some selfId)).
        { intros ? ? ?. apply bindParameters_self. }
        intros l Hl. ends_with_self.
    + destruct (resolveMaybe _ (moduleOf self)) as [selfClass|]; [|discriminate].
      apply (endsWithSelf_bind _ _ _ (fun _ => True)); [done | intros nameId _].
      ends_with_self. destruct (methodLookup _ "messageNotUnderstood" _ _); ends_with_self.
  - (* INIT *)
    unfold stepINIT.
    intros (selfId' & w1 & Hpop & H)%run_bind_Done.
    apply popOperand_Done in Hpop as (rest & Hst & _ & ->).
    simpl in Hst. rewrite Hst in Hreceiver. injection Hreceiver as ->.
    apply run_bind_Done in H as (popped & w2 & _ & H).
    cbv zeta in H. apply run_bind_Done in H as (self & w3 & _ & H).
    revert H. destruct (resolveMaybe _ (moduleOf self)) as [selfClass|]; [|discriminate].
    destruct (constructorLookup _ _ _); [|discriminate].
    apply (endsWithSelf_bind _ _ _ (fun l => l !! "self" = Some selfId)).
    { intros ? ? ?. apply bindParameters_self. }
    intros l Hl. ends_with_self.
Qed.

(** The theorem on [o.first(a1, a2)] and on the [INIT] of an instance of [B]. *)
Lemma call_init_bind_self_witness :
  let call := Example.world [Example.frame [CALL "first" 2 None] [] ["a2"; "a1"; "o"]]
                [Example.object "o" "B"] in
  let init := Example.world [Example.frame [INIT 0 "B" true] [] ["o"]]
                [Example.object "o" "B"] in
  (exists top, frameStack (evaluation (outcomeWorld (step Example.natives call))) !! 0 = Some top
               /\ locals top !! "self" = Some "o")
  /\ (exists top, frameStack (evaluation (outcomeWorld (step Example.natives init))) !! 0 = Some top
                  /\ locals top !! "self" = Some "o").
Proof.
  split.
  - apply (call_init_bind_self Example.natives
             (Example.world [Example.frame [CALL "first" 2 None] [] ["a2"; "a1"; "o"]]
                [Example.object "o" "B"])
             (Example.frame [CALL "first" 2 None] [] ["a2"; "a1"; "o"]) []
             (CALL "first" 2 None) "o" _ eq_refl eq_refl eq_refl).
    + intros (selfId & self & startClass & method & H1 & H2 & H3 & H4 & H5).
      vm_compute in H1. injection H1 as <-.
      vm_compute in H2. injection H2 as <-.
      vm_compute in H3. injection H3 as <-.
      vm_compute in H4. injection H4 as <-.
      discriminate.
    + vm_compute. reflexivity.
  - apply (call_init_bind_self Example.natives
             (Example.world [Example.frame [INIT 0 "B" true] [] ["o"]]
                [Example.object "o" "B"])
             (Example.frame [INIT 0 "B" true] [] ["o"]) []
             (INIT 0 "B" true) "o" _ eq_refl eq_refl eq_refl).
    + intros [].
    + vm_compute. reflexivity.
Defined.

(** C9, the claim as stated fails on a native method: [o.size()] resolves to
    the native [A.size], which runs in the calling frame; no frame is pushed,
    and the top frame, which has no [self] local, is still the caller's. *)
Lemma call_native_self_counterexample :
  let current := Example.frame [CALL "size" 0 None] [] ["o"] in
  let w := Example.world [current] [Example.object "o" "B"] in
  receiverOf (CALL "size" 0 None) (operandStack current) = Some "o"
  /\ methodLookup Example.env "size" 0 (resolve Example.env "B") = Some Example.sizeMethod
  /\ isNative Example.sizeMethod = true
  /\ exists w' top,
       step Example.natives w = Done tt w'
       /\ frameStack (evaluation w') = [top]
       /\ locals top !! "self" = None
       /\ locals top !! "self" <> Some "o".
Proof.
  simpl. split; [reflexivity|]. split; [reflexivity|]. split; [reflexivity|].
  eexists _, _. split; [vm_compute; reflexivity|].
  split; [reflexivity|]. split; [reflexivity | discriminate].
Qed.

(** ** [INIT] *)

Lemma allFieldsOf_acc (h : list ClassNode) : forall acc,
  fold_left (fun fields module => fieldsOf module ++ fields) h acc
  = flat_map fieldsOf (reverse h) ++ acc.
Proof.
  induction h as [|c h IH]; intros acc; [reflexivity|].
  simpl. rewrite IH, reverse_cons, flat_map_app. simpl.
  by rewrite app_nil_r, <- app_assoc.
Qed.

(** The fields of a hierarchy, from its root down to the class itself. *)
Lemma allFieldsOf_reverse h : allFieldsOf h = flat_map fieldsOf (reverse h).
Proof. unfold allFieldsOf. by rewrite allFieldsOf_acc, app_nil_r. Qed.

Lemma allFieldsOf_superclass_first (h : list ClassNode) i j sub sup :
  i < j -> h !! i = Some sub -> h !! j = Some sup ->
  exists l1 l2 l3, allFieldsOf h = l1 ++ fieldsOf sup ++ l2 ++ fieldsOf sub ++ l3.
Proof.
  intros Hij Hi Hj. rewrite allFieldsOf_reverse.
  apply list_elem_of_split_length in Hi as (h1 & h2 & -> & Hlen).
  rewrite lookup_app_r in Hj by lia.
  destruct (j - length h1) as [|k] eqn:E; [lia|]. simpl in Hj.
  apply list_elem_of_split_length in Hj as (h3 & h4 & -> & _).
  exists (flat_map fieldsOf (reverse h4)), (flat_map fieldsOf (reverse h3)),
    (flat_map fieldsOf (reverse h1)).
  rewrite reverse_app, reverse_cons, reverse_app, reverse_cons.
  rewrite !flat_map_app. simpl. rewrite !app_nil_r, <- !app_assoc. reflexivity.
Qed.

Lemma fieldsOf_declaration_order c m1 m2 m3 f1 f2 :
  members c = m1 ++ MField f1 :: m2 ++ MField f2 :: m3 ->
  exists l1 l2 l3, fieldsOf c = l1 ++ f1 :: l2 ++ f2 :: l3.
Proof.
  intros H. unfold fieldsOf. rewrite H.
  rewrite omap_app. simpl. rewrite omap_app. simpl. eauto.
Qed.

Lemma allFieldsOf_complete (h : list ClassNode) c f :
  c ∈ h -> MField f ∈ members c -> f ∈ allFieldsOf h.
Proof.
  intros Hc Hf. rewrite allFieldsOf_reverse.
  apply list_elem_of_In, in_flat_map. exists c. split.
  - apply list_elem_of_In. by apply elem_of_reverse.
  - apply list_elem_of_In. unfold fieldsOf. apply list_elem_of_omap.
    exists (MField f). by split.
Qed.

Lemma bindParameters_total ps argIds selfId w :
  exists l w1,
    run (bindParameters ps argIds selfId) w = Done l w1
    /\ frameStack (evaluation w1) = frameStack (evaluation w).
Proof.
  destruct (existsb isVarArg ps) eqn:Hvar.
  - destruct (existsb_isVarArg_last ps Hvar) as [lastParameter Hlast].
    rewrite (run_bindParameters_vararg _ _ _ _ lastParameter) by assumption.
    eexists _, _. split; reflexivity.
  - rewrite run_bindParameters_fixed by assumption. eexists _, _. split; reflexivity.
Qed.

(** C3. An [INIT] with [initFields] true pushes a frame whose instructions
    start with, for every field of every class of the receiver's hierarchy,
    [LOAD(self)], the compiled initializer and [SET(name)]: the classes are
    taken from the root of the hierarchy down to the receiver's class, so the
    fields of a superclass come before those of its subclasses, and the fields
    of one class are in declaration order. With [initFields] false there is no
    such prefix, and the [INIT] that chains to the base constructor is emitted
    with [initFields] false. *)
Theorem init_initializes_fields natives w cur below arity lookupStart initFields
    args selfId rest self constructor :
  frameStack (evaluation w) = cur :: below ->
  instructions cur !! nextInstruction cur = Some (INIT arity lookupStart initFields) ->
  operandStack cur = selfId :: reverse args ++ rest ->
  length args = arity ->
  Forall (fun v => truthy v = true) args ->
  truthy selfId = true ->
  instances (evaluation w) !! selfId = Some self ->
  constructorLookup (environment (evaluation w)) arity
    (resolve (environment (evaluation w)) lookupStart) = Some constructor ->
  let env := environment (evaluation w) in
  let ownHierarchy := hierarchy env (resolve env (module self)) in
  let initialize := fun f =>
    [LOAD "self"] ++ compileExpression env (field_value f) ++ [SET (field_name f)] in
  let allFields := flat_map fieldsOf (reverse ownHierarchy) in
  (exists w' top chaining,
      step natives w = Done tt w'
      /\ frameStack (evaluation w') !! 0 = Some top
      /\ instructions top
         = (if initFields then flat_map initialize allFields else [])
           ++ chaining
           ++ compileBody env (constructor_body constructor)
           ++ [LOAD "self"; INTERRUPT Return_]
      /\ (chaining = []
          \/ exists target,
               chaining
               = flat_map (compileExpression env) (baseCall_args (baseCall constructor))
                 ++ [LOAD "self";
                     INIT (length (baseCall_args (baseCall constructor))) target false]))
  /\ (forall c f, c ∈ ownHierarchy -> MField f ∈ members c -> f ∈ allFields)
  /\ (forall i j sub sup,
         i < j -> ownHierarchy !! i = Some sub -> ownHierarchy !! j = Some sup ->
         exists l1 l2 l3, allFields = l1 ++ fieldsOf sup ++ l2 ++ fieldsOf sub ++ l3)
  /\ (forall c m1 m2 m3 f1 f2,
         members c = m1 ++ MField f1 :: m2 ++ MField f2 :: m3 ->
         exists l1 l2 l3, fieldsOf c = l1 ++ f1 :: l2 ++ f2 :: l3).
Proof.
  intros Hfs Hi Hst Hlen Hall Hs Hself Hctor env ownHierarchy initialize allFields.
  split; [|split; [|split]].
  - rewrite (step_fetch _ _ _ _ _ Hfs Hi). cbn [execute]. unfold stepINIT.
    rewrite run_bind, (run_popOperand _ _ _ selfId (reverse args ++ rest)) by (simpl; auto).
    rewrite run_bind, (run_popOperands _ _ _ _ (reverse args) rest);
      [| reflexivity | by rewrite length_reverse | by apply Forall_reverse].
    cbv zeta. rewrite run_bind, (run_getInstance _ selfId self) by (simpl; auto).
    cbn [resolveMaybe moduleOf].
    change (environment (evaluation (withFrameStack ?a w))) with (environment (evaluation w)).
    unfold env in *. rewrite Hctor.
    match goal with
    | |- context [run (bindParameters ?ps ?a ?s ≫= _) ?w0] =>
        destruct (bindParameters_total ps a s w0) as (l & w1 & Hbind & Hframes)
    end.
    rewrite run_bind, Hbind. rewrite run_bind. unfold perform. cbn [run handle]. unfold onFrame.
    rewrite Hframes. cbn [frameStack evaluation withFrameStack lookup list_lookup].
    rewrite allFieldsOf_reverse.
    destruct (superclass _ (resolve _ lookupStart)) as [ownSuperclass|].
    + rewrite (bool_decide_eq_true_2 _ (mk_is_Some _ _ eq_refl)).
      destruct (callsSuper (baseCall constructor)); cbn [orb negb];
        rewrite !run_bind; cbn [run handle];
        eexists _, _, _; (split; [reflexivity|]); (split; [reflexivity|]);
        (split; [reflexivity|]); right; eauto.
    + rewrite (bool_decide_eq_false_2 (is_Some None)) by (by intros [? ?]).
      destruct (callsSuper (baseCall constructor)); cbn [orb negb];
        rewrite !run_bind; cbn [run handle];
        eexists _, _, _; (split; [reflexivity|]); (split; [reflexivity|]);
        (split; [reflexivity|]); eauto.
  - intros c f Hc Hf. unfold allFields. rewrite <- allFieldsOf_reverse.
    by apply (allFieldsOf_complete _ c).
  - intros i j sub sup Hij Hsub Hsup. unfold allFields. rewrite <- allFieldsOf_reverse.
    by apply (allFieldsOf_superclass_first _ i j).
  - intros c. apply fieldsOf_declaration_order.
Qed.

(** The theorem on the [INIT] of an instance of [B], whose hierarchy is [B],
    [A], [Object]: [x] of [A] is initialized before [y] and [z] of [B]. *)
Lemma init_initializes_fields_witness :
  exists w' top chaining,
    step Example.natives
      (Example.world [Example.frame [INIT 0 "B" true] [] ["o"]] [Example.object "o" "B"])
    = Done tt w'
    /\ frameStack (evaluation w') !! 0 = Some top
    /\ instructions top
       = [LOAD "self"; INSTANTIATE "wollok.lang.Number" (Some (VNumber 1%float)); SET "x";
          LOAD "self"; PUSH TRUE_ID; SET "y";
          LOAD "self"; PUSH NULL_ID; SET "z"]
         ++ chaining
         ++ [LOAD "self"; INTERRUPT Return_].
Proof.
  destruct (proj1 (init_initializes_fields Example.natives
                     (Example.world [Example.frame [INIT 0 "B" true] [] ["o"]]
                        [Example.object "o" "B"])
                     (Example.frame [INIT 0 "B" true] [] ["o"]) []
                     0 "B" true [] "o" [] (Example.object "o" "B")
                     Example.defaultConstructor
                     eq_refl eq_refl eq_refl eq_refl ltac:(constructor)
                     eq_refl eq_refl eq_refl))
    as (w' & top & chaining & Hstep & Htop & Hcode & _).
  exists w', top, chaining. split; [exact Hstep|]. split; [exact Htop | exact Hcode].
Defined.

(** ** Interruptions raised by [step] *)

Lemma handle_raised {X : Type} (op : Op X) w :
  isInterrupting op = false ->
  raised (outcomeWorld (handle op w)) = raised w.
Proof.
  destruct op; simpl; try reflexivity; try discriminate; intros _;
    unfold onFrame, onInstance;
    repeat match goal with
           | |- context [match ?x with _ => _ end] => destruct x; simpl
           end; reflexivity.
Qed.

Lemma silent_raised {A : Type} (p : Prog A) : forall w,
  silent p -> raised (outcomeWorld (run p w)) = raised w.
Proof.
  induction p as [a | e | X op k IH]; intros w Hp; simpl; try reflexivity.
  destruct Hp as [Hop Hk]. pose proof (handle_raised op w Hop) as Hh.
  destruct (handle op w) as [x w1|e w1]; simpl in *; [|exact Hh].
  rewrite IH by apply Hk. exact Hh.
Qed.

Lemma silent_bind {A B : Type} (p : Prog A) (f : A -> Prog B) :
  silent p -> (forall a, silent (f a)) -> silent (p ≫= f).
Proof.
  unfold mbind, Prog_bind. intros Hp Hf.
  induction p as [a | e | X op k IH]; simpl; [apply Hf | exact I |].
  destruct Hp as [Hop Hk]. split; [exact Hop|]. intros x. apply IH, Hk.
Qed.

Lemma silent_perform {X : Type} (op : Op X) :
  isInterrupting op = false -> silent (perform op).
Proof. intros H. split; [exact H | intros x; exact I]. Qed.

Ltac silent_cases :=
  repeat first
    [ exact I
    | apply silent_perform; reflexivity
    | apply silent_bind; [|intros ?]
    | match goal with
      | |- silent (match ?x with _ => _ end) => destruct x
      | |- silent (if ?x then _ else _) => destruct x
      | |- silent (let _ := _ in _) => cbv zeta
      end ].

Lemma silent_popOperand : silent popOperand.
Proof. unfold popOperand. silent_cases. Qed.

Lemma silent_pushOperand i : silent (pushOperand i).
Proof. unfold pushOperand. silent_cases. Qed.

Lemma silent_getInstance i : silent (getInstance i).
Proof. unfold getInstance. silent_cases. Qed.

Lemma silent_addInstance module value : silent (addInstance module value).
Proof. unfold addInstance. silent_cases. Qed.

Lemma silent_popOperands n : silent (popOperands n).
Proof.
  induction n as [|n IH]; [exact I|]. cbn [popOperands].
  apply silent_bind; [apply silent_popOperand | intros v].
  apply silent_bind; [exact IH | intros vs; exact I].
Qed.

Lemma silent_bindParameters ps argIds selfId : silent (bindParameters ps argIds selfId).
Proof.
  unfold bindParameters. destruct (existsb isVarArg ps); [|exact I].
  apply silent_bind; [apply silent_addInstance | intros restId].
  destruct (last ps); exact I.
Qed.

Lemma silent_compileBody' environment body : silent (compileBody' environment body).
Proof. destruct body; exact I. Qed.

Lemma silent_instancesOf ids : silent (instancesOf ids).
Proof.
  induction ids as [|i ids IH]; [exact I|]. cbn [instancesOf].
  apply silent_bind; [by apply silent_perform | intros o].
  apply silent_bind; [exact IH | intros os; exact I].
Qed.

Lemma silent_unwind interruption below : silent (unwind interruption below).
Proof.
  induction below as [|f below IH]; cbn [unwind].
  - apply silent_bind; [by apply silent_perform | intros _; exact I].
  - apply silent_bind; [by apply silent_perform | intros _].
    destruct (includes interruption (resume f)); [exact I | exact IH].
Qed.

Create HintDb silent.
#[local] Hint Resolve silent_popOperand silent_pushOperand silent_getInstance
  silent_addInstance silent_popOperands silent_bindParameters silent_compileBody'
  silent_instancesOf silent_unwind : silent.

Ltac silence :=
  repeat first
    [ exact I
    | solve [auto with silent]
    | apply silent_perform; reflexivity
    | apply silent_bind; [|intros ?]
    | match goal with
      | |- silent (match ?x with _ => _ end) => destruct x
      | |- silent (if ?x then _ else _) => destruct x
      | |- silent (let _ := _ in _) => cbv zeta
      end ].

(** [interrupt] records the interruption and then unwinds. *)
Lemma run_interrupt_raised interruption valueId w :
  raised (outcomeWorld (run (interrupt interruption valueId) w))
  = raised w ++ [(interruption, valueId)].
Proof.
  unfold interrupt. rewrite run_bind. cbn [perform run handle].
  match goal with |- context [run ?p ?w0] => rewrite (silent_raised p w0) end;
    [reflexivity|].
  silence.
Qed.

Lemma silent_Done {A : Type} (p : Prog A) w a w1 :
  silent p -> run p w = Done a w1 -> raised w1 = raised w.
Proof. intros Hp H. pose proof (silent_raised p w Hp) as Hr. by rewrite H in Hr. Qed.

Lemma silent_Thrown {A : Type} (p : Prog A) w e w1 :
  silent p -> run p w = Thrown e w1 -> raised w1 = raised w.
Proof. intros Hp H. pose proof (silent_raised p w Hp) as Hr. by rewrite H in Hr. Qed.

(** ** [interrupt] *)

Lemma run_unwind interruption below :
  forall top w,
    run (unwind interruption below) (withFrameStack (top :: below) w)
    = Done (head (unwound interruption below))
        (withFrameStack (unwound interruption below) w).
Proof.
  induction below as [|f below IH]; intros top w.
  - reflexivity.
  - cbn [unwind unwound]. rewrite run_bind. cbn [perform run handle]. simpl tail.
    destruct (includes interruption (resume f)); [reflexivity|].
    apply (IH f w).
Qed.

Lemma run_getInstance_any w i :
  run (getInstance i) w
  = match getReferent (instances (evaluation w) !! i) i with
    | Some self => Done self w
    | None => Thrown (UndefinedInstance i) w
    end.
Proof.
  unfold getInstance. rewrite run_bind. cbn [perform run handle].
  by destruct (getReferent _ i).
Qed.

(** [interrupt] in a frame over [below]: the frame it is called in is popped
    whatever its resume set holds. *)
Lemma run_interrupt interruption valueId top below w :
  run (interrupt interruption valueId) (withFrameStack (top :: below) w)
  = interrupted interruption valueId below w.
Proof.
  unfold interrupt, interrupted, deliver.
  rewrite run_bind. cbn [perform run handle].
  rewrite run_bind. cbn [perform run handle]. simpl tail.
  rewrite run_bind.
  change (withRaised ?r (withFrameStack ?fs w)) with (withFrameStack fs (withRaised r w)).
  rewrite run_unwind.
  destruct (unwound interruption below) as [|f rest] eqn:Hu; cbn [head].
  - rewrite run_bind. unfold unhandledError.
    destruct (decide (interruption = Exception)) as [->|Hne]; [|reflexivity].
    rewrite run_bind, run_getInstance_any.
    change (instances (evaluation (withFrameStack [] ?x))) with (instances (evaluation w)).
    destruct (getReferent (instances (evaluation w) !! valueId) valueId) as [[value|key]|];
      [|reflexivity..].
    destruct (getProperty (fields value) "message") as [m|]; [|reflexivity].
    destruct (truthy m); [|reflexivity].
    rewrite run_bind, run_getInstance_any.
    change (instances (evaluation (withFrameStack [] ?x))) with (instances (evaluation w)).
    destruct (getReferent (instances (evaluation w) !! m) m); reflexivity.
  - reflexivity.
Qed.

Lemma unwound_app interruption skipped h rest :
  Forall (fun f => interruption ∉ resume f) skipped ->
  interruption ∈ resume h ->
  unwound interruption (skipped ++ h :: rest) = h :: rest.
Proof.
  intros Hs Hh. induction Hs as [|f skipped Hf _ IH]; simpl.
  - unfold includes. by rewrite bool_decide_eq_true_2.
  - unfold includes at 1. by rewrite bool_decide_eq_false_2.
Qed.

Lemma unwound_none interruption below :
  Forall (fun f => interruption ∉ resume f) below ->
  unwound interruption below = [].
Proof.
  intros Hs. induction Hs as [|f below Hf _ IH]; simpl; [reflexivity|].
  unfold includes. by rewrite bool_decide_eq_false_2.
Qed.

(** C5. A [CONDITIONAL_JUMP] or an [IF_THEN_ELSE] whose popped operand is
    neither [true] nor [false] allocates an instance of
    wollok.lang.BadParameterException and raises [exception] with its id: the
    current frame and the frames under it that do not resume on [exception]
    are popped, and the first frame that does gets the id on its operand
    stack and loses its marks of [exception]; when no frame does, the step
    fails with "Unhandled interruption" and leaves no frame. No other
    instruction calls [interrupt] on its own: the two above do not on a
    boolean operand, [INTERRUPT] and [RESUME_INTERRUPTION] raise the id they
    pop from the operand stack, a [CALL] raises nothing beyond what the native
    it invokes does, and the remaining instructions raise nothing; what else
    fails is a host error. *)
Theorem bad_parameter_is_the_only_exception natives w cur below instruction :
  frameStack (evaluation w) = cur :: below ->
  instructions cur !! nextInstruction cur = Some instruction ->
  let raised' := raised (outcomeWorld (step natives w)) in
  match instruction with
  | CONDITIONAL_JUMP _ | IF_THEN_ELSE _ _ =>
      (forall check rest,
          operandStack cur = check :: rest ->
          truthy check = true -> check <> TRUE_ID -> check <> FALSE_ID ->
          let i := uuid w (uuidCalls w) in
          let exception :=
            {| id := i; module := "wollok.lang.BadParameterException"; fields := ∅;
               innerValue := None |} in
          let after frames :=
            {| evaluation :=
                 {| environment := environment (evaluation w);
                    frameStack := frames;
                    instances := <[i := exception]> (instances (evaluation w)) |};
               uuid := uuid w;
               uuidCalls := S (uuidCalls w);
               raised := raised w ++ [(Exception, i)] |} in
          (forall skipped h rest',
              below = skipped ++ h :: rest' ->
              Forall (fun f => Exception ∉ resume f) skipped ->
              Exception ∈ resume h ->
              step natives w
              = Done tt
                  (after
                     ({| instructions := instructions h;
                         nextInstruction := nextInstruction h;
                         locals := locals h;
                         operandStack := i :: operandStack h;
                         resume := filter (fun elem => elem ≠ Exception) (resume h) |}
                      :: rest')))
          /\ (Forall (fun f => Exception ∉ resume f) below ->
              step natives w = Thrown (UnhandledInterruption Exception i) (after [])))
      /\ (~ nonBooleanOperand cur -> raised' = raised w)
  | INTERRUPT interruption =>
      raised' = raised w
      \/ exists v rest,
           operandStack cur = v :: rest /\ raised' = raised w ++ [(interruption, v)]
  | RESUME_INTERRUPTION =>
      raised' = raised w
      \/ exists interruption v rest,
           operandStack cur = v :: rest /\ raised' = raised w ++ [(interruption, v)]
  | CALL message arity _ =>
      raised' = raised w
      \/ exists method native self args w1,
           isNative method = true /\ natives method = Some native
           /\ raised w1 = raised w
           /\ step natives w = run (native self args) w1
  | _ => raised' = raised w
  end.
Proof.
  intros Hfs Hi raised'. subst raised'.
  rewrite (step_fetch _ _ _ _ _ Hfs Hi).
  assert (forall p : Prog unit, silent p ->
            raised (outcomeWorld (run p (withFrameStack (advance cur :: below) w)))
            = raised w) as Hsilent
    by (intros p Hp; by rewrite silent_raised).
  assert (forall g : Id -> Prog unit,
            (forall check, silent (g check)) ->
            let branch check :=
              if bool_decide (check ≠ TRUE_ID) && bool_decide (check ≠ FALSE_ID)
              then i ← addInstance "wollok.lang.BadParameterException" None;
                   interrupt Exception i
              else g check in
            (forall check rest,
                operandStack cur = check :: rest ->
                truthy check = true -> check <> TRUE_ID -> check <> FALSE_ID ->
                let i := uuid w (uuidCalls w) in
                let exception :=
                  {| id := i; module := "wollok.lang.BadParameterException"; fields := ∅;
                     innerValue := None |} in
                run (popOperand ≫= branch) (withFrameStack (advance cur :: below) w)
                = interrupted Exception i below
                    (withInstances (<[i := exception]> (instances (evaluation w)))
                       (drawUuid w)))
            /\ (~ nonBooleanOperand cur ->
                raised (outcomeWorld
                          (run (popOperand ≫= branch)
                             (withFrameStack (advance cur :: below) w)))
                = raised w)) as Hcheck.
  { intros g Hg branch. split.
    - intros check rest Hst Hv Htrue Hfalse i exception.
      rewrite run_bind, (run_popOperand _ _ _ check rest) by (simpl; auto).
      unfold branch.
      rewrite (bool_decide_eq_true_2 _ Htrue), (bool_decide_eq_true_2 _ Hfalse).
      cbn [andb]. rewrite run_bind, run_addInstance by done.
      refine (eq_trans _ (run_interrupt Exception i (setOperandStack rest (advance cur)) below
               (withInstances (<[i := exception]> (instances (evaluation w))) (drawUuid w)))).
      reflexivity.
    - intros Hbool. rewrite run_bind.
      destruct (run popOperand _) as [check w1|e w1] eqn:Hpop.
      + pose proof (silent_Done _ _ _ _ silent_popOperand Hpop) as Hr.
        apply popOperand_Done in Hpop as (rest & Hst & Hv & ->).
        unfold branch.
        destruct (decide (check = TRUE_ID)) as [->|Htrue].
        { simpl. rewrite silent_raised by apply Hg. reflexivity. }
        destruct (decide (check = FALSE_ID)) as [->|Hfalse].
        { simpl. rewrite silent_raised by apply Hg. reflexivity. }
        exfalso. apply Hbool. exists check, rest. by repeat split.
      + simpl. by apply (silent_Thrown _ _ _ _ silent_popOperand Hpop). }
  assert (forall p : Prog unit,
            (forall check rest,
                operandStack cur = check :: rest ->
                truthy check = true -> check <> TRUE_ID -> check <> FALSE_ID ->
                let i := uuid w (uuidCalls w) in
                let exception :=
                  {| id := i; module := "wollok.lang.BadParameterException"; fields := ∅;
                     innerValue := None |} in
                run p (withFrameStack (advance cur :: below) w)
                = interrupted Exception i below
                    (withInstances (<[i := exception]> (instances (evaluation w)))
                       (drawUuid w))) ->
            forall check rest,
              operandStack cur = check :: rest ->
              truthy check = true -> check <> TRUE_ID -> check <> FALSE_ID ->
              let i := uuid w (uuidCalls w) in
              let exception :=
                {| id := i; module := "wollok.lang.BadParameterException"; fields := ∅;
                   innerValue := None |} in
              let after frames :=
                {| evaluation :=
                     {| environment := environment (evaluation w);
                        frameStack := frames;
                        instances := <[i := exception]> (instances (evaluation w)) |};
                   uuid := uuid w;
                   uuidCalls := S (uuidCalls w);
                   raised := raised w ++ [(Exception, i)] |} in
              (forall skipped h rest',
                  below = skipped ++ h :: rest' ->
                  Forall (fun f => Exception ∉ resume f) skipped ->
                  Exception ∈ resume h ->
                  run p (withFrameStack (advance cur :: below) w)
                  = Done tt
                      (after
                         ({| instructions := instructions h;
                             nextInstruction := nextInstruction h;
                             locals := locals h;
                             operandStack := i :: operandStack h;
                             resume := filter (fun elem => elem ≠ Exception) (resume h) |}
                          :: rest')))
              /\ (Forall (fun f => Exception ∉ resume f) below ->
                  run p (withFrameStack (advance cur :: below) w)
                  = Thrown (UnhandledInterruption Exception i) (after []))) as Hraise.
  { intros p Hp check rest Hst Hv Htrue Hfalse i exception after.
    rewrite (Hp check rest Hst Hv Htrue Hfalse). unfold interrupted, deliver. split.
    - intros skipped h rest' -> Hskipped Hh.
      by rewrite (unwound_app _ _ _ _ Hskipped Hh).
    - intros Hbelow. rewrite (unwound_none _ _ Hbelow).
      unfold unhandledError. cbn [decide_rel]. rewrite decide_True by reflexivity.
      change (instances (evaluation (withInstances ?m ?x))) with m.
      fold i. rewrite lookup_insert_eq. reflexivity. }
  destruct instruction; cbn [execute];
    try (apply Hsilent; unfold stepINIT; silence).
  - (* CONDITIONAL_JUMP *)
    match goal with |- context [popOperand ≫= ?f] =>
      match f with
      | (fun check => if _ then _ else @?g check) =>
          assert (forall check, silent (g check)) as Hg
            by (intros check; cbv beta; silence);
          destruct (Hcheck g Hg) as [H1 H2]
      end
    end.
    split; [exact (Hraise _ H1) | exact H2].
  - (* CALL *)
    unfold stepCALL.
    rewrite run_bind.
    destruct (run (popOperands arity) _) as [popped w1|e w1] eqn:H1;
      [|left; by apply (silent_Thrown _ _ _ _ (silent_popOperands arity) H1)].
    apply (silent_Done _ _ _ _ (silent_popOperands arity)) in H1. simpl in H1. cbv zeta.
    rewrite run_bind.
    destruct (run popOperand w1) as [selfId w2|e w2] eqn:H2;
      [|left; apply (silent_Thrown _ _ _ _ silent_popOperand) in H2; simpl; congruence].
    apply (silent_Done _ _ _ _ silent_popOperand) in H2.
    rewrite run_bind.
    destruct (run (getInstance selfId) w2) as [self w3|e w3] eqn:H3;
      [|left; apply (silent_Thrown _ _ _ _ (silent_getInstance _)) in H3; simpl; congruence].
    apply (silent_Done _ _ _ _ (silent_getInstance _)) in H3.
    assert (raised w3 = raised w) as Hr by congruence.
    rewrite run_bind.
    destruct (lookupStartClass _ _ _) as [startClass|]; cbn [run]; [|left; exact Hr].
    destruct (methodLookup _ message arity startClass) as [method|].
    + destruct (isNative method) eqn:Hnative.
      * destruct (natives method) as [native|] eqn:Hnatives; [|left; exact Hr].
        rewrite run_bind.
        destruct (run (instancesOf _) w3) as [args w4|e w4] eqn:H4;
          [|left; apply (silent_Thrown _ _ _ _ (silent_instancesOf _)) in H4; simpl; congruence].
        apply (silent_Done _ _ _ _ (silent_instancesOf _)) in H4.
        right. exists method, native, self, args, w4.
        repeat split; [exact Hnative | exact Hnatives | congruence].
      * left. rewrite <- Hr. apply silent_raised. silence.
    + left. rewrite <- Hr. apply silent_raised. silence.
  - (* IF_THEN_ELSE *)
    match goal with |- context [popOperand ≫= ?f] =>
      match f with
      | (fun check => if _ then _ else @?g check) =>
          assert (forall check, silent (g check)) as Hg
            by (intros check; cbv beta; silence);
          destruct (Hcheck g Hg) as [H1 H2]
      end
    end.
    split; [exact (Hraise _ H1) | exact H2].
  - (* INTERRUPT *)
    rewrite run_bind.
    destruct (run popOperand _) as [v w1|e w1] eqn:Hpop.
    + pose proof (silent_Done _ _ _ _ silent_popOperand Hpop) as Hr.
      apply popOperand_Done in Hpop as (rest & Hst & Hv & ->).
      right. exists v, rest. split; [exact Hst|].
      rewrite run_interrupt_raised. reflexivity.
    + left. by apply (silent_Thrown _ _ _ _ silent_popOperand Hpop).
  - (* RESUME_INTERRUPTION *)
    destruct (decide _); [left; reflexivity|].
    destruct (find _ _) as [lastInterruption|]; [|left; reflexivity].
    rewrite run_bind.
    destruct (run popOperand _) as [v w1|e w1] eqn:Hpop.
    + pose proof (silent_Done _ _ _ _ silent_popOperand Hpop) as Hr.
      apply popOperand_Done in Hpop as (rest & Hst & Hv & ->).
      right. exists lastInterruption, v, rest. split; [exact Hst|].
      rewrite run_interrupt_raised. reflexivity.
    + left. by apply (silent_Thrown _ _ _ _ silent_popOperand Hpop).
Qed.

(** The theorem on an [IF_THEN_ELSE] that finds the instance [o] as its
    condition, in a frame over one that resumes on [exception]. *)
Lemma bad_parameter_is_the_only_exception_witness :
  step Example.natives
    (Example.world [Example.frame [IF_THEN_ELSE [] []] [] ["o"];
                    Example.resuming [] ["a"] [Exception]]
       [Example.object "o" "B"])
  = Done tt
      {| evaluation :=
           {| environment := Example.env;
              frameStack := [Example.resuming [] ["uuid-0"; "a"] []];
              instances :=
                <["uuid-0" := Example.object "uuid-0" "wollok.lang.BadParameterException"]>
                  {[ "o" := Example.object "o" "B" ]} |};
         uuid := Example.uuid;
         uuidCalls := 1;
         raised := [(Exception, "uuid-0")] |}.
Proof.
  etransitivity.
  - apply (proj1 (proj1 (bad_parameter_is_the_only_exception Example.natives
                     (Example.world [Example.frame [IF_THEN_ELSE [] []] [] ["o"];
                                     Example.resuming [] ["a"] [Exception]]
                        [Example.object "o" "B"])
                     (Example.frame [IF_THEN_ELSE [] []] [] ["o"])
                     [Example.resuming [] ["a"] [Exception]]
                     (IF_THEN_ELSE [] []) eq_refl eq_refl)
              "o" [] eq_refl eq_refl ltac:(discriminate) ltac:(discriminate))
            [] (Example.resuming [] ["a"] [Exception]) [] eq_refl).
    + constructor.
    + by apply (bool_decide_unpack _).
  - reflexivity.
Defined.

(** ** The well-known instances *)

Lemma stable_refl k w : stable k w w.
Proof. split; [reflexivity|]. split; [eauto | auto]. Qed.

Lemma stable_trans k w1 w2 w3 : stable k w1 w2 -> stable k w2 w3 -> stable k w1 w3.
Proof.
  intros (Hu & Hs & Hn) (Hu' & Hs' & Hn'). split; [congruence|]. split.
  - intros o Ho. destruct (Hs o Ho) as (o' & Ho' & Hm).
    destruct (Hs' o' Ho') as (o'' & Ho'' & Hm'). exists o''. split; [done | congruence].
  - auto.
Qed.

Lemma stable_instances k w w' :
  uuid w' = uuid w ->
  instances (evaluation w') = instances (evaluation w) ->
  stable k w w'.
Proof. intros Hu Hi. split; [exact Hu|]. rewrite Hi. split; [eauto | auto]. Qed.

Lemma onFrame_stable k d g w : stable k w (outcomeWorld (onFrame d g w)).
Proof. unfold onFrame. destruct (_ !! d); by apply stable_instances. Qed.

Lemma onInstance_stable k i g w :
  (forall o, module (g o) = module o) ->
  stable k w (outcomeWorld (onInstance i g w)).
Proof.
  intros Hg. unfold onInstance.
  destruct (instances (evaluation w) !! i) as [o|] eqn:Hi; [|apply stable_refl].
  split; [reflexivity|]. simpl. destruct (decide (i = k)) as [->|Hne].
  - rewrite lookup_insert_eq. split; [|congruence].
    intros o' Ho'. eexists. split; [reflexivity|]. rewrite Hg. congruence.
  - rewrite lookup_insert_ne by exact Hne. split; [eauto | auto].
Qed.

Lemma handle_stable {X : Type} (op : Op X) k w :
  (forall n, uuid w n <> k) ->
  stable k w (outcomeWorld (handle op w)).
Proof.
  intros Hfresh.
  destruct op; cbn [handle]; try apply onFrame_stable;
    try (apply onInstance_stable; reflexivity);
    try (by apply stable_instances).
  - (* OperandPop *)
    destruct (_ !! d) as [f|]; [|apply stable_refl].
    destruct (operandStack f); by apply stable_instances.
  - (* NewInstance *)
    split; [reflexivity|]. simpl.
    rewrite lookup_insert_ne by apply Hfresh. split; [eauto | auto].
  - (* MutateList *)
    destruct (instances (evaluation w) !! i) as [o|] eqn:Hi; [|apply stable_refl].
    destruct (innerValue o) as [[]|]; try apply stable_refl.
    pose proof (onInstance_stable k i (setInnerValue (Some (VList (g ids)))) w
                  ltac:(reflexivity)) as H.
    unfold onInstance in H. by rewrite Hi in H.
Qed.

Lemma run_stable {A : Type} (p : Prog A) k : forall w,
  (forall n, uuid w n <> k) ->
  stable k w (outcomeWorld (run p w)).
Proof.
  induction p as [a | e | X op k' IH]; intros w Hfresh; simpl; try apply stable_refl.
  pose proof (handle_stable op k w Hfresh) as Hh.
  destruct (handle op w) as [x w1|e w1]; simpl in *; [|exact Hh].
  eapply stable_trans; [exact Hh|]. apply IH.
  destruct Hh as [Hu _]. rewrite Hu. exact Hfresh.
Qed.

Lemma steps_stable natives k w w' :
  (forall n, uuid w n <> k) ->
  steps natives w w' ->
  stable k w w'.
Proof.
  intros Hfresh Hsteps. induction Hsteps as [|w w1 w2 Hsteps IH Hstep].
  - apply stable_refl.
  - specialize (IH Hfresh). eapply stable_trans; [exact IH|].
    pose proof (run_stable (stepProgram natives (environment (evaluation w1))) k w1) as Hr.
    unfold step in Hstep. rewrite Hstep in Hr. apply Hr.
    destruct IH as [Hu _]. rewrite Hu. exact Hfresh.
Qed.

Lemma assoc_all_notin (l : list RuntimeObject) : forall (acc : gmap string RuntimeObject) k,
  k ∉ map id l ->
  fold_left (fun all instance => <[id instance := instance]> all) l acc !! k = acc !! k.
Proof.
  induction l as [|o l IH]; intros acc k Hk; [reflexivity|]. simpl in *.
  apply not_elem_of_cons in Hk as [Hne Hk].
  rewrite IH by exact Hk. by rewrite lookup_insert_ne.
Qed.

Lemma assoc_all_in (l : list RuntimeObject) : forall (acc : gmap string RuntimeObject) k,
  k ∈ map id l ->
  is_Some (fold_left (fun all instance => <[id instance := instance]> all) l acc !! k).
Proof.
  induction l as [|o l IH]; intros acc k Hk; [by apply elem_of_nil in Hk|]. simpl in *.
  destruct (decide (k ∈ map id l)) as [Hin|Hnotin]; [by apply IH|].
  apply elem_of_cons in Hk as [->|Hk]; [|contradiction].
  rewrite assoc_all_notin by exact Hnotin. rewrite lookup_insert_eq. by eexists.
Qed.

Lemma buildEvaluationFor_instances environment k :
  instances (buildEvaluationFor environment) !! k
  = fold_left (fun all instance => <[id instance := instance]> all)
      (map (singletonInstance environment) (globalSingletons environment))
      wellKnownInstances !! k.
Proof. unfold buildEvaluationFor. cbn [instances]. rewrite fold_left_app. reflexivity. Qed.

Lemma singleton_instance_ids environment (l : list Singleton) :
  map id (map (singletonInstance environment) l) = map singleton_id l.
Proof. rewrite map_map. reflexivity. Qed.

(** C2 (amended). In the evaluation returned by [buildEvaluationFor], and in
    every evaluation that steps reach from it, the heap holds instances under
    the ids [null], [true] and [false], of modules wollok.lang.Object,
    wollok.lang.Boolean and wollok.lang.Boolean, when no named global singleton
    has one of these ids as its node id and [uuid()] never returns a
    well-known id. No instance is allocated for [void]: the heap holds one
    under that id only when it is the node id of a named global singleton. *)
Theorem well_known_instances environment natives u w' :
  (forall s, s ∈ globalSingletons environment ->
             singleton_id s <> NULL_ID /\ singleton_id s <> TRUE_ID
             /\ singleton_id s <> FALSE_ID) ->
  (forall n, u n <> NULL_ID /\ u n <> TRUE_ID /\ u n <> FALSE_ID /\ u n <> VOID_ID) ->
  steps natives (worldOf u (buildEvaluationFor environment)) w' ->
  (exists o, instances (evaluation w') !! NULL_ID = Some o
             /\ module o = "wollok.lang.Object")
  /\ (exists o, instances (evaluation w') !! TRUE_ID = Some o
                /\ module o = "wollok.lang.Boolean")
  /\ (exists o, instances (evaluation w') !! FALSE_ID = Some o
                /\ module o = "wollok.lang.Boolean")
  /\ (is_Some (instances (evaluation w') !! VOID_ID)
      <-> exists s, s ∈ globalSingletons environment /\ singleton_id s = VOID_ID).
Proof.
  intros Hsingletons Huuid Hsteps.
  assert (forall k, k = NULL_ID \/ k = TRUE_ID \/ k = FALSE_ID ->
            k ∉ map singleton_id (globalSingletons environment)) as Hnotin.
  { intros k Hk Hin. apply list_elem_of_In, in_map_iff in Hin as (s & Hid & Hs).
    apply list_elem_of_In in Hs. destruct (Hsingletons s Hs) as (H1 & H2 & H3).
    destruct Hk as [->| [->| ->]]; contradiction. }
  assert (forall k, (forall n, u n <> k) ->
            stable k (worldOf u (buildEvaluationFor environment)) w') as Hstable
    by (intros k Hk; by apply (steps_stable natives)).
  assert (forall k o,
            k = NULL_ID \/ k = TRUE_ID \/ k = FALSE_ID ->
            wellKnownInstances !! k = Some o ->
            (forall n, u n <> k) ->
            exists o', instances (evaluation w') !! k = Some o' /\ module o' = module o)
    as Hkept.
  { intros k o Hk Ho Hfresh. destruct (Hstable k Hfresh) as (_ & Hs & _).
    apply Hs. cbn [worldOf evaluation]. rewrite buildEvaluationFor_instances.
    rewrite assoc_all_notin; [exact Ho|].
    rewrite singleton_instance_ids. by apply Hnotin. }
  split; [|split; [|split]].
  - apply (Hkept NULL_ID _ ltac:(auto) eq_refl). intros n. apply Huuid.
  - apply (Hkept TRUE_ID _ ltac:(auto) eq_refl). intros n. apply Huuid.
  - apply (Hkept FALSE_ID _ ltac:(auto) eq_refl). intros n. apply Huuid.
  - destruct (Hstable VOID_ID ltac:(intros n; apply Huuid)) as (_ & Hs & Hn).
    cbn [worldOf evaluation] in Hs, Hn. rewrite buildEvaluationFor_instances in Hs, Hn.
    destruct (decide (VOID_ID ∈ map singleton_id (globalSingletons environment)))
      as [Hin|Hout].
    + split.
      * intros _. apply list_elem_of_In, in_map_iff in Hin as (s & Hid & Hs').
        exists s. split; [by apply list_elem_of_In | exact Hid].
      * intros _.
        destruct (assoc_all_in
                    (map (singletonInstance environment) (globalSingletons environment))
                    wellKnownInstances VOID_ID) as [o Ho].
        { by rewrite singleton_instance_ids. }
        destruct (Hs o Ho) as (o' & Ho' & _). by eexists.
    + split.
      * intros [o Ho]. exfalso. rewrite Hn in Ho; [discriminate|].
        rewrite assoc_all_notin by (by rewrite singleton_instance_ids). reflexivity.
      * intros (s & Hs' & Hid). exfalso. apply Hout.
        apply list_elem_of_In, in_map_iff. exists s.
        split; [exact Hid | by apply list_elem_of_In].
Qed.

Lemma example_uuid_fresh n :
  Example.uuid n <> NULL_ID /\ Example.uuid n <> TRUE_ID
  /\ Example.uuid n <> FALSE_ID /\ Example.uuid n <> VOID_ID.
Proof. repeat split; discriminate. Qed.

(** The theorem on the program that declares [pepita], once its bootstrap
    frame has run its two instructions. *)
Lemma well_known_instances_witness :
  let w0 := worldOf Example.uuid (buildEvaluationFor Example.program) in
  let w2 := outcomeWorld (step Example.natives (outcomeWorld (step Example.natives w0))) in
  (exists o, instances (evaluation w2) !! NULL_ID = Some o /\ module o = "wollok.lang.Object")
  /\ (exists o, instances (evaluation w2) !! TRUE_ID = Some o
                /\ module o = "wollok.lang.Boolean")
  /\ (exists o, instances (evaluation w2) !! FALSE_ID = Some o
                /\ module o = "wollok.lang.Boolean")
  /\ (is_Some (instances (evaluation w2) !! VOID_ID)
      <-> exists s, s ∈ globalSingletons Example.program /\ singleton_id s = VOID_ID).
Proof.
  intros w0 w2.
  apply (well_known_instances Example.program Example.natives Example.uuid w2).
  - intros s Hs. apply list_elem_of_singleton in Hs as ->. repeat split; discriminate.
  - exact example_uuid_fresh.
  - apply (steps_step _ _ (outcomeWorld (step Example.natives w0))).
    + apply (steps_step _ _ w0); [apply steps_refl | vm_compute; reflexivity].
    + vm_compute. reflexivity.
Defined.

(** C2, the claim as stated fails for [void]: the evaluation built for the
    program that declares [pepita] has instances under [null], [true],
    [false] and the id of [pepita], and none under [void], before and after
    its bootstrap frame has run. *)
Lemma void_instance_counterexample :
  let e := buildEvaluationFor Example.program in
  let w0 := worldOf Example.uuid e in
  let w2 := outcomeWorld (step Example.natives (outcomeWorld (step Example.natives w0))) in
  dom (instances e) = {[NULL_ID; TRUE_ID; FALSE_ID; "pepita-id"]}
  /\ instances e !! VOID_ID = None
  /\ steps Example.natives w0 w2
  /\ instances (evaluation w2) !! VOID_ID = None.
Proof.
  intros e w0 w2. split; [|split; [reflexivity|split; [|reflexivity]]].
  - vm_compute. reflexivity.
  - apply (steps_step _ _ (outcomeWorld (step Example.natives w0))).
    + apply (steps_step _ _ w0); [apply steps_refl | vm_compute; reflexivity].
    + vm_compute. reflexivity.
Qed.

(** * The evaluation held by reference, and its clone *)

(** ** Evaluations laid out in a store *)

Lemma repFrame_preserved s s' l f :
  repFrame s l f ->
  (forall x, frameCells s !! at_frame l = Some x -> frameCells s' !! at_frame l = Some x) ->
  (forall x, dictionaries s !! at_locals l = Some x -> dictionaries s' !! at_locals l = Some x) ->
  (forall x, operandStacks s !! at_operandStack l = Some x ->
             operandStacks s' !! at_operandStack l = Some x) ->
  (forall x, resumes s !! at_resume l = Some x -> resumes s' !! at_resume l = Some x) ->
  repFrame s' l f.
Proof. intros (H1 & H2 & H3 & H4) ? ? ? ?. repeat split; auto. Qed.

Lemma repObject_preserved s s' l o :
  repObject s l o ->
  (forall x, objectCells s !! at_object l = Some x -> objectCells s' !! at_object l = Some x) ->
  (forall x, dictionaries s !! at_fields l = Some x -> dictionaries s' !! at_fields l = Some x) ->
  (forall a x, payloads s !! a = Some x -> payloads s' !! a = Some x) ->
  repObject s' l o.
Proof.
  intros (H1 & H2 & H3) ? ? Hp. split; [auto|]. split; [auto|].
  destruct H3; constructor; auto.
Qed.

Lemma elem_of_map_lookup {A B : Type} (f : A -> B) (l : list A) i x :
  l !! i = Some x -> f x ∈ map f l.
Proof.
  intros H. apply list_elem_of_In, in_map, list_elem_of_In.
  by eapply list_elem_of_lookup_2.
Qed.

Lemma rep_preserved s s' e L E :
  rep s e L E -> preserved s s' e L -> rep s' e L E.
Proof.
  intros (Henv & Hfs & Hframes & Htable & Hobjects) (P1 & P2 & P3 & P4 & P5 & P6 & P7 & P8).
  split; [exact Henv|]. split; [auto|]. split; [|split; [auto|]].
  - apply Forall2_same_length_lookup. apply Forall2_same_length_lookup in Hframes as [Hlen Hl].
    split; [exact Hlen|]. intros i l f Hi Hf.
    apply (repFrame_preserved s); [by apply (Hl i) | | | |]; intros x.
    + apply P3. by apply (elem_of_map_lookup _ _ i).
    + apply P7. left. by apply (elem_of_map_lookup _ _ i).
    + apply P4. by apply (elem_of_map_lookup _ _ i).
    + apply P5. by apply (elem_of_map_lookup _ _ i).
  - intros i. specialize (Hobjects i).
    destruct (layout_objects L !! i) as [l|] eqn:Hl;
      destruct (instances E !! i) as [o|] eqn:Ho;
      inversion Hobjects; subst; constructor.
    apply (repObject_preserved s); [assumption | | | exact P8]; intros x.
    + apply P6. by exists i, l.
    + apply P7. right. by exists i, l.
Qed.

Lemma preserved_refl s e L : preserved s s e L.
Proof. repeat split; auto. Qed.

(** What [rep] says of the accesses. *)
Lemma rep_frame s e L E d f :
  rep s e L E -> frameStack E !! d = Some f ->
  exists l, layout_frames L !! d = Some l /\ repFrame s l f
            /\ frameAt s e d
               = Some (at_frame l,
                       {| cell_instructions := instructions f;
                          cell_nextInstruction := nextInstruction f;
                          cell_locals := at_locals l; cell_operandStack := at_operandStack l;
                          cell_resume := at_resume l |}).
Proof.
  intros (_ & Hfs & Hframes & _) Hf.
  destruct (Forall2_lookup_r _ _ _ _ _ Hframes Hf) as (l & Hl & Hrep).
  exists l. split; [exact Hl|]. split; [exact Hrep|].
  unfold frameAt. rewrite Hfs. simpl.
  rewrite list_lookup_fmap, Hl. simpl. destruct Hrep as (-> & _). reflexivity.
Qed.

Lemma rep_no_frame s e L E d :
  rep s e L E -> frameStack E !! d = None -> frameAt s e d = None.
Proof.
  intros (_ & Hfs & Hframes & _) Hf. unfold frameAt. rewrite Hfs. simpl.
  rewrite list_lookup_fmap.
  destruct (layout_frames L !! d) as [l|] eqn:Hl; [|reflexivity].
  destruct (Forall2_lookup_l _ _ _ _ _ Hframes Hl) as (f & Hf' & _). congruence.
Qed.

Lemma rep_object s e L E i o :
  rep s e L E -> instances E !! i = Some o ->
  exists l, layout_objects L !! i = Some l /\ repObject s l o
            /\ objectAt s e i
               = Some (at_object l,
                       {| cell_id := id o; cell_module := module o;
                          cell_fields := at_fields l; cell_innerValue := at_payload l |}).
Proof.
  intros (_ & _ & _ & Htable & Hobjects) Ho. specialize (Hobjects i).
  rewrite Ho in Hobjects. inversion Hobjects as [l o' Hrep Hl|]; subst.
  exists l. split; [done|]. split; [exact Hrep|].
  unfold objectAt. rewrite Htable. simpl. rewrite lookup_fmap, <- Hl. simpl.
  destruct Hrep as (-> & _). reflexivity.
Qed.

Lemma rep_no_object s e L E i :
  rep s e L E -> instances E !! i = None -> objectAt s e i = None.
Proof.
  intros (_ & _ & _ & Htable & Hobjects) Ho. specialize (Hobjects i).
  rewrite Ho in Hobjects. inversion Hobjects as [|Hl]; subst.
  unfold objectAt. rewrite Htable. simpl. rewrite lookup_fmap, <- Hl. reflexivity.
Qed.

Lemma repFrame_view s l f : repFrame s l f -> viewFrame s (at_frame l) = Some f.
Proof.
  intros (H1 & H2 & H3 & H4). unfold viewFrame, viewFrameCell. rewrite H1. simpl.
  rewrite H2, H3, H4. simpl. by destruct f.
Qed.

Lemma repObject_view s l o : repObject s l o -> viewObject s (at_object l) = Some o.
Proof.
  intros (H1 & H2 & H3). unfold viewObject. rewrite H1. simpl. rewrite H2. simpl.
  destruct o as [i m f v]. simpl in *. do 2 f_equal.
  destruct H3 as [a x Hx|]; simpl; [exact Hx | reflexivity].
Qed.

Lemma rep_framesOf s e L E : rep s e L E -> framesOf s e = Some (frameStack E).
Proof.
  intros (_ & Hfs & Hframes & _). unfold framesOf. rewrite Hfs. simpl.
  apply mapM_Some. clear Hfs.
  induction Hframes as [|l f ls fs Hrep _ IH]; simpl; constructor.
  - by apply repFrame_view.
  - exact IH.
Qed.

Lemma rep_instance s e L E i :
  rep s e L E ->
  (at_object <$> layout_objects L) !! i ≫= viewObject s = instances E !! i.
Proof.
  intros (_ & _ & _ & _ & Hobjects). specialize (Hobjects i). rewrite lookup_fmap.
  inversion Hobjects as [l o Hrep|]; subst; simpl; [|reflexivity].
  by apply repObject_view.
Qed.

Lemma rep_heapOf s e L E : rep s e L E -> heapOf s e = instances E.
Proof.
  intros Hrep. pose proof Hrep as (_ & _ & _ & Htable & _).
  unfold heapOf. rewrite Htable. apply map_eq. intros i.
  rewrite lookup_omap. by apply (rep_instance _ e).
Qed.

(** ** Writes into the objects of one evaluation *)

Lemma NoDup_map_lookup_ne {A B : Type} (f : A -> B) (l : list A) i j x y :
  NoDup (map f l) -> i <> j -> l !! i = Some x -> l !! j = Some y -> f x <> f y.
Proof.
  intros Hnd Hij Hi Hj Heq. apply Hij.
  apply (NoDup_lookup (map f l) i j (f x)); [exact Hnd | |].
  - change (map f l) with (f <$> l). by rewrite list_lookup_fmap, Hi.
  - change (map f l) with (f <$> l). by rewrite list_lookup_fmap, Hj, Heq.
Qed.

Lemma Forall2_alter_r_strong {A B : Type} (R R' : A -> B -> Prop) l k d (g : B -> B) :
  Forall2 R l k ->
  (forall x y, l !! d = Some x -> k !! d = Some y -> R x y -> R' x (g y)) ->
  (forall d' x y, d' <> d -> l !! d' = Some x -> k !! d' = Some y -> R x y -> R' x y) ->
  Forall2 R' l (alter g d k).
Proof.
  intros H Hd Hother. apply Forall2_same_length_lookup.
  apply Forall2_same_length_lookup in H as [Hlen H].
  split; [by rewrite length_alter|]. intros i x y Hx Hy.
  destruct (decide (i = d)) as [->|Hne].
  - rewrite list_lookup_alter_eq in Hy.
    destruct (k !! d) as [y'|] eqn:Hk; [|discriminate]. injection Hy as <-.
    apply Hd; [done | done | by apply (H d)].
  - rewrite list_lookup_alter_ne in Hy by done. apply (Hother i); [done | done | done | by apply (H i)].
Qed.

(** A write into the objects of the frame at depth [d] of the first
    evaluation. *)
Lemma apart_frameWrite s s' e1 L1 E1 e2 L2 E2 d l f g :
  apart s e1 L1 E1 e2 L2 E2 ->
  layout_frames L1 !! d = Some l ->
  frameStack E1 !! d = Some f ->
  frameWrite s s' l ->
  repFrame s' l (g f) ->
  apart s' e1 L1 (withEvaluationFrames (alter g d (frameStack E1)) E1) e2 L2 E2.
Proof.
  intros (Hrep1 & Hsep1 & Hrep2 & Hsep2 & Hdisj) Hl Hf
    (W1 & W2 & W3 & W4 & W5 & W6 & W7 & W8) Hrep'.
  pose proof Hsep1 as (N1 & N2 & N3 & N4 & _ & Hcross).
  split; [|split; [exact Hsep1|split; [|split; [exact Hsep2 | exact Hdisj]]]].
  - destruct Hrep1 as (Henv & Hfs & Hframes & Htable & Hobjects).
    split; [exact Henv|]. split; [by rewrite W1|]. split; [|split; [by rewrite W2|]].
    + apply (Forall2_alter_r_strong (repFrame s)); [exact Hframes | |].
      * intros x y Hx Hy _. rewrite Hl in Hx. rewrite Hf in Hy.
        injection Hx as <-. injection Hy as <-. exact Hrep'.
      * intros d' x y Hne Hx Hy Hxy.
        apply (repFrame_preserved s); [exact Hxy | | | |]; intros c.
        -- apply W4. by apply (NoDup_map_lookup_ne _ (layout_frames L1) d' d).
        -- apply W5. by apply (NoDup_map_lookup_ne _ (layout_frames L1) d' d).
        -- apply W6. by apply (NoDup_map_lookup_ne _ (layout_frames L1) d' d).
        -- apply W7. by apply (NoDup_map_lookup_ne _ (layout_frames L1) d' d).
    + intros i. specialize (Hobjects i). simpl.
      destruct (layout_objects L1 !! i) as [x|] eqn:Hx;
        destruct (instances E1 !! i) as [o|] eqn:Ho;
        inversion Hobjects; subst; constructor.
      apply (repObject_preserved s); [assumption | | | by rewrite W8]; intros c.
      * by rewrite W3.
      * apply W5. intros Heq. apply (Hcross (at_fields x)); [by exists i, x|].
        rewrite Heq. by apply (elem_of_map_lookup _ _ d).
  - apply (rep_preserved s); [exact Hrep2|].
    destruct Hdisj as (D1 & D2 & D3 & D4 & D5 & D6 & D7).
    split; [by rewrite W1|]. split; [by rewrite W2|].
    split; [|split; [|split; [|split; [|split; [|by rewrite W8]]]]].
    + intros a x Ha. apply W4. intros ->.
      apply (D3 (at_frame l)); [by apply (elem_of_map_lookup _ _ d) | exact Ha].
    + intros a x Ha. apply W6. intros ->.
      apply (D4 (at_operandStack l)); [by apply (elem_of_map_lookup _ _ d) | exact Ha].
    + intros a x Ha. apply W7. intros ->.
      apply (D5 (at_resume l)); [by apply (elem_of_map_lookup _ _ d) | exact Ha].
    + intros a x Ha. by rewrite W3.
    + intros a x Ha. apply W5. intros ->.
      apply (D7 (at_locals l)); [left; by apply (elem_of_map_lookup _ _ d) | exact Ha].
Qed.

(** The instance [i] laid out anew in the objects that it has. *)
Lemma ownsObject_withLayoutObject L i l l' a :
  layout_objects L !! i = Some l -> at_object l' = at_object l ->
  ownsObject (withLayoutObject i l' L) a -> ownsObject L a.
Proof.
  intros Hl Heq (j & x & Hx & <-). simpl in Hx.
  apply lookup_insert_Some in Hx as [(<- & <-)|(Hne & Hx)]; [by exists i, l | by exists j, x].
Qed.

Lemma ownsFields_withLayoutObject L i l l' a :
  layout_objects L !! i = Some l -> at_fields l' = at_fields l ->
  ownsFields (withLayoutObject i l' L) a -> ownsFields L a.
Proof.
  intros Hl Heq (j & x & Hx & <-). simpl in Hx.
  apply lookup_insert_Some in Hx as [(<- & <-)|(Hne & Hx)]; [by exists i, l | by exists j, x].
Qed.

Lemma separate_withLayoutObject L i l l' :
  layout_objects L !! i = Some l ->
  at_object l' = at_object l -> at_fields l' = at_fields l ->
  separate L -> separate (withLayoutObject i l' L).
Proof.
  intros Hl Ho Hf (N1 & N2 & N3 & N4 & Hinj & Hcross).
  split; [exact N1|]. split; [exact N2|]. split; [exact N3|]. split; [exact N4|]. split.
  - simpl. intros j k x y Hx Hy Heq.
    apply lookup_insert_Some in Hx as [(Hji & Hxl)|(Hj & Hx)];
      apply lookup_insert_Some in Hy as [(Hki & Hyl)|(Hk & Hy)].
    + congruence.
    + subst x. rewrite Ho, Hf in Heq. rewrite <- Hji. by apply (Hinj i k l y).
    + subst y. rewrite Ho, Hf in Heq. rewrite <- Hki. by apply (Hinj j i x l).
    + by apply (Hinj j k x y).
  - intros a Ha. apply Hcross. by apply (ownsFields_withLayoutObject L i l l').
Qed.

Lemma disjoint_withLayoutObject e1 L1 e2 L2 i l l' :
  layout_objects L1 !! i = Some l ->
  at_object l' = at_object l -> at_fields l' = at_fields l ->
  disjoint e1 L1 e2 L2 -> disjoint e1 (withLayoutObject i l' L1) e2 L2.
Proof.
  intros Hl Ho Hf (D1 & D2 & D3 & D4 & D5 & D6 & D7).
  split; [exact D1|]. split; [exact D2|]. split; [exact D3|]. split; [exact D4|].
  split; [exact D5|]. split.
  - intros a Ha. apply D6. by apply (ownsObject_withLayoutObject L1 i l l').
  - intros a [Ha|Ha]; apply D7; [by left | right].
    by apply (ownsFields_withLayoutObject L1 i l l').
Qed.

(** A write into the objects of the instance [i] of the first evaluation. *)
Lemma apart_objectWrite s s' e1 L1 E1 e2 L2 E2 i l l' o o' :
  apart s e1 L1 E1 e2 L2 E2 ->
  layout_objects L1 !! i = Some l ->
  instances E1 !! i = Some o ->
  at_object l' = at_object l -> at_fields l' = at_fields l ->
  objectWrite s s' l ->
  repObject s' l' o' ->
  apart s' e1 (withLayoutObject i l' L1)
    (withEvaluationInstances (<[i := o']> (instances E1)) E1) e2 L2 E2.
Proof.
  intros (Hrep1 & Hsep1 & Hrep2 & Hsep2 & Hdisj) Hl Ho Hobj Hfld
    (W1 & W2 & W3 & W4 & W5 & W6 & W7 & W8) Hrep'.
  pose proof Hsep1 as (_ & _ & _ & _ & Hinj & Hcross).
  split; [|split; [by apply (separate_withLayoutObject L1 i l l')|
           split; [|split; [exact Hsep2 | by apply (disjoint_withLayoutObject e1 L1 e2 L2 i l l')]]]].
  - destruct Hrep1 as (Henv & Hfs & Hframes & Htable & Hobjects).
    split; [exact Henv|]. split; [by rewrite W1|]. split; [|split].
    + apply Forall2_same_length_lookup.
      apply Forall2_same_length_lookup in Hframes as [Hlen Hframes].
      split; [exact Hlen|]. intros d x y Hx Hy.
      apply (repFrame_preserved s); [by apply (Hframes d) | | | |]; intros c.
      * by rewrite W3.
      * apply W7. intros Heq. apply (Hcross (at_fields l)); [by exists i, l|].
        rewrite <- Heq. by apply (elem_of_map_lookup _ _ d).
      * by rewrite W4.
      * by rewrite W5.
    + rewrite W2, Htable. simpl. rewrite fmap_insert, Hobj. f_equal. symmetry.
      apply insert_id. by rewrite lookup_fmap, Hl.
    + intros j. simpl. destruct (decide (j = i)) as [->|Hne].
      * rewrite !lookup_insert_eq. by constructor.
      * rewrite !lookup_insert_ne by done. specialize (Hobjects j).
        destruct (layout_objects L1 !! j) as [x|] eqn:Hx;
          destruct (instances E1 !! j) as [y|] eqn:Hy;
          inversion Hobjects; subst; constructor.
        apply (repObject_preserved s); [assumption | | | exact W8]; intros c.
        -- apply W6. intros Heq. apply Hne. apply (Hinj j i x l); auto.
        -- apply W7. intros Heq. apply Hne. apply (Hinj j i x l); auto.
  - apply (rep_preserved s); [exact Hrep2|].
    destruct Hdisj as (D1 & D2 & D3 & D4 & D5 & D6 & D7).
    split; [by rewrite W1|]. split; [by rewrite W2|].
    split; [|split; [|split; [|split; [|split; [|exact W8]]]]].
    + intros a x Ha. by rewrite W3.
    + intros a x Ha. by rewrite W4.
    + intros a x Ha. by rewrite W5.
    + intros a x Ha. apply W6. intros ->.
      apply (D6 (at_object l)); [by exists i, l | exact Ha].
    + intros a x Ha. apply W7. intros ->.
      apply (D7 (at_fields l)); [right; by exists i, l | exact Ha].
Qed.

(** ** The accesses, one by one *)

Lemma frameWrite_cell s l c :
  frameWrite s (withFrameCells (<[at_frame l := c]> (frameCells s)) s) l.
Proof.
  repeat split; auto. intros a x Hne Ha. simpl. by rewrite list_lookup_insert_ne.
Qed.

Lemma frameWrite_locals s l x :
  frameWrite s (withDictionaries (<[at_locals l := x]> (dictionaries s)) s) l.
Proof.
  repeat split; auto. intros a y Hne Ha. simpl. by rewrite list_lookup_insert_ne.
Qed.

Lemma frameWrite_operandStack s l x :
  frameWrite s (withOperandStacks (<[at_operandStack l := x]> (operandStacks s)) s) l.
Proof.
  repeat split; auto. intros a y Hne Ha. simpl. by rewrite list_lookup_insert_ne.
Qed.

Lemma frameWrite_resume s l x :
  frameWrite s (withResumes (<[at_resume l := x]> (resumes s)) s) l.
Proof.
  repeat split; auto. intros a y Hne Ha. simpl. by rewrite list_lookup_insert_ne.
Qed.

Lemma objectWrite_fields s l x :
  objectWrite s (withDictionaries (<[at_fields l := x]> (dictionaries s)) s) l.
Proof.
  repeat split; auto. intros a y Hne Ha. simpl. by rewrite list_lookup_insert_ne.
Qed.

Lemma lookup_app_Some_l {A : Type} (l k : list A) a x :
  l !! a = Some x -> (l ++ k) !! a = Some x.
Proof. intros H. by apply lookup_app_l_Some. Qed.

Lemma lookup_app_end {A : Type} (l : list A) x : (l ++ [x]) !! length l = Some x.
Proof. by rewrite list_lookup_middle. Qed.

Lemma lookup_insert_here {A : Type} (l : list A) i x y :
  l !! i = Some x -> <[i := y]> l !! i = Some y.
Proof. intros H. apply list_lookup_insert_eq. by eapply lookup_lt_Some. Qed.

(** The accesses that write into a frame. *)
Lemma simulates_frame s h e1 e2 L1 L2 E1 E2 d f l s' g :
  apart s e1 L1 E1 e2 L2 E2 ->
  layout_frames L1 !! d = Some l ->
  frameStack E1 !! d = Some f ->
  frameWrite s s' l ->
  repFrame s' l (g f) ->
  related e1 e2 L2 E2
    (withFrameStack (alter g d (frameStack E1)) (hostWorld E1 h)) (s', h).
Proof.
  intros Hap Hl Hf Hw Hrep.
  exists L1, (withEvaluationFrames (alter g d (frameStack E1)) E1). split; [reflexivity|].
  by apply (apart_frameWrite s s' e1 L1 E1 e2 L2 E2 d l f g).
Qed.

Lemma simulates_object s h e1 e2 L1 L2 E1 E2 i o l l' s' o' :
  apart s e1 L1 E1 e2 L2 E2 ->
  layout_objects L1 !! i = Some l ->
  instances E1 !! i = Some o ->
  at_object l' = at_object l -> at_fields l' = at_fields l ->
  objectWrite s s' l ->
  repObject s' l' o' ->
  related e1 e2 L2 E2
    (withInstances (<[i := o']> (instances E1)) (hostWorld E1 h)) (s', h).
Proof.
  intros Hap Hl Ho Hobj Hfld Hw Hrep.
  exists (withLayoutObject i l' L1),
    (withEvaluationInstances (<[i := o']> (instances E1)) E1).
  split; [reflexivity|].
  by apply (apart_objectWrite s s' e1 L1 E1 e2 L2 E2 i l l' o o').
Qed.

Section Writes.
Context (e1 e2 : EvaluationRef) (L2 : Layout) (E2 : Evaluation).
Context (s : Store) (h : Host) (L1 : Layout) (E1 : Evaluation).
Hypothesis Hap : apart s e1 L1 E1 e2 L2 E2.

Lemma apart_rep : rep s e1 L1 E1.
Proof. exact (proj1 Hap). Qed.

Lemma related_here : related e1 e2 L2 E2 (hostWorld E1 h) (s, h).
Proof. by exists L1, E1. Qed.

Lemma access_Frames :
  simulates (related e1 e2 L2 E2) (handle Frames (hostWorld E1 h)) (answer (s, h) (access e1 Frames (s, h))).
Proof.
  simpl. rewrite (rep_framesOf s e1 L1 E1 apart_rep). simpl. split; [reflexivity | apply related_here].
Qed.

Lemma access_Instance i :
  simulates (related e1 e2 L2 E2) (handle (Instance i) (hostWorld E1 h))
    (answer (s, h) (access e1 (Instance i) (s, h))).
Proof.
  simpl. pose proof apart_rep as (_ & _ & _ & Htable & _). rewrite Htable. simpl.
  split; [|apply related_here].
  by rewrite (rep_instance s e1 L1 E1 i apart_rep).
Qed.

Lemma access_SetNextInstruction d n :
  simulates (related e1 e2 L2 E2) (handle (SetNextInstruction d n) (hostWorld E1 h))
    (answer (s, h) (access e1 (SetNextInstruction d n) (s, h))).
Proof.
  simpl. unfold onFrame. simpl.
  destruct (frameStack E1 !! d) as [f|] eqn:Hf.
  - destruct (rep_frame s e1 L1 E1 d f apart_rep Hf) as (l & Hl & Hrf & ->). simpl.
    split; [reflexivity|].
    apply (simulates_frame s h e1 e2 L1 L2 E1 E2 d f l); auto using frameWrite_cell.
    destruct Hrf as (R1 & R2 & R3 & R4). repeat split; simpl; auto.
    by apply (lookup_insert_here _ _ _ _ R1).
  - rewrite (rep_no_frame s e1 L1 E1 d apart_rep Hf). simpl. split; [reflexivity | apply related_here].
Qed.

Lemma access_SetLocal d name v :
  simulates (related e1 e2 L2 E2) (handle (SetLocal d name v) (hostWorld E1 h))
    (answer (s, h) (access e1 (SetLocal d name v) (s, h))).
Proof.
  simpl. unfold onFrame. simpl.
  destruct (frameStack E1 !! d) as [f|] eqn:Hf.
  - destruct (rep_frame s e1 L1 E1 d f apart_rep Hf) as (l & Hl & Hrf & ->). simpl.
    destruct Hrf as (R1 & R2 & R3 & R4). rewrite R2. simpl.
    split; [reflexivity|].
    apply (simulates_frame s h e1 e2 L1 L2 E1 E2 d f l
             _ (fun f => setLocals (setProperty name v (locals f)) f));
      auto using frameWrite_locals.
    repeat split; simpl; auto. by apply (lookup_insert_here _ _ _ _ R2).
  - rewrite (rep_no_frame s e1 L1 E1 d apart_rep Hf). simpl. split; [reflexivity | apply related_here].
Qed.

Lemma access_OperandPop d :
  simulates (related e1 e2 L2 E2) (handle (OperandPop d) (hostWorld E1 h))
    (answer (s, h) (access e1 (OperandPop d) (s, h))).
Proof.
  simpl.
  destruct (frameStack E1 !! d) as [f|] eqn:Hf.
  - destruct (rep_frame s e1 L1 E1 d f apart_rep Hf) as (l & Hl & Hrf & ->). simpl.
    destruct Hrf as (R1 & R2 & R3 & R4). rewrite R3. simpl.
    destruct (operandStack f) as [|v rest] eqn:Hstack; simpl.
    + split; [reflexivity | apply related_here].
    + split; [reflexivity|].
      apply (simulates_frame s h e1 e2 L1 L2 E1 E2 d f l
               _ (setOperandStack rest)); auto using frameWrite_operandStack.
      repeat split; simpl; auto. by apply (lookup_insert_here _ _ _ _ R3).
  - rewrite (rep_no_frame s e1 L1 E1 d apart_rep Hf). simpl. split; [reflexivity | apply related_here].
Qed.

Lemma access_OperandPush d v :
  simulates (related e1 e2 L2 E2) (handle (OperandPush d v) (hostWorld E1 h))
    (answer (s, h) (access e1 (OperandPush d v) (s, h))).
Proof.
  simpl. unfold onFrame. simpl.
  destruct (frameStack E1 !! d) as [f|] eqn:Hf.
  - destruct (rep_frame s e1 L1 E1 d f apart_rep Hf) as (l & Hl & Hrf & ->). simpl.
    destruct Hrf as (R1 & R2 & R3 & R4). rewrite R3. simpl.
    split; [reflexivity|].
    apply (simulates_frame s h e1 e2 L1 L2 E1 E2 d f l
             _ (fun f => setOperandStack (v :: operandStack f) f));
      auto using frameWrite_operandStack.
    repeat split; simpl; auto. by apply (lookup_insert_here _ _ _ _ R3).
  - rewrite (rep_no_frame s e1 L1 E1 d apart_rep Hf). simpl. split; [reflexivity | apply related_here].
Qed.

Lemma access_ResumePush d k :
  simulates (related e1 e2 L2 E2) (handle (ResumePush d k) (hostWorld E1 h))
    (answer (s, h) (access e1 (ResumePush d k) (s, h))).
Proof.
  simpl. unfold onFrame. simpl.
  destruct (frameStack E1 !! d) as [f|] eqn:Hf.
  - destruct (rep_frame s e1 L1 E1 d f apart_rep Hf) as (l & Hl & Hrf & ->). simpl.
    destruct Hrf as (R1 & R2 & R3 & R4). rewrite R4. simpl.
    split; [reflexivity|].
    apply (simulates_frame s h e1 e2 L1 L2 E1 E2 d f l
             _ (fun f => setResume (resume f ++ [k]) f)); auto using frameWrite_resume.
    repeat split; simpl; auto. by apply (lookup_insert_here _ _ _ _ R4).
  - rewrite (rep_no_frame s e1 L1 E1 d apart_rep Hf). simpl. split; [reflexivity | apply related_here].
Qed.

Lemma access_SetField i name v :
  simulates (related e1 e2 L2 E2) (handle (SetField i name v) (hostWorld E1 h))
    (answer (s, h) (access e1 (SetField i name v) (s, h))).
Proof.
  simpl. unfold onInstance. simpl.
  destruct (instances E1 !! i) as [o|] eqn:Ho.
  - destruct (rep_object s e1 L1 E1 i o apart_rep Ho) as (l & Hl & Hro & ->). simpl.
    destruct Hro as (R1 & R2 & R3). rewrite R2. simpl.
    split; [reflexivity|].
    apply (simulates_object s h e1 e2 L1 L2 E1 E2 i o l l); auto using objectWrite_fields.
    split; [|split]; simpl; auto. by apply (lookup_insert_here _ _ _ _ R2).
  - rewrite (rep_no_object s e1 L1 E1 i apart_rep Ho). simpl. split; [reflexivity | apply related_here].
Qed.

Lemma access_SetInnerValue i v :
  simulates (related e1 e2 L2 E2) (handle (SetInnerValue i v) (hostWorld E1 h))
    (answer (s, h) (access e1 (SetInnerValue i v) (s, h))).
Proof.
  simpl. unfold onInstance. simpl.
  destruct (instances E1 !! i) as [o|] eqn:Ho.
  - destruct (rep_object s e1 L1 E1 i o apart_rep Ho) as (l & Hl & Hro & ->). simpl.
    destruct Hro as (R1 & R2 & R3).
    split; [reflexivity|].
    apply (simulates_object s h e1 e2 L1 L2 E1 E2 i o l
             {| at_object := at_object l; at_fields := at_fields l;
                at_payload := payloadRef v s |});
      [exact Hap | exact Hl | exact Ho | reflexivity | reflexivity | |].
    + repeat split; simpl; auto using lookup_app_Some_l.
      intros a x Hne Ha. by rewrite list_lookup_insert_ne.
    + split; [|split]; simpl.
      * by apply (lookup_insert_here _ _ _ _ R1).
      * exact R2.
      * destruct v as [v|]; constructor. simpl. apply lookup_app_end.
  - rewrite (rep_no_object s e1 L1 E1 i apart_rep Ho). simpl. split; [reflexivity | apply related_here].
Qed.

Lemma access_Uuid :
  simulates (related e1 e2 L2 E2) (handle Uuid (hostWorld E1 h))
    (answer (s, h) (access e1 Uuid (s, h))).
Proof. simpl. split; [reflexivity|]. by exists L1, E1. Qed.

Lemma access_Interrupting k v :
  simulates (related e1 e2 L2 E2) (handle (Interrupting k v) (hostWorld E1 h))
    (answer (s, h) (access e1 (Interrupting k v) (s, h))).
Proof. simpl. split; [reflexivity|]. by exists L1, E1. Qed.

End Writes.

(** ** Accesses that allocate *)

Lemma elem_of_map_inv {A B : Type} (f : A -> B) (l : list A) b :
  b ∈ map f l -> exists i x, l !! i = Some x /\ f x = b.
Proof.
  intros H. change (map f l) with (f <$> l) in H.
  apply list_elem_of_fmap in H as (x & -> & Hx).
  apply list_elem_of_lookup in Hx as (i & Hi). by exists i, x.
Qed.

Lemma rep_bounded s e L E : rep s e L E -> bounded s L.
Proof.
  intros (_ & _ & Hframes & _ & Hobjects).
  assert (Hf : forall i l, layout_frames L !! i = Some l -> exists f, repFrame s l f).
  { intros i l Hl. destruct (Forall2_lookup_l _ _ _ _ _ Hframes Hl) as (f & _ & H). by exists f. }
  assert (Ho : forall i l, layout_objects L !! i = Some l -> exists o, repObject s l o).
  { intros i l Hl. specialize (Hobjects i). rewrite Hl in Hobjects.
    inversion Hobjects; subst. eauto. }
  split; [|split; [|split; [|split]]].
  - intros a (i & l & Hl & <-)%elem_of_map_inv.
    destruct (Hf i l Hl) as (f & H & _). by eapply lookup_lt_Some.
  - intros a (i & l & Hl & <-)%elem_of_map_inv.
    destruct (Hf i l Hl) as (f & _ & _ & H & _). by eapply lookup_lt_Some.
  - intros a (i & l & Hl & <-)%elem_of_map_inv.
    destruct (Hf i l Hl) as (f & _ & _ & _ & H). by eapply lookup_lt_Some.
  - intros a (i & l & Hl & <-).
    destruct (Ho i l Hl) as (o & H & _). by eapply lookup_lt_Some.
  - intros a [(i & l & Hl & <-)%elem_of_map_inv | (i & l & Hl & <-)].
    + destruct (Hf i l Hl) as (f & _ & H & _). by eapply lookup_lt_Some.
    + destruct (Ho i l Hl) as (o & _ & H & _). by eapply lookup_lt_Some.
Qed.

Lemma grown_preserved s s' e L :
  grown s s' ->
  (forall x, frameStacks s !! ref_frameStack e = Some x ->
             frameStacks s' !! ref_frameStack e = Some x) ->
  (forall x, instanceTables s !! ref_instances e = Some x ->
             instanceTables s' !! ref_instances e = Some x) ->
  preserved s s' e L.
Proof.
  intros (G1 & G2 & G3 & G4 & G5 & G6) H1 H2. repeat split; auto.
Qed.

Lemma grown_repFrame s s' l f : grown s s' -> repFrame s l f -> repFrame s' l f.
Proof.
  intros (G1 & G2 & G3 & G4 & G5 & G6) H. apply (repFrame_preserved s); auto.
Qed.

Lemma grown_repObject s s' l o : grown s s' -> repObject s l o -> repObject s' l o.
Proof.
  intros (G1 & G2 & G3 & G4 & G5 & G6) H. apply (repObject_preserved s); auto.
Qed.

(** Ownership after a change of layout. *)
Lemma disjoint_subset e1 L1 L1' e2 L2 s :
  disjoint e1 L1 e2 L2 ->
  bounded s L2 ->
  (forall a, ownsFrame L1' a -> ownsFrame L1 a \/ length (frameCells s) <= a) ->
  (forall a, ownsOperandStack L1' a -> ownsOperandStack L1 a \/ length (operandStacks s) <= a) ->
  (forall a, ownsResume L1' a -> ownsResume L1 a \/ length (resumes s) <= a) ->
  (forall a, ownsObject L1' a -> ownsObject L1 a \/ length (objectCells s) <= a) ->
  (forall a, ownsDictionary L1' a -> ownsDictionary L1 a \/ length (dictionaries s) <= a) ->
  disjoint e1 L1' e2 L2.
Proof.
  intros (D1 & D2 & D3 & D4 & D5 & D6 & D7) (B1 & B2 & B3 & B4 & B5) H1 H2 H3 H4 H5.
  split; [exact D1|]. split; [exact D2|].
  split; [|split; [|split; [|split]]]; intros a Ha Ha'.
  - destruct (H1 a Ha) as [H|H]; [by apply (D3 a) | specialize (B1 a Ha'); lia].
  - destruct (H2 a Ha) as [H|H]; [by apply (D4 a) | specialize (B2 a Ha'); lia].
  - destruct (H3 a Ha) as [H|H]; [by apply (D5 a) | specialize (B3 a Ha'); lia].
  - destruct (H4 a Ha) as [H|H]; [by apply (D6 a) | specialize (B4 a Ha'); lia].
  - destruct (H5 a Ha) as [H|H]; [by apply (D7 a) | specialize (B5 a Ha'); lia].
Qed.

Ltac grows := repeat split; intros; simpl; auto using lookup_app_Some_l.

Lemma Forall2_grown_frames s s' ls fs :
  grown s s' -> Forall2 (repFrame s) ls fs -> Forall2 (repFrame s') ls fs.
Proof. intros G H. eapply Forall2_impl; [exact H|]. intros l f. by apply grown_repFrame. Qed.

Lemma grown_objects s s' (L : Layout) (E : Evaluation) :
  grown s s' ->
  (forall i, option_Forall2 (repObject s) (layout_objects L !! i) (instances E !! i)) ->
  forall i, option_Forall2 (repObject s') (layout_objects L !! i) (instances E !! i).
Proof.
  intros G H i. specialize (H i). inversion H; constructor. by apply (grown_repObject s).
Qed.

Section Allocations.
Context (e1 e2 : EvaluationRef) (L2 : Layout) (E2 : Evaluation).
Context (s : Store) (h : Host) (L1 : Layout) (E1 : Evaluation).
Hypothesis Hap : apart s e1 L1 E1 e2 L2 E2.

Lemma access_FramePush f :
  simulates (related e1 e2 L2 E2) (handle (FramePush f) (hostWorld E1 h))
    (answer (s, h) (access e1 (FramePush f) (s, h))).
Proof.
  destruct Hap as (Hrep1 & Hsep1 & Hrep2 & Hsep2 & Hdisj).
  pose proof (rep_bounded _ _ _ _ Hrep1) as (B1 & B2 & B3 & B4 & B5).
  pose proof (rep_bounded _ _ _ _ Hrep2) as Hb2.
  pose proof Hrep1 as (Henv & Hfs & Hframes & Htable & Hobjects).
  simpl. rewrite Hfs. simpl. split; [reflexivity|].
  set (l := {| at_frame := length (frameCells s); at_locals := length (dictionaries s);
               at_operandStack := length (operandStacks s);
               at_resume := length (resumes s) |}).
  set (s' := withFrameStacks _ _).
  assert (G : grown s s') by grows.
  exists {| layout_frames := l :: layout_frames L1; layout_objects := layout_objects L1 |},
    (withEvaluationFrames (f :: frameStack E1) E1).
  split; [reflexivity|].
  split; [|split; [|split; [|split; [exact Hsep2|]]]].
  - split; [exact Henv|]. split; [|split; [|split; [exact Htable|]]].
    + simpl. by apply (lookup_insert_here _ _ _ _ Hfs).
    + simpl. constructor; [|by apply (Forall2_grown_frames s)].
      repeat split; simpl; apply lookup_app_end.
    + by apply (grown_objects s).
  - destruct Hsep1 as (N1 & N2 & N3 & N4 & Hinj & Hcross).
    split; [|split; [|split; [|split; [|split; [exact Hinj|]]]]]; simpl.
    + apply NoDup_cons. split; [|exact N1]. intros H. specialize (B1 _ H). lia.
    + apply NoDup_cons. split; [|exact N2]. intros H. specialize (B5 _ (or_introl H)). lia.
    + apply NoDup_cons. split; [|exact N3]. intros H. specialize (B2 _ H). lia.
    + apply NoDup_cons. split; [|exact N4]. intros H. specialize (B3 _ H). lia.
    + intros a Ha. rewrite elem_of_cons. intros [->|H].
      * specialize (B5 _ (or_intror Ha)). lia.
      * by apply (Hcross a).
  - apply (rep_preserved s); [exact Hrep2|]. apply grown_preserved; [exact G | |auto].
    intros x Hx. simpl. rewrite list_lookup_insert_ne; [exact Hx|]. apply Hdisj.
  - apply (disjoint_subset e1 L1 _ e2 L2 s Hdisj Hb2); unfold ownsFrame, ownsOperandStack,
      ownsResume, ownsDictionary; simpl; intros a; rewrite ?elem_of_cons.
    + intros [->|H]; [right; lia | by left].
    + intros [->|H]; [right; lia | by left].
    + intros [->|H]; [right; lia | by left].
    + intros H; by left.
    + intros [[->|H]|H]; [right; lia | left; by left | left; by right].
Qed.

Lemma access_FramePop :
  simulates (related e1 e2 L2 E2) (handle FramePop (hostWorld E1 h))
    (answer (s, h) (access e1 FramePop (s, h))).
Proof.
  destruct Hap as (Hrep1 & Hsep1 & Hrep2 & Hsep2 & Hdisj).
  pose proof (rep_bounded _ _ _ _ Hrep2) as Hb2.
  pose proof Hrep1 as (Henv & Hfs & Hframes & Htable & Hobjects).
  simpl. rewrite Hfs. simpl. split; [reflexivity|].
  set (s' := withFrameStacks _ _).
  assert (G : grown s s') by grows.
  exists {| layout_frames := tail (layout_frames L1); layout_objects := layout_objects L1 |},
    (withEvaluationFrames (tail (frameStack E1)) E1).
  split; [reflexivity|].
  assert (Hsub : forall (g : FrameLayout -> nat) a,
             a ∈ map g (tail (layout_frames L1)) -> a ∈ map g (layout_frames L1)).
  { intros g a. destruct (layout_frames L1); simpl; [done|]. intros H; apply elem_of_cons; by right. }
  assert (Hnd : forall (g : FrameLayout -> nat),
             NoDup (map g (layout_frames L1)) -> NoDup (map g (tail (layout_frames L1)))).
  { intros g. destruct (layout_frames L1); simpl; [done|]. by intros [_ H]%NoDup_cons. }
  split; [|split; [|split; [|split; [exact Hsep2|]]]].
  - split; [exact Henv|]. split; [|split; [|split; [exact Htable|exact Hobjects]]].
    + simpl. rewrite (lookup_insert_here _ _ _ _ Hfs). f_equal.
      by destruct (layout_frames L1).
    + simpl. destruct Hframes; simpl; [constructor | assumption].
  - destruct Hsep1 as (N1 & N2 & N3 & N4 & Hinj & Hcross).
    split; [|split; [|split; [|split; [|split; [exact Hinj|]]]]]; simpl; auto.
    intros a Ha H. apply (Hcross a Ha). by apply Hsub.
  - apply (rep_preserved s); [exact Hrep2|]. apply grown_preserved; [exact G | |auto].
    intros x Hx. simpl. rewrite list_lookup_insert_ne; [exact Hx|]. apply Hdisj.
  - apply (disjoint_subset e1 L1 _ e2 L2 s Hdisj Hb2); unfold ownsFrame, ownsOperandStack,
      ownsResume, ownsDictionary; simpl; intros a.
    + intros H; left; by apply Hsub.
    + intros H; left; by apply Hsub.
    + intros H; left; by apply Hsub.
    + intros H; by left.
    + intros [H|H]; left; [left; by apply Hsub | by right].
Qed.

End Allocations.

Lemma NoDup_insert_fresh {A : Type} (l : list A) i x :
  NoDup l -> x ∉ l -> NoDup (<[i := x]> l).
Proof.
  rewrite !NoDup_alt. intros H Hx j k y Hj Hk.
  apply list_lookup_insert_Some in Hj as [(-> & -> & Hj)|(Hij & Hj)];
    apply list_lookup_insert_Some in Hk as [(Hik & Hxy & Hk)|(Hik & Hk)].
  - exact Hik.
  - exfalso. apply Hx. by eapply list_elem_of_lookup_2.
  - exfalso. apply Hx. rewrite Hxy. by eapply list_elem_of_lookup_2.
  - by apply (H j k y).
Qed.

Lemma elem_of_insert_inv {A : Type} (l : list A) i x y :
  y ∈ <[i := x]> l -> y = x \/ y ∈ l.
Proof.
  intros (j & Hj)%list_elem_of_lookup.
  apply list_lookup_insert_Some in Hj as [(_ & -> & _)|(_ & Hj)]; [by left|].
  right. by eapply list_elem_of_lookup_2.
Qed.

Lemma map_insert_same {A B : Type} (f : A -> B) (l : list A) i x y :
  l !! i = Some x -> f y = f x -> map f (<[i := y]> l) = map f l.
Proof.
  intros Hi Hf. change (f <$> <[i := y]> l = f <$> l).
  rewrite list_fmap_insert, Hf. apply list_insert_id. by rewrite list_lookup_fmap, Hi.
Qed.

Section Resume.
Context (e1 e2 : EvaluationRef) (L2 : Layout) (E2 : Evaluation).
Context (s : Store) (h : Host) (L1 : Layout) (E1 : Evaluation).
Hypothesis Hap : apart s e1 L1 E1 e2 L2 E2.

Lemma access_SetResume d r :
  simulates (related e1 e2 L2 E2) (handle (SetResume d r) (hostWorld E1 h))
    (answer (s, h) (access e1 (SetResume d r) (s, h))).
Proof.
  pose proof Hap as (Hrep1 & Hsep1 & Hrep2 & Hsep2 & Hdisj).
  simpl. unfold onFrame. simpl.
  destruct (frameStack E1 !! d) as [f|] eqn:Hf;
    [|rewrite (rep_no_frame s e1 L1 E1 d Hrep1 Hf); simpl;
      split; [reflexivity | by apply (related_here e1 e2 L2 E2 s h L1 E1)]].
  destruct (rep_frame s e1 L1 E1 d f Hrep1 Hf) as (l & Hl & Hrf & ->). simpl.
  split; [reflexivity|].
  pose proof (rep_bounded _ _ _ _ Hrep1) as (B1 & B2 & B3 & B4 & B5).
  pose proof (rep_bounded _ _ _ _ Hrep2) as Hb2.
  pose proof Hrep1 as (Henv & Hfs & Hframes & Htable & Hobjects).
  destruct Hrf as (R1 & R2 & R3 & R4).
  set (l' := {| at_frame := at_frame l; at_locals := at_locals l;
                at_operandStack := at_operandStack l;
                at_resume := length (resumes s) |}).
  set (s' := withFrameCells _ _).
  exists {| layout_frames := <[d := l']> (layout_frames L1);
            layout_objects := layout_objects L1 |},
    (withEvaluationFrames (alter (setResume r) d (frameStack E1)) E1).
  split; [reflexivity|].
  destruct Hsep1 as (N1 & N2 & N3 & N4 & Hinj & Hcross).
  assert (Hfresh : length (resumes s) ∉ map at_resume (layout_frames L1)).
  { intros H. specialize (B3 _ H). lia. }
  split; [|split; [|split; [|split; [exact Hsep2|]]]].
  - split; [exact Henv|]. split; [|split; [|split; [exact Htable|]]].
    + simpl. rewrite Hfs. f_equal. symmetry. by apply (map_insert_same _ _ _ l).
    + simpl. apply Forall2_same_length_lookup.
      apply Forall2_same_length_lookup in Hframes as [Hlen Hframes].
      split; [by rewrite length_insert, length_alter|]. intros i x y Hx Hy.
      destruct (decide (i = d)) as [->|Hne].
      * rewrite (lookup_insert_here _ _ _ _ Hl) in Hx. injection Hx as <-.
        rewrite list_lookup_alter_eq, Hf in Hy. injection Hy as <-.
        repeat split; simpl; auto.
        -- by apply (lookup_insert_here _ _ _ _ R1).
        -- apply lookup_app_end.
      * rewrite list_lookup_insert_ne in Hx by done.
        rewrite list_lookup_alter_ne in Hy by done.
        destruct (Hframes i x y Hx Hy) as (Q1 & Q2 & Q3 & Q4).
        repeat split; simpl; auto using lookup_app_Some_l.
        rewrite list_lookup_insert_ne; [exact Q1|].
        apply not_eq_sym. by apply (NoDup_map_lookup_ne _ (layout_frames L1) i d).
    + intros i. simpl. specialize (Hobjects i).
      destruct Hobjects as [x o Hxo|]; constructor.
      by apply (repObject_preserved s).
  - split; [|split; [|split; [|split; [|split; [exact Hinj|]]]]]; simpl.
    + by rewrite (map_insert_same _ _ _ l).
    + by rewrite (map_insert_same _ _ _ l).
    + by rewrite (map_insert_same _ _ _ l).
    + change (NoDup (at_resume <$> <[d := l']> (layout_frames L1))).
      rewrite list_fmap_insert. by apply NoDup_insert_fresh.
    + intros a Ha. rewrite (map_insert_same _ _ _ l) by done. by apply Hcross.
  - apply (rep_preserved s); [exact Hrep2|].
    destruct Hdisj as (D1 & D2 & D3 & D4 & D5 & D6 & D7).
    repeat split; simpl; auto using lookup_app_Some_l.
    intros a x Ha Hx. rewrite list_lookup_insert_ne; [exact Hx|]. intros <-.
    apply (D3 (at_frame l)); [by apply (elem_of_map_lookup _ _ d) | exact Ha].
  - apply (disjoint_subset e1 L1 _ e2 L2 s Hdisj Hb2); unfold ownsFrame, ownsOperandStack,
      ownsResume, ownsDictionary; simpl; intros a.
    + rewrite (map_insert_same _ _ _ l) by done. by left.
    + rewrite (map_insert_same _ _ _ l) by done. by left.
    + change (map at_resume (<[d := l']> (layout_frames L1)))
        with (at_resume <$> <[d := l']> (layout_frames L1)).
      rewrite list_fmap_insert. intros [->|H]%elem_of_insert_inv; [right; simpl; lia | by left].
    + by left.
    + rewrite (map_insert_same _ _ _ l) by done. by left.
Qed.

Lemma access_NewInstance module value :
  simulates (related e1 e2 L2 E2) (handle (NewInstance module value) (hostWorld E1 h))
    (answer (s, h) (access e1 (NewInstance module value) (s, h))).
Proof.
  pose proof Hap as (Hrep1 & Hsep1 & Hrep2 & Hsep2 & Hdisj).
  pose proof (rep_bounded _ _ _ _ Hrep1) as (B1 & B2 & B3 & B4 & B5).
  pose proof (rep_bounded _ _ _ _ Hrep2) as Hb2.
  pose proof Hrep1 as (Henv & Hfs & Hframes & Htable & Hobjects).
  simpl. rewrite Htable. simpl. split; [reflexivity|].
  set (i := host_uuid h (host_uuidCalls h)).
  set (l := {| at_object := length (objectCells s); at_fields := length (dictionaries s);
               at_payload := payloadRef value s |}).
  set (s' := withInstanceTables _ _).
  set (o := {| id := i; module := module; fields := ∅; innerValue := value |}).
  assert (G : grown s s') by grows.
  exists {| layout_frames := layout_frames L1; layout_objects := <[i := l]> (layout_objects L1) |},
    (withEvaluationInstances (<[i := o]> (instances E1)) E1).
  split; [reflexivity|].
  destruct Hsep1 as (N1 & N2 & N3 & N4 & Hinj & Hcross).
  assert (Hown : forall a, ownsObject {| layout_frames := layout_frames L1;
                                         layout_objects := <[i := l]> (layout_objects L1) |} a ->
                           ownsObject L1 a \/ length (objectCells s) <= a).
  { intros a (j & x & Hx & <-). simpl in Hx.
    apply lookup_insert_Some in Hx as [(_ & <-)|(_ & Hx)]; [right; simpl; lia|].
    left. by exists j, x. }
  assert (Hown' : forall a, ownsFields {| layout_frames := layout_frames L1;
                                          layout_objects := <[i := l]> (layout_objects L1) |} a ->
                            ownsFields L1 a \/ length (dictionaries s) <= a).
  { intros a (j & x & Hx & <-). simpl in Hx.
    apply lookup_insert_Some in Hx as [(_ & <-)|(_ & Hx)]; [right; simpl; lia|].
    left. by exists j, x. }
  split; [|split; [|split; [|split; [exact Hsep2|]]]].
  - split; [exact Henv|]. split; [|split; [|split]].
    + exact Hfs.
    + by apply (Forall2_grown_frames s).
    + simpl. rewrite (lookup_insert_here _ _ _ _ Htable). by rewrite fmap_insert.
    + intros j. simpl. destruct (decide (j = i)) as [->|Hne].
      * rewrite !lookup_insert_eq. constructor.
        split; [|split]; simpl; [apply lookup_app_end | apply lookup_app_end |].
        destruct value as [v|]; constructor. simpl. apply lookup_app_end.
      * rewrite !lookup_insert_ne by done. by apply (grown_objects s).
  - split; [exact N1|]. split; [exact N2|]. split; [exact N3|]. split; [exact N4|]. split.
    + simpl. intros j k x y Hx Hy Heq.
      apply lookup_insert_Some in Hx as [(<- & <-)|(Hj & Hx)];
        apply lookup_insert_Some in Hy as [(Hk & Hy)|(Hk & Hy)]; subst; auto.
      * exfalso. destruct Heq as [Heq|Heq]; simpl in Heq.
        -- assert (at_object y < length (objectCells s)) by (apply B4; by exists k, y). lia.
        -- assert (at_fields y < length (dictionaries s))
             by (apply B5; right; by exists k, y). lia.
      * exfalso. destruct Heq as [Heq|Heq]; simpl in Heq.
        -- assert (at_object x < length (objectCells s)) by (apply B4; by exists j, x). lia.
        -- assert (at_fields x < length (dictionaries s))
             by (apply B5; right; by exists j, x). lia.
      * by apply (Hinj j k x y).
    + intros a Ha. simpl. destruct (Hown' a Ha) as [H|H]; [by apply Hcross|].
      intros Hin. specialize (B5 a (or_introl Hin)). lia.
  - apply (rep_preserved s); [exact Hrep2|]. apply grown_preserved; [exact G | auto |].
    intros x Hx. simpl. rewrite list_lookup_insert_ne; [exact Hx|]. apply Hdisj.
  - apply (disjoint_subset e1 L1 _ e2 L2 s Hdisj Hb2); auto.
    intros a [H|H]; [left; by left|].
    destruct (Hown' a H) as [H'|H']; [left; by right | by right].
Qed.

End Resume.

(** ** Programs and steps *)

(** Every access to the evaluation at [e1], but the one that changes an
    array in place, does to the store what [handle] does to the world, and
    leaves the evaluation at [e2] as it is. *)
Lemma access_simulates {X : Type} (op : Op X) e1 e2 L2 E2 w m :
  keepsPayloads op = true ->
  related e1 e2 L2 E2 w m ->
  simulates (related e1 e2 L2 E2) (handle op w) (answer m (access e1 op m)).
Proof.
  intros Hop (L1 & E1 & -> & Hap). destruct m as [s h]. simpl in Hap.
  destruct op; try discriminate Hop.
  - by apply (access_Frames e1 e2 L2 E2 s h L1 E1).
  - by apply (access_Instance e1 e2 L2 E2 s h L1 E1).
  - by apply (access_SetNextInstruction e1 e2 L2 E2 s h L1 E1).
  - by apply (access_SetLocal e1 e2 L2 E2 s h L1 E1).
  - by apply (access_OperandPop e1 e2 L2 E2 s h L1 E1).
  - by apply (access_OperandPush e1 e2 L2 E2 s h L1 E1).
  - by apply (access_ResumePush e1 e2 L2 E2 s h L1 E1).
  - by apply (access_SetResume e1 e2 L2 E2 s h L1 E1).
  - by apply (access_FramePop e1 e2 L2 E2 s h L1 E1).
  - by apply (access_FramePush e1 e2 L2 E2 s h L1 E1).
  - by apply (access_Uuid e1 e2 L2 E2 s h L1 E1).
  - by apply (access_NewInstance e1 e2 L2 E2 s h L1 E1).
  - by apply (access_SetField e1 e2 L2 E2 s h L1 E1).
  - by apply (access_SetInnerValue e1 e2 L2 E2 s h L1 E1).
  - by apply (access_Interrupting e1 e2 L2 E2 s h L1 E1).
Qed.

Lemma exec_simulates {A : Type} (p : Prog A) e1 e2 L2 E2 :
  forall w m,
    within (@keepsPayloads) p ->
    related e1 e2 L2 E2 w m ->
    simulates (related e1 e2 L2 E2) (run p w) (exec e1 p m).
Proof.
  induction p as [a|err|X op k IH]; intros w m Hp Hr; simpl.
  - by split.
  - by split.
  - destruct Hp as [Hop Hk].
    pose proof (access_simulates op e1 e2 L2 E2 w m Hop Hr) as Hs.
    destruct (handle op w) as [x w'|err w'], (access e1 op m) as [[x' m']|];
      simpl in Hs; try contradiction.
    + destruct Hs as [<- Hs]. apply IH; [apply Hk | exact Hs].
    + exact Hs.
Qed.

(** [step] changes no array in place, unless a native does. *)
Lemma popOperands_keepsPayloads n : within (@keepsPayloads) (popOperands n).
Proof.
  induction n as [|n IH]; cbn [popOperands]; [exact I|].
  apply within_bind; [unfold popOperand; within_cases|]. intros v.
  apply within_bind; [exact IH|]. intros vs. exact I.
Qed.

Lemma instancesOf_keepsPayloads ids : within (@keepsPayloads) (instancesOf ids).
Proof.
  induction ids as [|i ids IH]; cbn [instancesOf]; [exact I|].
  apply within_bind; [by apply within_perform|]. intros o.
  apply within_bind; [exact IH|]. intros os. exact I.
Qed.

Lemma unwind_keepsPayloads interruption below :
  within (@keepsPayloads) (unwind interruption below).
Proof.
  induction below as [|f below IH]; cbn [unwind].
  - apply within_bind; [by apply within_perform|]. intros _. exact I.
  - apply within_bind; [by apply within_perform|]. intros _.
    destruct (includes interruption (resume f)); [exact I | exact IH].
Qed.

Lemma addInstance_keepsPayloads module value :
  within (@keepsPayloads) (addInstance module value).
Proof. unfold addInstance. within_cases. Qed.

Lemma interrupt_keepsPayloads interruption valueId :
  within (@keepsPayloads) (interrupt interruption valueId).
Proof.
  unfold interrupt.
  apply within_bind; [by apply within_perform|]. intros _.
  apply within_bind; [by apply within_perform|]. intros frames.
  apply within_bind; [apply unwind_keepsPayloads|]. intros nextFrame.
  unfold getInstance. within_cases.
Qed.

Lemma bindParameters_keepsPayloads ps argIds selfId :
  within (@keepsPayloads) (bindParameters ps argIds selfId).
Proof.
  unfold bindParameters. destruct (existsb isVarArg ps); [|exact I].
  apply within_bind; [apply addInstance_keepsPayloads|]. intros restId.
  by destruct (last ps).
Qed.

Lemma execute_keepsPayloads natives environment frames currentFrame next instruction :
  payloadSafe natives ->
  within (@keepsPayloads) (execute natives environment frames currentFrame next instruction).
Proof.
  intros Hnatives.
  assert (Hpop : within (@keepsPayloads) popOperand) by (unfold popOperand; within_cases).
  assert (Hget : forall i, within (@keepsPayloads) (getInstance i))
    by (intros i; unfold getInstance; within_cases).
  destruct instruction; cbn [execute].
  - (* LOAD *) unfold pushOperand. within_cases.
  - (* STORE *) apply within_bind; [exact Hpop|]. intros v. by apply within_perform.
  - (* PUSH *) by apply within_perform.
  - (* GET *)
    apply within_bind; [exact Hpop|]. intros selfId.
    apply within_bind; [apply Hget|]. intros self. unfold pushOperand. within_cases.
  - (* SET *)
    apply within_bind; [exact Hpop|]. intros valueId.
    apply within_bind; [exact Hpop|]. intros selfId.
    apply within_bind; [apply Hget|]. intros self. within_cases.
  - (* SWAP *)
    apply within_bind; [exact Hpop|]. intros a.
    apply within_bind; [exact Hpop|]. intros b. unfold pushOperand. within_cases.
  - (* INSTANTIATE *)
    apply within_bind; [apply addInstance_keepsPayloads|]. intros i. by apply within_perform.
  - (* INHERITS *)
    apply within_bind; [exact Hpop|]. intros selfId.
    apply within_bind; [apply Hget|]. intros self. unfold pushOperand. within_cases.
  - (* CONDITIONAL_JUMP *)
    apply within_bind; [exact Hpop|]. intros check.
    destruct (_ && _).
    + apply within_bind; [apply addInstance_keepsPayloads|]. intros i.
      apply interrupt_keepsPayloads.
    + within_cases.
  - (* CALL *)
    unfold stepCALL.
    apply within_bind; [apply popOperands_keepsPayloads|]. intros popped. cbv zeta.
    apply within_bind; [exact Hpop|]. intros selfId.
    apply within_bind; [apply Hget|]. intros self.
    apply within_bind; [by destruct (lookupStartClass _ _ _)|]. intros startClass.
    destruct (methodLookup environment message arity startClass) as [method|].
    + destruct (isNative method).
      * destruct (natives method) as [native|] eqn:Hnative; [|exact I].
        apply within_bind; [apply instancesOf_keepsPayloads|]. intros args.
        by apply (Hnatives method).
      * apply within_bind; [apply bindParameters_keepsPayloads|]. intros locals.
        apply within_bind; [by apply within_perform|]. intros _.
        apply within_bind; [unfold compileBody'; by destruct (method_body method)|].
        intros code. by apply within_perform.
    + destruct (resolveMaybe environment (moduleOf self)); [|exact I].
      apply within_bind; [apply addInstance_keepsPayloads|]. intros nameId.
      apply within_bind; [apply addInstance_keepsPayloads|]. intros argsId.
      apply within_bind; [by apply within_perform|]. intros _.
      destruct (methodLookup environment "messageNotUnderstood" 2 c) as [mnu|]; [|exact I].
      apply within_bind; [unfold compileBody'; by destruct (method_body mnu)|].
      intros code. by apply within_perform.
  - (* INIT *)
    unfold stepINIT.
    apply within_bind; [exact Hpop|]. intros selfId.
    apply within_bind; [apply popOperands_keepsPayloads|]. intros popped. cbv zeta.
    apply within_bind; [apply Hget|]. intros self.
    destruct (resolveMaybe environment (moduleOf self)); [|exact I].
    destruct (constructorLookup environment arity (resolve environment lookupStart))
      as [constructor|]; [|exact I].
    apply within_bind; [apply bindParameters_keepsPayloads|]. intros locals.
    apply within_bind; [by apply within_perform|]. intros _.
    apply within_bind; [within_cases|]. intros chaining. by apply within_perform.
  - (* IF_THEN_ELSE *)
    apply within_bind; [exact Hpop|]. intros check.
    destruct (_ && _).
    + apply within_bind; [apply addInstance_keepsPayloads|]. intros i.
      apply interrupt_keepsPayloads.
    + within_cases.
  - (* TRY_CATCH_ALWAYS *) within_cases.
  - (* INTERRUPT *)
    apply within_bind; [exact Hpop|]. intros valueId. apply interrupt_keepsPayloads.
  - (* RESUME_INTERRUPTION *)
    cbv zeta. destruct (decide _); [exact I|].
    destruct (find _ _); [|exact I].
    apply within_bind; [exact Hpop|]. intros valueId. apply interrupt_keepsPayloads.
Qed.

Lemma stepProgram_keepsPayloads natives environment :
  payloadSafe natives -> within (@keepsPayloads) (stepProgram natives environment).
Proof.
  intros Hnatives. unfold stepProgram.
  apply within_bind; [by apply within_perform|]. intros frames.
  destruct frames as [|currentFrame below]; [exact I|].
  destruct (instructions currentFrame !! nextInstruction currentFrame); [|exact I].
  cbv zeta. apply within_bind; [by apply within_perform|]. intros _.
  by apply execute_keepsPayloads.
Qed.

(** One step of the evaluation at [e1]. *)
Lemma stepIn_simulates natives e1 e2 L2 E2 w m :
  payloadSafe natives ->
  related e1 e2 L2 E2 w m ->
  simulates (related e1 e2 L2 E2) (step natives w) (stepIn natives e1 m).
Proof.
  intros Hnatives Hr. unfold step, stepIn.
  assert (environment (evaluation w) = ref_environment e1) as ->.
  { destruct Hr as (L1 & E1 & -> & (Henv & _) & _). exact Henv. }
  apply exec_simulates; [by apply stepProgram_keepsPayloads | exact Hr].
Qed.

(** ** [cloneEvaluation] lays the copy out apart from the original *)

Lemma grown_refl s : grown s s.
Proof. repeat split; auto. Qed.

Lemma grown_trans s1 s2 s3 : grown s1 s2 -> grown s2 s3 -> grown s1 s3.
Proof.
  intros (G1 & G2 & G3 & G4 & G5 & G6) (H1 & H2 & H3 & H4 & H5 & H6). repeat split; auto.
Qed.

Lemma lookup_le_length {A : Type} (l k : list A) :
  (forall a x, l !! a = Some x -> k !! a = Some x) -> length l <= length k.
Proof.
  intros H. destruct (decide (length l <= length k)) as [|Hgt]; [done|].
  destruct (lookup_lt_is_Some_2 l (length k)) as [x Hx]; [lia|].
  apply H, lookup_lt_Some in Hx. lia.
Qed.

Lemma grown_lengths s s' :
  grown s s' ->
  length (frameCells s) <= length (frameCells s')
  /\ length (operandStacks s) <= length (operandStacks s')
  /\ length (resumes s) <= length (resumes s')
  /\ length (objectCells s) <= length (objectCells s')
  /\ length (dictionaries s) <= length (dictionaries s').
Proof.
  intros (G1 & G2 & G3 & G4 & G5 & G6). repeat split; by apply lookup_le_length.
Qed.

Lemma cloneObject_spec s l o :
  repObject s l o ->
  exists s',
    cloneObject s (at_object l) = Some (length (objectCells s), s')
    /\ grown s s' /\ sameFrames s s'
    /\ repObject s' {| at_object := length (objectCells s);
                       at_fields := length (dictionaries s);
                       at_payload := at_payload l |} o.
Proof.
  intros (H1 & H2 & H3). unfold cloneObject. rewrite H1. simpl. rewrite H2. simpl.
  eexists. split; [reflexivity|]. split; [grows|]. split; [by repeat split|].
  split; [|split]; simpl; [apply lookup_app_end | apply lookup_app_end | exact H3].
Qed.

Lemma cloneFrame_spec s l f :
  repFrame s l f ->
  exists s',
    cloneFrame s (at_frame l) = Some (length (frameCells s), s')
    /\ grown s s' /\ sameObjects s s'
    /\ length (frameCells s') = S (length (frameCells s))
    /\ length (dictionaries s') = S (length (dictionaries s))
    /\ length (operandStacks s') = S (length (operandStacks s))
    /\ length (resumes s') = S (length (resumes s))
    /\ repFrame s' {| at_frame := length (frameCells s);
                      at_locals := length (dictionaries s);
                      at_operandStack := length (operandStacks s);
                      at_resume := length (resumes s) |} f.
Proof.
  intros (H1 & H2 & H3 & H4). unfold cloneFrame. rewrite H1. simpl.
  rewrite H2. simpl. rewrite H3. simpl. rewrite H4. simpl.
  eexists. split; [reflexivity|]. split; [grows|]. split; [by repeat split|].
  simpl. rewrite !length_app. simpl.
  repeat split; try lia; apply lookup_app_end.
Qed.

Section CloneObjects.
Context (E : Evaluation) (s0 : Store).

Lemma cloneObjects_spec entries :
  forall LO s,
    grown s0 s ->
    NoDup entries.*1 ->
    (forall i, i ∈ entries.*1 -> LO !! i = None) ->
    (forall i a, (i, a) ∈ entries ->
       exists l o, at_object l = a /\ instances E !! i = Some o /\ repObject s0 l o) ->
    clonesOf E s0 s LO ->
    exists LO' s',
      cloneObjects entries (at_object <$> LO) s = Some (at_object <$> LO', s')
      /\ grown s s' /\ sameFrames s s' /\ clonesOf E s0 s' LO'
      /\ (forall i, is_Some (LO' !! i) <-> is_Some (LO !! i) \/ i ∈ entries.*1).
Proof.
  induction entries as [|[i a] entries IH]; intros LO s G0 Hnd Hnew Hentries Hclones.
  - exists LO, s. simpl. split; [reflexivity|]. split; [apply grown_refl|].
    split; [by repeat split|]. split; [exact Hclones|].
    intros i. rewrite elem_of_nil. tauto.
  - simpl in Hnd. apply NoDup_cons in Hnd as [Hi Hnd].
    destruct (Hentries i a) as (l & o & <- & Ho & Hrep); [by left|].
    destruct (cloneObject_spec s l o) as (s1 & Hclone & G1 & S1 & Hrep1);
      [by apply (grown_repObject s0)|].
    set (l' := {| at_object := length (objectCells s); at_fields := length (dictionaries s);
                  at_payload := at_payload l |}) in *.
    destruct (grown_lengths _ _ G0) as (_ & _ & _ & Lo & Ld).
    destruct (IH (<[i := l']> LO) s1) as (LO' & s' & Hrun & G' & S' & Hclones' & Hdom).
    + by apply (grown_trans _ s).
    + exact Hnd.
    + intros j Hj. rewrite lookup_insert_ne; [|intros ->; contradiction].
      apply Hnew. simpl. by right.
    + intros j b Hj. apply Hentries. by right.
    + destruct Hclones as (Hc1 & Hc2). split.
      * intros j x Hx. apply lookup_insert_Some in Hx as [(<- & <-)|(Hne & Hx)].
        -- split; [simpl; lia|]. split; [simpl; lia|]. by exists o.
        -- destruct (Hc1 j x Hx) as (? & ? & o' & ? & ?).
           split; [done|]. split; [done|]. exists o'. split; [done|].
           by apply (grown_repObject s).
      * assert (Hold : forall j x, LO !! j = Some x ->
                  at_object x < length (objectCells s)
                  /\ at_fields x < length (dictionaries s)).
        { intros j x Hx. destruct (Hc1 j x Hx) as (_ & _ & o' & _ & Q1 & Q2 & _).
          split; by eapply lookup_lt_Some. }
        intros j k x y Hx Hy Heq.
        apply lookup_insert_Some in Hx as [(<- & <-)|(Hj & Hx)];
          apply lookup_insert_Some in Hy as [(Hk & Hy)|(Hk & Hy)]; subst; auto.
        -- exfalso. destruct (Hold k y Hy). simpl in Heq. lia.
        -- exfalso. destruct (Hold j x Hx). simpl in Heq. lia.
        -- by apply (Hc2 j k x y).
    + exists LO', s'. simpl. rewrite Hclone. simpl. rewrite fmap_insert in Hrun.
      split; [exact Hrun|]. split; [by apply (grown_trans _ s1)|].
      split; [|split; [exact Hclones'|]].
      * destruct S1 as (A1 & A2 & A3 & A4 & A5 & A6), S' as (C1 & C2 & C3 & C4 & C5 & C6).
        repeat split; congruence.
      * intros j. rewrite Hdom, elem_of_cons.
        destruct (decide (j = i)) as [->|Hne].
        -- rewrite lookup_insert_eq. split; [intros _; right; by left|intros _; left; eauto].
        -- rewrite lookup_insert_ne by done. tauto.
Qed.

End CloneObjects.

Lemma fresh_not_in (g : FrameLayout -> nat) (ls : list FrameLayout) n :
  Forall (fun l => S n <= g l) ls -> n ∉ map g ls.
Proof.
  intros H (i & l & Hl & Heq)%elem_of_map_inv.
  rewrite Forall_lookup in H. specialize (H i l Hl). simpl in H. lia.
Qed.

Lemma cloneFrames_spec ls :
  forall fs s,
    Forall2 (repFrame s) ls fs ->
    exists ls' s',
      cloneFrames (map at_frame ls) s = Some (map at_frame ls', s')
      /\ grown s s' /\ sameObjects s s'
      /\ Forall2 (repFrame s') ls' fs
      /\ Forall (freshFrame s) ls'
      /\ NoDup (map at_frame ls') /\ NoDup (map at_locals ls')
      /\ NoDup (map at_operandStack ls') /\ NoDup (map at_resume ls').
Proof.
  induction ls as [|l ls IH]; intros fs s Hrep.
  - inversion Hrep; subst. exists [], s. simpl.
    split; [reflexivity|]. split; [apply grown_refl|]. split; [by repeat split|].
    repeat split; constructor.
  - inversion Hrep as [|? f ? fs0 Hl Hls]; subst.
    destruct (cloneFrame_spec s l f Hl) as (s1 & Hclone & G1 & S1 & F1 & F2 & F3 & F4 & Hrep1).
    destruct (IH fs0 s1) as (ls' & s' & Hrun & G' & S' & Hrep' & Hfresh & N1 & N2 & N3 & N4).
    { by apply (Forall2_grown_frames s). }
    exists ({| at_frame := length (frameCells s); at_locals := length (dictionaries s);
               at_operandStack := length (operandStacks s);
               at_resume := length (resumes s) |} :: ls'), s'. simpl. rewrite Hclone. simpl. rewrite Hrun. simpl.
    split; [reflexivity|]. split; [by apply (grown_trans _ s1)|]. split.
    { destruct S1 as (A1 & A2 & A3 & A4), S' as (C1 & C2 & C3 & C4).
      repeat split; congruence. }
    split; [constructor; [by apply (grown_repFrame s1) | exact Hrep']|].
    split.
    { constructor; [by repeat split|].
      eapply Forall_impl; [exact Hfresh|]. intros x (Q1 & Q2 & Q3 & Q4).
      repeat split; lia. }
    repeat split; apply NoDup_cons; (split; [|assumption]); apply fresh_not_in;
      (eapply Forall_impl; [exact Hfresh|]); intros x (Q1 & Q2 & Q3 & Q4); simpl; lia.
Qed.

(** [cloneEvaluation] succeeds on an evaluation laid out in the store, and
    the store then holds the same evaluation twice, the copy apart from the
    original. *)
Lemma cloneEvaluation_apart s e L E :
  rep s e L E -> separate L ->
  exists e' s' L',
    cloneEvaluation e s = Some (e', s') /\ apart s' e L E e' L' E.
Proof.
  intros Hrep Hsep. pose proof Hrep as (Henv & Hfs & Hframes & Htable & Hobjects).
  pose proof (rep_bounded _ _ _ _ Hrep) as (B1 & B2 & B3 & B4 & B5).
  unfold cloneEvaluation. rewrite Htable. simpl.
  destruct (cloneObjects_spec E s (map_to_list (at_object <$> layout_objects L)) ∅ s)
    as (LO & s1 & Hrun & G1 & S1 & (Hc1 & Hc2) & Hdom).
  { apply grown_refl. }
  { apply NoDup_fst_map_to_list. }
  { intros i _. apply lookup_empty. }
  { intros i a Hia%elem_of_map_to_list.
    apply lookup_fmap_Some in Hia as (l & <- & Hl).
    specialize (Hobjects i). rewrite Hl in Hobjects.
    inversion Hobjects as [? o Hlo|]; subst. by exists l, o. }
  { split; intros i; intros; by rewrite lookup_empty in *. }
  rewrite fmap_empty in Hrun. rewrite Hrun. simpl.
  destruct S1 as (A1 & A2 & A3 & A4 & A5 & A6).
  rewrite A1, Hfs. simpl.
  set (s2 := withInstanceTables _ s1).
  assert (G2 : grown s s2).
  { apply (grown_trans _ s1); [exact G1 | grows]. }
  destruct (cloneFrames_spec (layout_frames L) (frameStack E) s2)
    as (ls' & s3 & Hrun' & G3 & (C1 & C2 & C3 & C4) & Hrep3 & Hfresh & N1 & N2 & N3 & N4).
  { by apply (Forall2_grown_frames s). }
  rewrite Hrun'. simpl.
  set (s' := withFrameStacks _ s3).
  assert (G' : grown s3 s') by grows.
  assert (G : grown s s').
  { apply (grown_trans _ s2); [exact G2|]. by apply (grown_trans _ s3). }
  destruct (grown_lengths _ _ G2) as (M1 & M2 & M3 & M4 & M5).
  destruct (grown_lengths _ _ G1) as (_ & _ & _ & _ & M6).
  assert (Hbound : forall i l, LO !! i = Some l -> at_fields l < length (dictionaries s2)).
  { intros i l Hl. destruct (Hc1 i l Hl) as (_ & _ & o & _ & _ & Q & _). simpl.
    by eapply lookup_lt_Some. }
  assert (Hnew : forall (g : FrameLayout -> nat) (n : Store -> nat) a,
             (forall l, freshFrame s2 l -> n s2 <= g l) -> a ∈ map g ls' -> n s2 <= a).
  { intros g n a Hg (i & l & Hl & <-)%elem_of_map_inv. apply Hg.
    rewrite Forall_lookup in Hfresh. by apply (Hfresh i). }
  eexists _, s', {| layout_frames := ls'; layout_objects := LO |}.
  split; [reflexivity|].
  split; [|split; [exact Hsep|split; [|split]]].
  - apply (rep_preserved s); [exact Hrep|]. apply grown_preserved; [exact G | |].
    + intros x Hx. simpl. rewrite C1. simpl. rewrite A1. by apply lookup_app_Some_l.
    + intros x Hx. simpl. rewrite C2. simpl. rewrite A5. by apply lookup_app_Some_l.
  - split; [exact Henv|]. split; [|split; [|split]]; simpl.
    + apply lookup_app_end.
    + by apply (Forall2_grown_frames s3).
    + rewrite C2. simpl. apply lookup_app_end.
    + intros i. destruct (LO !! i) as [l|] eqn:Hl.
      * destruct (Hc1 i l Hl) as (_ & _ & o & -> & Ho). constructor.
        apply (grown_repObject s1); [|exact Ho].
        apply (grown_trans _ s2); [grows|]. by apply (grown_trans _ s3).
      * destruct (instances E !! i) as [o|] eqn:Ho; [|constructor].
        exfalso. assert (is_Some (LO !! i)) as [x Hx]; [|congruence].
        apply Hdom. right. specialize (Hobjects i). rewrite Ho in Hobjects.
        inversion Hobjects as [l ? _ Hl'|]; subst.
        apply list_elem_of_fmap. exists (i, at_object l). split; [reflexivity|].
        apply elem_of_map_to_list. by rewrite lookup_fmap, <- Hl'.
  - split; [exact N1|]. split; [exact N2|]. split; [exact N3|]. split; [exact N4|].
    split; [exact Hc2|]. simpl.
    intros a (i & l & Hl & <-) Hin. specialize (Hbound i l Hl).
    apply (Hnew at_locals (fun s => length (dictionaries s))) in Hin; [lia|].
    by intros x (_ & Q & _).
  - split; [|split; [|split; [|split; [|split; [|split]]]]]; simpl.
    + apply lookup_lt_Some in Hfs. rewrite C1. simpl. rewrite A1. lia.
    + apply lookup_lt_Some in Htable. rewrite A5. lia.
    + intros a Ha Ha'. specialize (B1 a Ha).
      apply (Hnew at_frame (fun s => length (frameCells s))) in Ha'; [lia|].
      by intros x (Q & _).
    + intros a Ha Ha'. specialize (B2 a Ha).
      apply (Hnew at_operandStack (fun s => length (operandStacks s))) in Ha'; [lia|].
      by intros x (_ & _ & Q & _).
    + intros a Ha Ha'. specialize (B3 a Ha).
      apply (Hnew at_resume (fun s => length (resumes s))) in Ha'; [lia|].
      by intros x (_ & _ & _ & Q).
    + intros a Ha (i & l & Hl & <-). specialize (B4 _ Ha).
      destruct (Hc1 i l Hl) as (Q & _). lia.
    + intros a Ha [Ha'|(i & l & Hl & <-)]; specialize (B5 _ Ha).
      * apply (Hnew at_locals (fun s => length (dictionaries s))) in Ha'; [lia|].
        by intros x (_ & Q & _).
      * destruct (Hc1 i l Hl) as (_ & Q & _). lia.
Qed.

(** ** Lock-step *)

Lemma disjoint_sym e1 L1 e2 L2 : disjoint e1 L1 e2 L2 -> disjoint e2 L2 e1 L1.
Proof.
  intros (D1 & D2 & D3 & D4 & D5 & D6 & D7).
  split; [auto|]. split; [auto|].
  split; [|split; [|split; [|split]]]; intros a Ha Ha'.
  - by apply (D3 a). - by apply (D4 a). - by apply (D5 a). - by apply (D6 a). - by apply (D7 a).
Qed.

Lemma apart_sym s e1 L1 E1 e2 L2 E2 :
  apart s e1 L1 E1 e2 L2 E2 -> apart s e2 L2 E2 e1 L1 E1.
Proof.
  intros (H1 & H2 & H3 & H4 & H5).
  split; [exact H3|]. split; [exact H4|]. split; [exact H1|]. split; [exact H2|].
  by apply disjoint_sym.
Qed.

Lemma simulates_related {A : Type} (R : World -> Machine -> Prop)
    (o : Outcome A) (c : Completion Machine A) :
  simulates R o c -> R (outcomeWorld o) (machineOf c).
Proof. destruct o, c; simpl; tauto. Qed.

Lemma hostWorld_inj E1 h1 E2 h2 : hostWorld E1 h1 = hostWorld E2 h2 -> E1 = E2 /\ h1 = h2.
Proof.
  destruct h1, h2. unfold hostWorld. simpl. intros H. injection H as -> -> -> ->. done.
Qed.

(** A step of the evaluation at [e1] is the step of the interpreter on the
    evaluation held there, and the evaluation at [e2] is still held as it
    was. *)
Lemma stepIn_apart natives s h e1 L1 E1 e2 L2 E2 :
  payloadSafe natives ->
  apart s e1 L1 E1 e2 L2 E2 ->
  exists L1',
    let m := machineOf (stepIn natives e1 (s, h)) in
    let w := outcomeWorld (step natives (hostWorld E1 h)) in
    w = hostWorld (evaluation w) m.2
    /\ apart m.1 e1 L1' (evaluation w) e2 L2 E2.
Proof.
  intros Hnatives Hap.
  assert (Hr : related e1 e2 L2 E2 (hostWorld E1 h) (s, h)) by (by exists L1, E1).
  apply (stepIn_simulates natives), simulates_related in Hr as (L1' & E1' & Hw & Hap');
    [|exact Hnatives].
  exists L1'. simpl. rewrite Hw. simpl. by split.
Qed.

(** The heap and the frames that [rep] speaks of are the ones observed. *)
Lemma rep_observe s e L E : rep s e L E -> observe s e = (instances E, Some (frameStack E)).
Proof.
  intros H. unfold observe. by rewrite (rep_heapOf s e L E H), (rep_framesOf s e L E H).
Qed.

(** *** Steps in any order *)

(** However the steps of the two evaluations are interleaved, the store
    holds the two apart from each other. *)
Lemma interleaved_apart natives e e' m0 m :
  payloadSafe natives ->
  interleaved natives e e' m0 m ->
  (exists L L' E E', apart m0.1 e L E e' L' E') ->
  exists L L' E E', apart m.1 e L E e' L' E'.
Proof.
  intros Hnatives Hm H0. induction Hm as [|m Hm IH|m Hm IH]; [exact H0| |].
  - destruct IH as (L & L' & E & E' & Hap). destruct m as [s h].
    destruct (stepIn_apart natives s h e L E e' L' E' Hnatives Hap) as (L1 & _ & Hap1).
    by eexists L1, L', _, E'.
  - destruct IH as (L & L' & E & E' & Hap). destruct m as [s h].
    destruct (stepIn_apart natives s h e' L' E' e L E Hnatives (apart_sym _ _ _ _ _ _ _ Hap))
      as (L1 & _ & Hap1).
    eexists L, L1, E, _. by apply apart_sym.
Qed.

Lemma apart_isolated natives s h e L E e' L' E' :
  payloadSafe natives ->
  apart s e L E e' L' E' ->
  observe (machineOf (stepIn natives e (s, h))).1 e' = observe s e'.
Proof.
  intros Hnatives Hap. pose proof Hap as (_ & _ & R & _).
  destruct (stepIn_apart natives s h e L E e' L' E' Hnatives Hap) as (L1 & _ & _ & _ & R' & _).
  by rewrite (rep_observe _ _ _ _ R), (rep_observe _ _ _ _ R').
Qed.

(** *** What the ghost record and the supply of ids have to do with a step *)

Lemma sameButRaised_refl w : sameButRaised w w.
Proof. by repeat split. Qed.

Lemma handle_ghost {X : Type} (op : Op X) w w' :
  sameButRaised w w' ->
  match handle op w, handle op w' with
  | Done x w1, Done x' w1' => x = x' /\ sameButRaised w1 w1'
  | Thrown err w1, Thrown err' w1' => err = err' /\ sameButRaised w1 w1'
  | _, _ => False
  end.
Proof.
  destruct w as [E u c r], w' as [E' u' c' r']. unfold sameButRaised. simpl.
  intros (<- & <- & <-).
  destruct op; simpl; unfold onFrame, onInstance; simpl;
    repeat match goal with
           | |- context [match ?x with _ => _ end] =>
               lazymatch x with
               | context [match _ with _ => _ end] => fail
               | _ => destruct x; simpl
               end
           end; by repeat split.
Qed.

Lemma run_ghost {A : Type} (p : Prog A) : forall w w',
  sameButRaised w w' ->
  match run p w, run p w' with
  | Done x w1, Done x' w1' => x = x' /\ sameButRaised w1 w1'
  | Thrown err w1, Thrown err' w1' => err = err' /\ sameButRaised w1 w1'
  | _, _ => False
  end.
Proof.
  induction p as [a|err|X op k IH]; intros w w' Hw; simpl; [by split | by split |].
  pose proof (handle_ghost op w w' Hw) as Hop.
  destruct (handle op w) as [x w1|err w1], (handle op w') as [x' w1'|err' w1'];
    try contradiction.
  - destruct Hop as [<- Hop]. by apply IH.
  - exact Hop.
Qed.

Lemma step_ghost natives w w' :
  sameButRaised w w' ->
  sameButRaised (outcomeWorld (step natives w)) (outcomeWorld (step natives w')).
Proof.
  intros Hw. unfold step. pose proof Hw as (<- & _).
  pose proof (run_ghost (stepProgram natives (environment (evaluation w))) w w' Hw) as H.
  destruct (run _ w), (run _ w'); simpl; tauto.
Qed.

(** The host hands out the same ids whatever the steps, and counts the ids
    that it has handed out. *)
Lemma access_host {X : Type} e (op : Op X) m x m' :
  access e op m = Some (x, m') ->
  host_uuid m'.2 = host_uuid m.2 /\ host_uuidCalls m.2 <= host_uuidCalls m'.2.
Proof.
  destruct m as [s h]. destruct op; simpl; intros H;
    repeat first
      [ progress simplify_option_eq
      | match goal with
        | H : context [match ?x with _ => _ end] |- _ => destruct x eqn:?
        end ];
    simpl; split; (reflexivity || lia).
Qed.

Lemma exec_host {A : Type} e (p : Prog A) : forall m,
  host_uuid (machineOf (exec e p m)).2 = host_uuid m.2
  /\ host_uuidCalls m.2 <= host_uuidCalls (machineOf (exec e p m)).2.
Proof.
  induction p as [a|err|X op k IH]; intros m; simpl; [by split | by split |].
  destruct (access e op m) as [[x m']|] eqn:Hop; simpl; [|by split].
  destruct (access_host e op m x m' Hop) as [Hu Hc].
  destruct (IH x m') as [Hu' Hc']. split; [congruence | lia].
Qed.

Lemma lockstepShared_host natives e e' n : forall m,
  host_uuidCalls m.2 <= host_uuidCalls (lockstepShared natives e e' n m).2.
Proof.
  induction n as [|n IH]; intros m; simpl; [lia|].
  etransitivity; [|apply IH].
  etransitivity; [apply (exec_host e (stepProgram natives (ref_environment e)) m)|].
  apply (exec_host e' (stepProgram natives (ref_environment e'))).
Qed.

(** *** Lock-step *)

Lemma lockstepShared_interleaved natives e e' n : forall m0 m,
  interleaved natives e e' m0 m ->
  interleaved natives e e' m0 (lockstepShared natives e e' n m).
Proof.
  induction n as [|n IH]; intros m0 m Hm; simpl; [exact Hm|].
  apply IH. by apply interleaved_clone, interleaved_original.
Qed.

(** As long as no id is drawn, the rounds of lock-step keep the original and
    the clone equal, and equal to what the steps of the interpreter make of
    the evaluation. *)
Lemma lockstepShared_agree natives e e' n :
  payloadSafe natives ->
  forall s h L L' E w,
    apart s e L E e' L' E ->
    sameButRaised w (hostWorld E h) ->
    host_uuidCalls (lockstepShared natives e e' n (s, h)).2 = host_uuidCalls h ->
    exists L1 L1',
      apart (lockstepShared natives e e' n (s, h)).1
        e L1 (evaluation (stepMany natives n w)) e' L1' (evaluation (stepMany natives n w)).
Proof.
  intros Hnatives. induction n as [|n IH]; intros s h L L' E w Hap Hw Hcalls.
  - simpl. destruct Hw as (-> & _). by exists L, L'.
  - simpl in Hcalls |- *.
    destruct (stepIn_apart natives s h e L E e' L' E Hnatives Hap) as (L1 & Hw1 & Hap1).
    simpl in Hw1, Hap1.
    set (m1 := machineOf (stepIn natives e (s, h))) in *.
    set (w1 := outcomeWorld (step natives (hostWorld E h))) in *.
    destruct m1 as [s1 h1] eqn:Hm1. simpl in Hw1, Hap1.
    destruct (stepIn_apart natives s1 h1 e' L' E e L1 (evaluation w1) Hnatives
                (apart_sym _ _ _ _ _ _ _ Hap1)) as (L1' & Hw2 & Hap2).
    simpl in Hw2, Hap2.
    set (m2 := machineOf (stepIn natives e' (s1, h1))) in *.
    set (w2 := outcomeWorld (step natives (hostWorld E h1))) in *.
    destruct m2 as [s2 h2] eqn:Hm2. simpl in Hw2, Hap2.
    (* no id was drawn in this round *)
    pose proof (exec_host e (stepProgram natives (ref_environment e)) (s, h)) as [Hu1 Hc1].
    fold (stepIn natives e (s, h)) in Hu1, Hc1. fold m1 in Hu1, Hc1.
    rewrite Hm1 in Hu1, Hc1. simpl in Hu1, Hc1.
    pose proof (exec_host e' (stepProgram natives (ref_environment e')) (s1, h1)) as [Hu2 Hc2].
    fold (stepIn natives e' (s1, h1)) in Hu2, Hc2. fold m2 in Hu2, Hc2.
    rewrite Hm2 in Hu2, Hc2. simpl in Hu2, Hc2.
    pose proof (lockstepShared_host natives e e' n (s2, h2)) as Hc3. simpl in Hc3.
    assert (Hsame : sameButRaised (hostWorld E h) (hostWorld E h1)).
    { split; [reflexivity|]. split; simpl; [congruence | lia]. }
    pose proof (step_ghost natives _ _ Hsame) as Hstep. fold w1 w2 in Hstep.
    pose proof (step_ghost natives _ _ Hw) as Hstep'. fold w1 in Hstep'.
    destruct Hstep as (He & Hu & Hc).
    apply (IH s2 h2 L1 L1' (evaluation w1) (outcomeWorld (step natives w))).
    + rewrite <- He in Hap2. by apply apart_sym.
    + destruct Hstep' as (He' & Hu' & Hc').
      assert (uuid w2 = host_uuid h2) as Hu3 by (by rewrite Hw2).
      assert (uuidCalls w2 = host_uuidCalls h2) as Hc4 by (by rewrite Hw2).
      split; [exact He'|]. split; simpl; congruence.
    + lia.
Qed.


(** ** The example store *)

Lemma stored_rep :
  rep Example.store Example.stored Example.storedLayout
    Example.storedEvaluation.
Proof.
  split; [reflexivity|]. split; [reflexivity|]. split; [|split; [reflexivity|]].
  - repeat constructor.
  - intros i. simpl. destruct (decide (i = "o")) as [->|Hne].
    + rewrite !lookup_singleton_eq. by repeat constructor.
    + rewrite !lookup_singleton_ne by done. constructor.
Qed.

Lemma stored_separate : separate Example.storedLayout.
Proof.
  split; [|split; [|split; [|split; [|split]]]]; simpl;
    try (apply NoDup_singleton).
  - unfold Example.storedLayout. simpl.
    intros i j x y [<- _]%lookup_singleton_Some [<- _]%lookup_singleton_Some _. reflexivity.
  - unfold ownsFields, Example.storedLayout. simpl.
    intros a (i & x & [_ <-]%lookup_singleton_Some & <-). simpl.
    rewrite list_elem_of_singleton. discriminate.
Qed.

Lemma natives_payloadSafe : payloadSafe Example.natives.
Proof.
  intros method native self args [= <-]. split; [reflexivity|]. intros x. exact I.
Qed.


(** The three rounds of the witness do run: the frame loads [self], calls
    the native on it and stores the answer in the local [a]. *)
Lemma stored_steps :
  let w := stepMany Example.natives 3
             (hostWorld Example.storedEvaluation Example.host) in
  (locals <$> frameStack (evaluation w)) = [ {[ "self" := "o"; "a" := "void" ]} ]
  /\ (nextInstruction <$> frameStack (evaluation w)) = [3].
Proof. vm_compute. split; reflexivity. Qed.


(** And a mutation performed on one evaluation can be observed in the other:
    the clone of an instance refers to the [innerValue] of the original, so
    that when a native, called in a step of the clone, adds an id to the list
    of [self] in place, the list of the original has that id too. *)
Lemma clone_shared_payload :
  exists e' s',
    cloneEvaluation Example.stored Example.store = Some (e', s')
    /\ (let m := machineOf (stepIn Example.pushing e'
                              (machineOf (stepIn Example.pushing e' (s', Example.host)))) in
        innerValue <$> heapOf s' Example.stored !! "o" = Some (Some (VList []))
        /\ innerValue <$> heapOf m.1 Example.stored !! "o" = Some (Some (VList ["x"]))
        /\ framesOf m.1 Example.stored = framesOf s' Example.stored).
Proof.
  eexists _, _. split; [vm_compute; reflexivity|].
  vm_compute. repeat split; eauto.
Qed.

(** * More of the interpreter *)

(** ** [INTERRUPT] *)

(** [INTERRUPT] and [RESUME_INTERRUPTION] once their operand is popped. *)
Lemma step_INTERRUPT natives w cur below interruption v stack :
  frameStack (evaluation w) = cur :: below ->
  instructions cur !! nextInstruction cur = Some (INTERRUPT interruption) ->
  operandStack cur = v :: stack ->
  truthy v = true ->
  step natives w = interrupted interruption v below w.
Proof.
  intros Hfs Hi Hst Hv. rewrite (step_fetch _ _ _ _ _ Hfs Hi). cbn [execute].
  rewrite run_bind, (run_popOperand _ _ _ v stack) by (simpl; auto).
  apply run_interrupt.
Qed.

(** X1. [INTERRUPT] pops the frame it runs in, whatever that frame resumes on,
    and every frame under it that does not resume on the interruption; the
    first frame that does gets the popped value on its operand stack and
    loses every mark of the interruption. The heap is left as it is. *)
Theorem interrupt_resumes_nearest natives w cur skipped h rest interruption v stack :
  frameStack (evaluation w) = cur :: skipped ++ h :: rest ->
  instructions cur !! nextInstruction cur = Some (INTERRUPT interruption) ->
  operandStack cur = v :: stack ->
  truthy v = true ->
  Forall (fun f => interruption ∉ resume f) skipped ->
  interruption ∈ resume h ->
  step natives w
  = Done tt
      (withRaised (raised w ++ [(interruption, v)])
         (withFrameStack
            ({| instructions := instructions h; nextInstruction := nextInstruction h;
                locals := locals h; operandStack := v :: operandStack h;
                resume := filter (fun elem => elem ≠ interruption) (resume h) |} :: rest)
            w)).
Proof.
  intros Hfs Hi Hst Hv Hskipped Hh.
  rewrite (step_INTERRUPT _ _ _ _ _ _ _ Hfs Hi Hst Hv).
  unfold interrupted, deliver. by rewrite (unwound_app _ _ _ _ Hskipped Hh).
Qed.

Lemma interrupt_resumes_nearest_witness :
  step Example.natives
    (Example.world
       [ Example.resuming [INTERRUPT Return_] ["v"] [Return_];
         Example.resuming [] ["a"] [Exception];
         Example.resuming [] ["b"] [Return_; Result; Return_] ] [])
  = Done tt
      (withRaised [(Return_, "v")]
         (Example.world [ Example.resuming [] ["v"; "b"] [Result] ] [])).
Proof.
  etransitivity.
  - apply (interrupt_resumes_nearest Example.natives
             (Example.world
                [ Example.resuming [INTERRUPT Return_] ["v"] [Return_];
                  Example.resuming [] ["a"] [Exception];
                  Example.resuming [] ["b"] [Return_; Result; Return_] ] [])
             (Example.resuming [INTERRUPT Return_] ["v"] [Return_])
             [ Example.resuming [] ["a"] [Exception] ]
             (Example.resuming [] ["b"] [Return_; Result; Return_]) [] Return_ "v" []);
      [reflexivity | reflexivity | reflexivity | reflexivity | | ].
    + repeat constructor. by apply (bool_decide_unpack _).
    + by apply (bool_decide_unpack _).
  - reflexivity.
Defined.



(** ** [RESUME_INTERRUPTION] *)

Lemma includes_spec k r : includes k r = true <-> k ∈ r.
Proof. unfold includes. apply bool_decide_eq_true. Qed.

Lemma includes_false k r : includes k r = false <-> k ∉ r.
Proof. unfold includes. apply bool_decide_eq_false. Qed.

(** Two marks cannot cover the three interruptions. *)
Lemma two_marks_miss_one (r : list Interruption) :
  length r = 2 -> Exception ∈ r -> Return_ ∈ r -> Result ∈ r -> False.
Proof.
  destruct r as [|a [|b [|c r]]]; simpl; try discriminate. intros _.
  rewrite !elem_of_cons, !elem_of_nil. destruct a, b; intuition discriminate.
Qed.

(** X3. [RESUME_INTERRUPTION] fails with "Interruption to resume cannot be
    inferred" unless the frame has exactly two resume marks; with two, one of
    exception, return and result is missing from them, and the step is the
    step of [INTERRUPT] on the first that is. *)
Theorem resume_interruption_reraises natives w cur below :
  frameStack (evaluation w) = cur :: below ->
  instructions cur !! nextInstruction cur = Some RESUME_INTERRUPTION ->
  (length (resume cur) <> 2 ->
   step natives w
   = Thrown CannotInferInterruption (withFrameStack (advance cur :: below) w))
  /\ (length (resume cur) = 2 ->
      exists k,
        (k ∉ resume cur)
        /\ (k = Exception
            \/ (Exception ∈ resume cur
                /\ (k = Return_ \/ (Return_ ∈ resume cur /\ k = Result))))
        /\ forall v stack cur',
             operandStack cur = v :: stack ->
             truthy v = true ->
             instructions cur' !! nextInstruction cur' = Some (INTERRUPT k) ->
             operandStack cur' = operandStack cur ->
             step natives w = step natives (withFrameStack (cur' :: below) w)).
Proof.
  intros Hfs Hi. rewrite (step_fetch _ _ _ _ _ Hfs Hi). cbn [execute]. split.
  - intros Hlen. destruct (decide _) as [_|Hn]; [reflexivity|]. by exfalso.
  - intros Hlen.
    assert (exists k,
               find (fun interruption => negb (includes interruption (resume cur)))
                 [Exception; Return_; Result] = Some k
               /\ (k ∉ resume cur)
               /\ (k = Exception
                   \/ (Exception ∈ resume cur
                       /\ (k = Return_ \/ (Return_ ∈ resume cur /\ k = Result)))))
      as (k & Hfind & Hk & Hfirst).
    { simpl.
      destruct (includes Exception (resume cur)) eqn:E1; simpl;
        [apply includes_spec in E1 | apply includes_false in E1; by eauto].
      destruct (includes Return_ (resume cur)) eqn:E2; simpl;
        [apply includes_spec in E2 | apply includes_false in E2; by eauto 7].
      destruct (includes Result (resume cur)) eqn:E3; simpl;
        [apply includes_spec in E3 | apply includes_false in E3; by eauto 9].
      exfalso. by apply (two_marks_miss_one (resume cur)). }
    exists k. split; [exact Hk|]. split; [exact Hfirst|].
    intros v stack cur' Hst Hv Hi' Hst'.
    destruct (decide _) as [Hn|_]; [by exfalso|].
    cbn [setNextInstruction advance resume] in *. rewrite Hfind.
    rewrite run_bind, (run_popOperand _ _ _ v stack) by (simpl; auto).
    rewrite run_interrupt.
    transitivity (interrupted k v below (withFrameStack (cur' :: below) w)); [reflexivity|].
    symmetry.
    apply (step_INTERRUPT natives _ cur' below k v stack);
      [reflexivity | exact Hi' | congruence | exact Hv].
Qed.

Lemma resume_interruption_reraises_witness :
  exists k,
    (k ∉ [Return_; Exception])
    /\ step Example.natives
         (Example.world
            [ Example.resuming [RESUME_INTERRUPTION] ["v"] [Return_; Exception];
              Example.resuming [] [] [Result] ] [])
       = step Example.natives
           (Example.world
              [ Example.resuming [INTERRUPT k] ["v"] [];
                Example.resuming [] [] [Result] ] []).
Proof.
  destruct (proj2 (resume_interruption_reraises Example.natives
                     (Example.world
                        [ Example.resuming [RESUME_INTERRUPTION] ["v"] [Return_; Exception];
                          Example.resuming [] [] [Result] ] [])
                     (Example.resuming [RESUME_INTERRUPTION] ["v"] [Return_; Exception])
                     [ Example.resuming [] [] [Result] ] eq_refl eq_refl) eq_refl)
    as (k & Hk & _ & Hstep).
  exists k. split; [exact Hk|].
  apply (Hstep "v" [] (Example.resuming [INTERRUPT k] ["v"] [])); reflexivity.
Defined.

(** ** Fetching the instruction *)

(** X4. [step] fails before it changes anything when there is no frame (a
    [TypeError]: [Operations] reads the top frame before [step] tests it, so
    "Reached end of frame stack" is never the failure) and when the current
    frame has no instruction left ("Reached end of instructions"). *)
Theorem step_fetch_failures natives w :
  (frameStack (evaluation w) = [] -> step natives w = Thrown TypeError w)
  /\ (forall cur below,
         frameStack (evaluation w) = cur :: below ->
         length (instructions cur) <= nextInstruction cur ->
         step natives w = Thrown ReachedEndOfInstructions w).
Proof.
  split.
  - intros Hfs. unfold step, stepProgram. rewrite run_bind. simpl. by rewrite Hfs.
  - intros cur below Hfs Hlen. unfold step, stepProgram. rewrite run_bind. simpl.
    rewrite Hfs. by rewrite (lookup_ge_None_2 _ _ Hlen).
Qed.

Lemma step_fetch_failures_witness :
  step Example.natives (Example.world [] []) = Thrown TypeError (Example.world [] [])
  /\ step Example.natives (Example.world [Example.frame [] [] ["v"]] [])
     = Thrown ReachedEndOfInstructions (Example.world [Example.frame [] [] ["v"]] []).
Proof.
  split.
  - apply (proj1 (step_fetch_failures Example.natives (Example.world [] []))). reflexivity.
  - apply (proj2 (step_fetch_failures Example.natives
                    (Example.world [Example.frame [] [] ["v"]] []))
             (Example.frame [] [] ["v"]) []); [reflexivity | simpl; lia].
Defined.

(** ** [LOAD] *)

Lemma givesNothing_getProperty name f v :
  givesNothing name f -> getProperty (locals f) name = Some v -> truthy v = false.
Proof.
  unfold givesNothing, getProperty. destruct (locals f !! name) as [v'|].
  - by intros H [= <-].
  - intros H. by rewrite (onPrototype_false _ H).
Qed.

Lemma loadLocal_found name frames d f v :
  frames !! d = Some f ->
  getProperty (locals f) name = Some v ->
  truthy v = true ->
  (forall d' f', d' < d -> frames !! d' = Some f' -> givesNothing name f') ->
  loadLocal name frames = Some v.
Proof.
  unfold loadLocal. revert d. induction frames as [|g frames IH]; intros d Hd Hv Ht Habove.
  - discriminate.
  - destruct d as [|d]; simpl in Hd.
    + injection Hd as ->. simpl. rewrite Hv. simpl. by rewrite Ht.
    + simpl. destruct (getProperty (locals g) name) as [v'|] eqn:Hg; simpl.
      * rewrite (givesNothing_getProperty name g v' (Habove 0 g ltac:(lia) eq_refl) Hg).
        apply (IH d); auto. intros d' f' Hlt. apply (Habove (S d')). lia.
      * apply (IH d); auto. intros d' f' Hlt. apply (Habove (S d')). lia.
Qed.

Lemma loadLocal_Some name frames d f v :
  onPrototype name = false ->
  frames !! d = Some f ->
  locals f !! name = Some v ->
  truthy v = true ->
  (forall d' f' v', d' < d -> frames !! d' = Some f' -> locals f' !! name = Some v' ->
                    truthy v' = false) ->
  loadLocal name frames = Some v.
Proof.
  intros Hp Hd Hv Ht Habove. apply (loadLocal_found name frames d f v); auto.
  - by apply getProperty_Some.
  - intros d' f' Hlt Hf'. unfold givesNothing.
    destruct (locals f' !! name) as [v'|] eqn:E; [by apply (Habove d' f')|].
    intros Hin. by rewrite (onPrototype_true _ Hin) in Hp.
Qed.

Lemma loadLocal_None name frames :
  (forall f, f ∈ frames -> givesNothing name f) ->
  loadLocal name frames = None.
Proof.
  unfold loadLocal. induction frames as [|g frames IH]; intros H; [reflexivity|].
  simpl. destruct (getProperty (locals g) name) as [v'|] eqn:Hg; simpl.
  - rewrite (givesNothing_getProperty name g v' (H g ltac:(by left)) Hg).
    apply IH. intros f Hf. apply H. by right.
  - apply IH. intros f Hf. apply H. by right.
Qed.

Lemma step_LOAD natives w cur below name :
  frameStack (evaluation w) = cur :: below ->
  instructions cur !! nextInstruction cur = Some (LOAD name) ->
  step natives w
  = match loadLocal name (cur :: below) with
    | Some v =>
        Done tt (withFrameStack (setOperandStack (v :: operandStack cur) (advance cur) :: below) w)
    | None => Thrown (MissingLocal name) (withFrameStack (advance cur :: below) w)
    end.
Proof.
  intros Hfs Hi. rewrite (step_fetch _ _ _ _ _ Hfs Hi). cbn [execute].
  destruct (loadLocal name (cur :: below)); reflexivity.
Qed.



(** ** [STORE] and then [LOAD] *)

(** The depth at which a [STORE] assigns is that of a frame. *)
Lemma findBinding_depth name lookup frames cur below :
  frames = cur :: below ->
  default 0 (if lookup : bool then findBinding name frames else None) < length frames.
Proof.
  intros ->. destruct lookup; simpl; [|lia].
  destruct (findBinding name (cur :: below)) as [d|] eqn:F; simpl; [|lia].
  apply findBinding_Some in F as [(f & Hf & _) _]. by apply lookup_lt_Some in Hf.
Qed.

(** What a [LOAD] finds after a [STORE] of the same name. *)
Lemma loadLocal_stored name lookup v cur cur1 below :
  truthy v = true ->
  locals cur1 = locals cur ->
  let d := default 0 (if lookup : bool then findBinding name (cur :: below) else None) in
  loadLocal name
    (alter (fun f => setLocals (setProperty name v (locals f)) f) d (cur1 :: below))
  = Some (if decide (name = "__proto__") then
            match locals cur !! name with
            | Some _ => v
            | None => inheritedId name
            end
          else v).
Proof.
  intros Hv Hsame d.
  destruct (decide (name ∈ objectPrototype)) as [Hp|Hp].
  - assert (d = 0) as ->.
    { subst d. destruct lookup; [|reflexivity].
      by rewrite findBinding_inherited by (by apply onPrototype_true). }
    simpl. unfold loadLocal. simpl. rewrite Hsame. unfold setProperty, getProperty.
    destruct (decide (name = "__proto__")) as [->|Hne].
    + simpl. destruct (locals cur !! "__proto__") as [x|] eqn:E; simpl.
      * rewrite lookup_insert_eq. simpl. by rewrite Hv.
      * rewrite E. simpl. reflexivity.
    + rewrite lookup_insert_eq. simpl. by rewrite Hv.
  - rewrite decide_False by (by apply objectPrototype_proto).
    assert (d < length (cur1 :: below)) as Hd
      by (change (length (cur1 :: below)) with (length (cur :: below));
          by apply (findBinding_depth _ _ _ cur below)).
    destruct (lookup_lt_is_Some_2 (cur1 :: below) d Hd) as [f Hf].
    apply (loadLocal_found name _ d (setLocals (setProperty name v (locals f)) f) v).
    + by rewrite list_lookup_alter_eq, Hf.
    + simpl. rewrite setProperty_insert by (by apply objectPrototype_proto).
      apply getProperty_Some, lookup_insert_eq.
    + exact Hv.
    + intros d' f' Hlt Hf'. rewrite list_lookup_alter_ne in Hf' by lia.
      unfold givesNothing. subst d. destruct lookup; simpl in Hlt; [|lia].
      destruct (findBinding name (cur :: below)) as [d0|] eqn:F; simpl in Hlt; [|lia].
      apply findBinding_Some in F as [_ F2].
      destruct d' as [|d'']; simpl in Hf'.
      * injection Hf' as <-. rewrite Hsame.
        by rewrite (hasProperty_false_own _ _ (F2 0 cur Hlt eq_refl)).
      * by rewrite (hasProperty_false_own _ _ (F2 (S d'') f' Hlt Hf')).
Qed.



(** ** [SWAP] *)

Lemma step_SWAP natives w cur below a b rest :
  frameStack (evaluation w) = cur :: below ->
  instructions cur !! nextInstruction cur = Some SWAP ->
  operandStack cur = a :: b :: rest ->
  truthy a = true ->
  truthy b = true ->
  step natives w
  = Done tt (withFrameStack (setOperandStack (b :: a :: rest) (advance cur) :: below) w).
Proof.
  intros Hfs Hi Hst Ha Hb. rewrite (step_fetch _ _ _ _ _ Hfs Hi). cbn [execute].
  rewrite run_bind, (run_popOperand _ _ _ a (b :: rest)) by (simpl; auto).
  rewrite run_bind, (run_popOperand _ _ _ b rest) by (simpl; auto).
  reflexivity.
Qed.

(** X7. [SWAP] exchanges the two operands on top of the stack, so that two
    [SWAP] in a row leave the evaluation as it was, two instructions further;
    on a stack of one operand it fails with "Popped empty operand stack"
    after it has popped that operand. *)
Theorem swap_exchanges natives w cur below :
  frameStack (evaluation w) = cur :: below ->
  instructions cur !! nextInstruction cur = Some SWAP ->
  (forall a b rest,
      operandStack cur = a :: b :: rest -> truthy a = true -> truthy b = true ->
      step natives w
      = Done tt (withFrameStack (setOperandStack (b :: a :: rest) (advance cur) :: below) w)
      /\ (instructions cur !! S (nextInstruction cur) = Some SWAP ->
          stepsN natives 2 w
          = Done tt
              (withFrameStack
                 (setNextInstruction (S (S (nextInstruction cur))) cur :: below) w)))
  /\ (forall a,
         operandStack cur = [a] -> truthy a = true ->
         step natives w
         = Thrown PoppedEmptyOperandStack
             (withFrameStack (setOperandStack [] (advance cur) :: below) w)).
Proof.
  intros Hfs Hi. split.
  - intros a b rest Hst Ha Hb.
    pose proof (step_SWAP natives w cur below a b rest Hfs Hi Hst Ha Hb) as Hstep.
    split; [exact Hstep|]. intros Hi'. cbn [stepsN]. rewrite Hstep.
    rewrite (step_SWAP natives _ (setOperandStack (b :: a :: rest) (advance cur)) below
               b a rest); [|reflexivity | exact Hi' | reflexivity | exact Hb | exact Ha].
    f_equal. destruct w as [[env fs ins] u c r], cur; simpl in *. by subst.
  - intros a Hst Ha. rewrite (step_fetch _ _ _ _ _ Hfs Hi). cbn [execute].
    rewrite run_bind, (run_popOperand _ _ _ a []) by (simpl; auto).
    reflexivity.
Qed.

Lemma swap_exchanges_witness :
  stepsN Example.natives 2 (Example.world [Example.frame [SWAP; SWAP] [] ["a"; "b"; "c"]] [])
  = Done tt
      (Example.world
         [setNextInstruction 2 (Example.frame [SWAP; SWAP] [] ["a"; "b"; "c"])] []).
Proof.
  apply (proj1 (swap_exchanges Example.natives
                  (Example.world [Example.frame [SWAP; SWAP] [] ["a"; "b"; "c"]] [])
                  (Example.frame [SWAP; SWAP] [] ["a"; "b"; "c"]) [] eq_refl eq_refl)
           "a" "b" ["c"] eq_refl eq_refl eq_refl).
  reflexivity.
Defined.

(** ** [CONDITIONAL_JUMP] *)

Lemma truthy_TRUE_ID : truthy TRUE_ID = true.
Proof. reflexivity. Qed.

Lemma truthy_FALSE_ID : truthy FALSE_ID = true.
Proof. reflexivity. Qed.

Lemma truthy_boolean check : check = TRUE_ID \/ check = FALSE_ID -> truthy check = true.
Proof. by intros [->| ->]. Qed.

Lemma boolean_check check :
  check = TRUE_ID \/ check = FALSE_ID ->
  bool_decide (check ≠ TRUE_ID) && bool_decide (check ≠ FALSE_ID) = false.
Proof. by intros [->| ->]. Qed.

Lemma step_CONDITIONAL_JUMP natives w cur below count check rest :
  frameStack (evaluation w) = cur :: below ->
  instructions cur !! nextInstruction cur = Some (CONDITIONAL_JUMP count) ->
  operandStack cur = check :: rest ->
  check = TRUE_ID \/ check = FALSE_ID ->
  step natives w
  = if (Z.of_nat (length (instructions cur)) <=? Z.of_nat (S (nextInstruction cur)) + count)%Z
       || (count <? 0)%Z
    then Thrown (InvalidJumpCount count)
           (withFrameStack (setOperandStack rest (advance cur) :: below) w)
    else Done tt
           (withFrameStack
              (setNextInstruction
                 (if decide (check = FALSE_ID)
                  then Z.to_nat (Z.of_nat (S (nextInstruction cur)) + count)
                  else S (nextInstruction cur))
                 (setOperandStack rest (advance cur)) :: below) w).
Proof.
  intros Hfs Hi Hst Hcheck. rewrite (step_fetch _ _ _ _ _ Hfs Hi). cbn [execute].
  rewrite run_bind, (run_popOperand _ _ _ check rest)
    by (simpl; auto using truthy_boolean).
  rewrite (boolean_check _ Hcheck).
  destruct (_ || _); reflexivity.
Qed.

(** X8. On a boolean operand [CONDITIONAL_JUMP(count)] skips [count]
    instructions when the operand is [false] and none when it is [true]; it
    fails with "Invalid jump count" when [count] is negative or the
    instruction [count] places further is not in the frame, and does so on
    [true] as well, where nothing would be skipped. *)
Theorem conditional_jump_bounds natives w cur below count check rest :
  frameStack (evaluation w) = cur :: below ->
  instructions cur !! nextInstruction cur = Some (CONDITIONAL_JUMP count) ->
  operandStack cur = check :: rest ->
  check = TRUE_ID \/ check = FALSE_ID ->
  ((count < 0 \/ Z.of_nat (length (instructions cur)) <= Z.of_nat (nextInstruction cur) + 1 + count)%Z ->
   step natives w
   = Thrown (InvalidJumpCount count)
       (withFrameStack (setOperandStack rest (advance cur) :: below) w))
  /\ ((0 <= count)%Z ->
      (Z.of_nat (nextInstruction cur) + 1 + count < Z.of_nat (length (instructions cur)))%Z ->
      step natives w
      = Done tt
          (withFrameStack
             ({| instructions := instructions cur;
                 nextInstruction :=
                   if decide (check = FALSE_ID)
                   then nextInstruction cur + 1 + Z.to_nat count
                   else nextInstruction cur + 1;
                 locals := locals cur; operandStack := rest; resume := resume cur |}
              :: below) w)).
Proof.
  intros Hfs Hi Hst Hcheck.
  rewrite (step_CONDITIONAL_JUMP _ _ _ _ _ _ _ Hfs Hi Hst Hcheck). split.
  - intros Hbad.
    destruct ((_ <=? _)%Z || (_ <? _)%Z) eqn:E; [reflexivity|].
    apply orb_false_iff in E as [E1 E2]. apply Z.leb_gt in E1. apply Z.ltb_ge in E2. lia.
  - intros H0 Hlt.
    destruct ((_ <=? _)%Z || (_ <? _)%Z) eqn:E.
    { apply orb_true_iff in E as [E|E]; [apply Z.leb_le in E | apply Z.ltb_lt in E]; lia. }
    unfold setNextInstruction, setOperandStack, advance. simpl.
    replace (Z.to_nat (Z.of_nat (S (nextInstruction cur)) + count))
      with (nextInstruction cur + 1 + Z.to_nat count) by lia.
    replace (S (nextInstruction cur)) with (nextInstruction cur + 1) by lia.
    reflexivity.
Qed.

Lemma conditional_jump_bounds_witness :
  step Example.natives
    (Example.world [Example.frame [CONDITIONAL_JUMP 1; PUSH "a"; PUSH "b"] [] ["false"]] [])
  = Done tt
      (Example.world
         [setNextInstruction 2 (Example.frame [CONDITIONAL_JUMP 1; PUSH "a"; PUSH "b"] [] [])] [])
  /\ step Example.natives
       (Example.world [Example.frame [CONDITIONAL_JUMP 2; PUSH "a"; PUSH "b"] [] ["true"]] [])
     = Thrown (InvalidJumpCount 2)
         (Example.world
            [setNextInstruction 1
               (Example.frame [CONDITIONAL_JUMP 2; PUSH "a"; PUSH "b"] [] [])] []).
Proof.
  split.
  - apply (proj2 (conditional_jump_bounds Example.natives
                    (Example.world
                       [Example.frame [CONDITIONAL_JUMP 1; PUSH "a"; PUSH "b"] [] ["false"]] [])
                    (Example.frame [CONDITIONAL_JUMP 1; PUSH "a"; PUSH "b"] [] ["false"]) []
                    1%Z "false" [] eq_refl eq_refl eq_refl (or_intror eq_refl)));
      simpl; lia.
  - apply (proj1 (conditional_jump_bounds Example.natives
                    (Example.world
                       [Example.frame [CONDITIONAL_JUMP 2; PUSH "a"; PUSH "b"] [] ["true"]] [])
                    (Example.frame [CONDITIONAL_JUMP 2; PUSH "a"; PUSH "b"] [] ["true"]) []
                    2%Z "true" [] eq_refl eq_refl eq_refl (or_introl eq_refl))).
    simpl. lia.
Defined.

(** ** The [catch] clauses of a [Try] *)

Lemma compile_Try environment body catches always :
  compileExpression environment (Try body catches always)
  = [TRY_CATCH_ALWAYS (compileBody environment body)
       (flat_map (compileCatch environment) catches)
       (compileBody environment always)].
Proof.
  simpl. do 2 f_equal. apply flat_map_ext. by intros [parameter parameterType b].
Qed.

Lemma step_INHERITS natives w cur below module' selfId rest self :
  frameStack (evaluation w) = cur :: below ->
  instructions cur !! nextInstruction cur = Some (INHERITS module') ->
  operandStack cur = selfId :: rest ->
  truthy selfId = true ->
  instances (evaluation w) !! selfId = Some self ->
  step natives w
  = Done tt
      (withFrameStack
         (setOperandStack
            ((if inherits (environment (evaluation w))
                   (resolve (environment (evaluation w)) (module self))
                   (resolve (environment (evaluation w)) module')
              then TRUE_ID else FALSE_ID) :: rest)
            (advance cur) :: below) w).
Proof.
  intros Hfs Hi Hst Hv Hself. rewrite (step_fetch _ _ _ _ _ Hfs Hi). cbn [execute].
  rewrite run_bind, (run_popOperand _ _ _ selfId rest) by (simpl; auto).
  rewrite run_bind, (run_getInstance _ _ self) by exact Hself.
  reflexivity.
Qed.

Lemma withFrameStack_twice fs fs' w :
  withFrameStack fs (withFrameStack fs' w) = withFrameStack fs w.
Proof. reflexivity. Qed.

Lemma lookup_app_at {A : Type} (pre l : list A) i :
  (pre ++ l) !! (length pre + i) = l !! i.
Proof. rewrite lookup_app_r by lia. f_equal. lia. Qed.

(** X9. In the frame that [TRY_CATCH_ALWAYS] pushes for the [catch] clauses
    that [compile] lays out, with the exception in [<exception>], the three
    instructions before the handler of a clause go on to that handler when the
    module of the exception inherits from the type that the clause names, and
    otherwise to the clause after it, or past the last clause to the code that
    raises the exception again. They leave the operand stack and the heap as
    they were, and the jump is never out of the frame. *)
Theorem catch_dispatch natives w cur below catches1 c catches2 parameter parameterType body
    e exception :
  let environment := environment (evaluation w) in
  let code := flat_map (compileCatch environment) in
  let matches :=
    inherits environment (resolve environment (module exception))
      (resolve environment
         (fullyQualifiedName environment (resolveTarget environment parameterType))) in
  c = Catch_ parameter parameterType body ->
  frameStack (evaluation w) = cur :: below ->
  instructions cur
  = [STORE "<exception>" false] ++ code (catches1 ++ c :: catches2)
    ++ [LOAD "<exception>"; INTERRUPT Exception] ->
  nextInstruction cur = 1 + length (code catches1) ->
  locals cur !! "<exception>" = Some e ->
  truthy e = true ->
  instances (evaluation w) !! e = Some exception ->
  exists target,
    stepsN natives 3 w = Done tt (withFrameStack (setNextInstruction target cur :: below) w)
    /\ drop target (instructions cur)
       = (if matches then catchHandler environment c else [])
         ++ code catches2 ++ [LOAD "<exception>"; INTERRUPT Exception].
Proof.
  intros environment code matches -> Hfs Hcode Hpc He Ht Hexception.
  set (c := Catch_ parameter parameterType body) in *.
  set (fqn := fullyQualifiedName environment (resolveTarget environment parameterType)) in *.
  set (handler := catchHandler environment c) in *.
  set (post := handler ++ code catches2 ++ [LOAD "<exception>"; INTERRUPT Exception]).
  set (pre := [STORE "<exception>" false] ++ code catches1).
  assert (Hsplit : instructions cur
                   = pre ++ [LOAD "<exception>"; INHERITS fqn;
                             CONDITIONAL_JUMP (Z.of_nat (length handler))] ++ post).
  { rewrite Hcode. subst pre post code. cbv beta. rewrite flat_map_app.
    change (flat_map (compileCatch environment) (c :: catches2))
      with (compileCatch environment c ++ flat_map (compileCatch environment) catches2).
    change (compileCatch environment c)
      with ([LOAD "<exception>"; INHERITS fqn;
             CONDITIONAL_JUMP (Z.of_nat (length handler))] ++ handler).
    rewrite <- !app_assoc. reflexivity. }
  assert (Hpre : length pre = nextInstruction cur).
  { subst pre. rewrite length_app, Hpc. reflexivity. }
  assert (Hi : forall i, instructions cur !! (nextInstruction cur + i)
                         = ([LOAD "<exception>"; INHERITS fqn;
                             CONDITIONAL_JUMP (Z.of_nat (length handler))] ++ post) !! i).
  { intros i. rewrite Hsplit, <- Hpre. apply lookup_app_at. }
  assert (H0 : instructions cur !! nextInstruction cur = Some (LOAD "<exception>")).
  { replace (nextInstruction cur) with (nextInstruction cur + 0) at 1 by lia.
    by rewrite Hi. }
  assert (H1 : instructions cur !! S (nextInstruction cur) = Some (INHERITS fqn)).
  { replace (S (nextInstruction cur)) with (nextInstruction cur + 1) by lia. by rewrite Hi. }
  assert (H2 : instructions cur !! S (S (nextInstruction cur))
               = Some (CONDITIONAL_JUMP (Z.of_nat (length handler)))).
  { replace (S (S (nextInstruction cur))) with (nextInstruction cur + 2) by lia.
    by rewrite Hi. }
  exists (if matches then nextInstruction cur + 3
          else nextInstruction cur + 3 + length handler).
  split.
  - cbn [stepsN].
    rewrite (step_LOAD natives w cur below "<exception>" Hfs H0).
    rewrite (loadLocal_Some "<exception>" (cur :: below) 0 cur e eq_refl eq_refl He Ht)
      by (intros; lia).
    rewrite (step_INHERITS natives _ (setOperandStack (e :: operandStack cur) (advance cur))
               below fqn e (operandStack cur) exception);
      [|reflexivity | exact H1 | reflexivity | exact Ht | exact Hexception].
    rewrite (step_CONDITIONAL_JUMP natives _
               (setOperandStack ((if matches then TRUE_ID else FALSE_ID) :: operandStack cur)
                  (advance (setOperandStack (e :: operandStack cur) (advance cur))))
               below (Z.of_nat (length handler))
               (if matches then TRUE_ID else FALSE_ID) (operandStack cur));
      [|reflexivity | exact H2 | reflexivity | destruct matches; auto].
    cbn [instructions nextInstruction setOperandStack advance setNextInstruction].
    assert (Hlen : length (instructions cur)
                   = nextInstruction cur + 3 + length handler
                     + length (code catches2) + 2).
    { rewrite Hsplit, !length_app, Hpre. subst post. rewrite !length_app. simpl. lia. }
    destruct ((_ <=? _)%Z || (_ <? _)%Z) eqn:E.
    { exfalso. apply orb_true_iff in E as [E|E];
        [apply Z.leb_le in E | apply Z.ltb_lt in E]; lia. }
    rewrite !withFrameStack_twice.
    apply (f_equal (fun f => Done tt (withFrameStack (f :: below) w))).
    destruct cur as [code0 pc0 locals0 stack0 resume0]. unfold setNextInstruction. simpl.
    f_equal. destruct matches; simpl; lia.
  - rewrite Hsplit. destruct matches.
    + replace (nextInstruction cur + 3) with (length pre + 3) by lia.
      rewrite drop_app_add'; [|reflexivity]. reflexivity.
    + replace (nextInstruction cur + 3 + length handler)
        with (length (pre ++ [LOAD "<exception>"; INHERITS fqn;
                              CONDITIONAL_JUMP (Z.of_nat (length handler))] ++ handler) + 0)
        by (rewrite !length_app; simpl; lia).
      subst post. rewrite !app_assoc. rewrite <- (app_assoc _ (code catches2)).
      rewrite <- !app_assoc. rewrite !app_assoc. rewrite <- (app_assoc _ (code catches2)).
      rewrite drop_app_add'; [reflexivity|]. by rewrite <- !app_assoc.
Qed.

(** The theorem on [catch err : A { }] and an exception of class [B], which
    inherits from [A]. *)
Lemma catch_dispatch_witness :
  exists target,
    stepsN Example.natives 3 (Example.world [Example.catching] [Example.object "e" "B"])
    = Done tt
        (Example.world [setNextInstruction target Example.catching] [Example.object "e" "B"])
    /\ drop target (instructions Example.catching)
       = [PUSH VOID_ID; LOAD "<exception>"; STORE "err" false; INTERRUPT Result;
          LOAD "<exception>"; INTERRUPT Exception].
Proof.
  destruct (catch_dispatch Example.natives
              (Example.world [Example.catching] [Example.object "e" "B"])
              Example.catching [] [] Example.catchA []
              (Example.parameter "err") {| reference_id := "ref"; reference_name := "A" |}
              (Body_ []) "e" (Example.object "e" "B")
              eq_refl eq_refl eq_refl eq_refl eq_refl eq_refl eq_refl)
    as (target & Hsteps & Hdrop).
  exists target. split; [exact Hsteps | exact Hdrop].
Defined.

(** ** Frames that run to their end *)

Lemma step_PUSH natives w cur below i :
  frameStack (evaluation w) = cur :: below ->
  instructions cur !! nextInstruction cur = Some (PUSH i) ->
  step natives w
  = Done tt (withFrameStack (setOperandStack (i :: operandStack cur) (advance cur) :: below) w).
Proof. intros Hfs Hi. by rewrite (step_fetch _ _ _ _ _ Hfs Hi). Qed.

Lemma interrupted_next interruption v h rest w :
  interruption ∈ resume h ->
  interrupted interruption v (h :: rest) w
  = Done tt
      (withRaised (raised w ++ [(interruption, v)])
         (withFrameStack (resumed interruption v h :: rest) w)).
Proof.
  intros Hh. unfold interrupted, deliver. by rewrite (unwound_app _ [] h rest).
Qed.

Lemma lookup_app_end_1 {A : Type} (l : list A) x y : (l ++ [x; y]) !! length l = Some x.
Proof. by rewrite list_lookup_middle. Qed.

Lemma lookup_app_end_2 {A : Type} (l : list A) x y : (l ++ [x; y]) !! S (length l) = Some y.
Proof.
  replace (S (length l)) with (length l + 1) by lia. by rewrite lookup_app_at.
Qed.

(** X10. The frame that a [CALL] pushes for a method ends with [PUSH(void)]
    and [INTERRUPT(return)]: once the code of the body is through, two steps
    hand [void] to the frame under it, which the [CALL] had marked to resume
    on [return], and take the mark away. Whatever the frame of the method
    holds is dropped. *)
Theorem method_end_answers_void natives w callee caller below code :
  frameStack (evaluation w) = callee :: caller :: below ->
  instructions callee = code ++ [PUSH VOID_ID; INTERRUPT Return_] ->
  nextInstruction callee = length code ->
  Return_ ∈ resume caller ->
  stepsN natives 2 w
  = Done tt
      (withRaised (raised w ++ [(Return_, VOID_ID)])
         (withFrameStack
            ({| instructions := instructions caller;
                nextInstruction := nextInstruction caller;
                locals := locals caller;
                operandStack := VOID_ID :: operandStack caller;
                resume := filter (fun elem => elem ≠ Return_) (resume caller) |} :: below)
            w)).
Proof.
  intros Hfs Hcode Hpc Hcaller. cbn [stepsN].
  rewrite (step_PUSH natives w callee (caller :: below) VOID_ID Hfs)
    by (rewrite Hcode, Hpc; apply lookup_app_end_1).
  rewrite (step_INTERRUPT natives _ (setOperandStack (VOID_ID :: operandStack callee)
                                       (advance callee))
             (caller :: below) Return_ VOID_ID (operandStack callee));
    [|reflexivity | simpl; rewrite Hcode, Hpc; apply lookup_app_end_2
     | reflexivity | reflexivity].
  by rewrite (interrupted_next _ _ _ _ _ Hcaller).
Qed.

Lemma method_end_answers_void_witness :
  stepsN Example.natives 2
    (Example.world
       [ Example.resuming ([] ++ [PUSH VOID_ID; INTERRUPT Return_]) ["x"] [];
         Example.resuming [] ["a"] [Return_] ] [])
  = Done tt
      (withRaised [(Return_, VOID_ID)]
         (Example.world [ Example.resuming [] [VOID_ID; "a"] [] ] [])).
Proof.
  etransitivity.
  - apply (method_end_answers_void Example.natives
             (Example.world
                [ Example.resuming ([] ++ [PUSH VOID_ID; INTERRUPT Return_]) ["x"] [];
                  Example.resuming [] ["a"] [Return_] ] [])
             (Example.resuming ([] ++ [PUSH VOID_ID; INTERRUPT Return_]) ["x"] [])
             (Example.resuming [] ["a"] [Return_]) [] []
             eq_refl eq_refl eq_refl).
    by apply (bool_decide_unpack _).
  - reflexivity.
Defined.

(** X11. The frame that an [INIT] pushes for a constructor ends with
    [LOAD(self)] and [INTERRUPT(return)]: once the code before them is
    through, two steps hand the instance under construction to the frame
    under it, which the [INIT] had marked to resume on [return]. *)
Theorem constructor_end_answers_self natives w callee caller below code selfId :
  frameStack (evaluation w) = callee :: caller :: below ->
  instructions callee = code ++ [LOAD "self"; INTERRUPT Return_] ->
  nextInstruction callee = length code ->
  locals callee !! "self" = Some selfId ->
  truthy selfId = true ->
  Return_ ∈ resume caller ->
  stepsN natives 2 w
  = Done tt
      (withRaised (raised w ++ [(Return_, selfId)])
         (withFrameStack
            ({| instructions := instructions caller;
                nextInstruction := nextInstruction caller;
                locals := locals caller;
                operandStack := selfId :: operandStack caller;
                resume := filter (fun elem => elem ≠ Return_) (resume caller) |} :: below)
            w)).
Proof.
  intros Hfs Hcode Hpc Hself Ht Hcaller. cbn [stepsN].
  rewrite (step_LOAD natives w callee (caller :: below) "self" Hfs)
    by (rewrite Hcode, Hpc; apply lookup_app_end_1).
  rewrite (loadLocal_Some "self" (callee :: caller :: below) 0 callee selfId eq_refl eq_refl Hself Ht)
    by (intros; lia).
  rewrite (step_INTERRUPT natives _ (setOperandStack (selfId :: operandStack callee)
                                       (advance callee))
             (caller :: below) Return_ selfId (operandStack callee));
    [|reflexivity | simpl; rewrite Hcode, Hpc; apply lookup_app_end_2
     | reflexivity | exact Ht].
  by rewrite (interrupted_next _ _ _ _ _ Hcaller).
Qed.

Lemma constructor_end_answers_self_witness :
  stepsN Example.natives 2
    (Example.world
       [ Example.frame ([] ++ [LOAD "self"; INTERRUPT Return_]) [("self", "o")] [];
         Example.resuming [] ["a"] [Return_] ] [])
  = Done tt
      (withRaised [(Return_, "o")]
         (Example.world [ Example.resuming [] ["o"; "a"] [] ] [])).
Proof.
  etransitivity.
  - apply (constructor_end_answers_self Example.natives
             (Example.world
                [ Example.frame ([] ++ [LOAD "self"; INTERRUPT Return_]) [("self", "o")] [];
                  Example.resuming [] ["a"] [Return_] ] [])
             (Example.frame ([] ++ [LOAD "self"; INTERRUPT Return_]) [("self", "o")] [])
             (Example.resuming [] ["a"] [Return_]) [] [] "o"
             eq_refl eq_refl eq_refl eq_refl eq_refl).
    by apply (bool_decide_unpack _).
  - reflexivity.
Defined.

(** ** [IF_THEN_ELSE] *)

Lemma step_IF_THEN_ELSE natives w cur below thenHandler elseHandler check rest :
  frameStack (evaluation w) = cur :: below ->
  instructions cur !! nextInstruction cur = Some (IF_THEN_ELSE thenHandler elseHandler) ->
  operandStack cur = check :: rest ->
  check = TRUE_ID \/ check = FALSE_ID ->
  step natives w
  = Done tt
      (withFrameStack
         (newFrame
            ([PUSH VOID_ID]
             ++ (if decide (check = TRUE_ID) then thenHandler else elseHandler)
             ++ [INTERRUPT Result]) ∅ []
          :: setResume (resume cur ++ [Result]) (setOperandStack rest (advance cur))
          :: below) w).
Proof.
  intros Hfs Hi Hst Hcheck. rewrite (step_fetch _ _ _ _ _ Hfs Hi). cbn [execute].
  rewrite run_bind, (run_popOperand _ _ _ check rest)
    by (simpl; auto using truthy_boolean).
  rewrite (boolean_check _ Hcheck). reflexivity.
Qed.

Lemma filter_marked (k : Interruption) (r : list Interruption) :
  filter (fun elem => elem ≠ k) (r ++ [k]) = filter (fun elem => elem ≠ k) r.
Proof.
  rewrite filter_app.
  rewrite (filter_cons_False (fun elem => elem ≠ k) k []) by (intros H; by apply H).
  apply app_nil_r.
Qed.

(** X12. An [IF_THEN_ELSE] whose branch for the operand it pops is empty is
    worth [void]: three steps later the frame is one instruction further with
    [void] in place of the condition, and it does not resume on [result] any
    more, whether or not it did before. *)
Theorem if_empty_branch_is_void natives w cur below thenHandler elseHandler check rest :
  frameStack (evaluation w) = cur :: below ->
  instructions cur !! nextInstruction cur = Some (IF_THEN_ELSE thenHandler elseHandler) ->
  operandStack cur = check :: rest ->
  (check = TRUE_ID /\ thenHandler = []) \/ (check = FALSE_ID /\ elseHandler = []) ->
  stepsN natives 3 w
  = Done tt
      (withRaised (raised w ++ [(Result, VOID_ID)])
         (withFrameStack
            ({| instructions := instructions cur;
                nextInstruction := S (nextInstruction cur);
                locals := locals cur;
                operandStack := VOID_ID :: rest;
                resume := filter (fun elem => elem ≠ Result) (resume cur) |} :: below)
            w)).
Proof.
  intros Hfs Hi Hst Hbranch.
  assert (Hcheck : check = TRUE_ID \/ check = FALSE_ID) by (destruct Hbranch as [[] | []]; auto).
  assert (Hcode : (if decide (check = TRUE_ID) then thenHandler else elseHandler) = []).
  { destruct Hbranch as [[-> ->] | [-> ->]]; reflexivity. }
  cbn [stepsN].
  rewrite (step_IF_THEN_ELSE natives w cur below thenHandler elseHandler check rest
             Hfs Hi Hst Hcheck).
  rewrite Hcode. cbn [app].
  set (caller := setResume _ _).
  rewrite (step_PUSH natives _ (newFrame [PUSH VOID_ID; INTERRUPT Result] ∅ [])
             (caller :: below) VOID_ID); [|reflexivity..].
  rewrite (step_INTERRUPT natives _
             (setOperandStack [VOID_ID] (advance (newFrame [PUSH VOID_ID; INTERRUPT Result] ∅ [])))
             (caller :: below) Result VOID_ID []); [|reflexivity..].
  rewrite interrupted_next by (subst caller; simpl; rewrite elem_of_app, elem_of_cons; auto).
  subst caller. unfold resumed. simpl. by rewrite filter_marked.
Qed.

Lemma if_empty_branch_is_void_witness :
  stepsN Example.natives 3
    (Example.world
       [ Example.resuming [IF_THEN_ELSE [PUSH "a"] []; PUSH "b"] ["false"; "c"] [Result] ] [])
  = Done tt
      (withRaised [(Result, VOID_ID)]
         (Example.world
            [ setNextInstruction 1
                (Example.resuming [IF_THEN_ELSE [PUSH "a"] []; PUSH "b"] [VOID_ID; "c"] []) ]
            [])).
Proof.
  etransitivity.
  - apply (if_empty_branch_is_void Example.natives
             (Example.world
                [ Example.resuming [IF_THEN_ELSE [PUSH "a"] []; PUSH "b"] ["false"; "c"]
                    [Result] ] [])
             (Example.resuming [IF_THEN_ELSE [PUSH "a"] []; PUSH "b"] ["false"; "c"] [Result])
             [] [PUSH "a"] [] "false" ["c"] eq_refl eq_refl eq_refl).
    right. by split.
  - reflexivity.
Defined.

(** ** [TRY_CATCH_ALWAYS] *)

Lemma step_TRY_CATCH_ALWAYS natives w cur below body catchHandler alwaysHandler :
  frameStack (evaluation w) = cur :: below ->
  instructions cur !! nextInstruction cur
  = Some (TRY_CATCH_ALWAYS body catchHandler alwaysHandler) ->
  step natives w
  = Done tt
      (withFrameStack
         (newFrame ([PUSH VOID_ID] ++ body ++ [INTERRUPT Result]) ∅ []
          :: catchFrame catchHandler
          :: alwaysFrame alwaysHandler
          :: setResume (resume cur ++ [Result]) (advance cur)
          :: below) w).
Proof. intros Hfs Hi. by rewrite (step_fetch _ _ _ _ _ Hfs Hi). Qed.

Lemma step_STORE_local natives w cur below name v rest :
  frameStack (evaluation w) = cur :: below ->
  instructions cur !! nextInstruction cur = Some (STORE name false) ->
  operandStack cur = v :: rest ->
  truthy v = true ->
  name <> "__proto__" ->
  step natives w
  = Done tt (withFrameStack (assign name v (setOperandStack rest (advance cur)) :: below) w).
Proof.
  intros Hfs Hi Hst Hv Hname.
  rewrite (step_STORE_at natives w cur below name false v rest Hfs Hi Hst Hv).
  simpl. by rewrite setProperty_insert.
Qed.

Lemma step_RESUME_INTERRUPTION natives w cur below k v stack :
  frameStack (evaluation w) = cur :: below ->
  instructions cur !! nextInstruction cur = Some RESUME_INTERRUPTION ->
  length (resume cur) = 2 ->
  find (fun interruption => negb (includes interruption (resume cur)))
    [Exception; Return_; Result] = Some k ->
  operandStack cur = v :: stack ->
  truthy v = true ->
  step natives w = interrupted k v below w.
Proof.
  intros Hfs Hi Hlen Hfind Hst Hv. rewrite (step_fetch _ _ _ _ _ Hfs Hi). cbn [execute].
  destruct (decide _) as [Hn|_]; [by exfalso|].
  cbn [setNextInstruction advance resume] in *. rewrite Hfind.
  rewrite run_bind, (run_popOperand _ _ _ v stack) by (simpl; auto).
  apply run_interrupt.
Qed.

(** The [always] frame, resumed on the interruption [k] with [v] and an empty
    handler: three steps raise [k] with [v] again, under it. *)
Lemma always_frame_passes_on natives w k v below :
  truthy v = true ->
  frameStack (evaluation w) = resumed k v (alwaysFrame []) :: below ->
  stepsN natives 3 w = interrupted k v below w.
Proof.
  intros Hv Hfs. cbn [stepsN].
  rewrite (step_STORE_local natives w _ below "<previous_interruption>" v [] Hfs eq_refl eq_refl Hv)
    by discriminate.
  set (f := assign _ _ _).
  rewrite (step_LOAD natives _ f below "<previous_interruption>"); [|reflexivity..].
  rewrite (loadLocal_Some "<previous_interruption>" (f :: below) 0 f v eq_refl eq_refl
             ltac:(apply lookup_insert_eq) Hv) by (intros; lia).
  rewrite (step_RESUME_INTERRUPTION natives _ (setOperandStack [v] (advance f)) below k v []);
    try reflexivity; try exact Hv.
  all: destruct k; try reflexivity.
  all: unfold interrupted; by destruct (deliver _ v below).
Qed.

Lemma interrupted_raised k v below w r :
  interrupted k v below (withRaised r w)
  = match interrupted k v below w with
    | Done a w' => Done a (withRaised (r ++ [(k, v)]) w')
    | Thrown e w' => Thrown e (withRaised (r ++ [(k, v)]) w')
    end.
Proof. unfold interrupted. simpl. by destruct (deliver k v below). Qed.

Lemma stepsN_S natives n w :
  stepsN natives (S n) w
  = match step natives w with
    | Done _ w' => stepsN natives n w'
    | Thrown e w' => Thrown e w'
    end.
Proof. reflexivity. Qed.

(** X13. A [TRY_CATCH_ALWAYS] pushes the frame of its body over a frame for
    its [catch] clauses and one for its [always] clause. When it has no
    [catch] clause and its [always] clause is empty, an interruption raised in
    the frame of the body reaches the frames under the three as if raised
    there: a result or a return after four steps, through the [always] frame,
    an exception after seven, through both. *)
Theorem try_passes_interruptions_on natives :
  (forall w cur below body catchHandler alwaysHandler,
      frameStack (evaluation w) = cur :: below ->
      instructions cur !! nextInstruction cur
      = Some (TRY_CATCH_ALWAYS body catchHandler alwaysHandler) ->
      step natives w
      = Done tt
          (withFrameStack
             (newFrame ([PUSH VOID_ID] ++ body ++ [INTERRUPT Result]) ∅ []
              :: catchFrame catchHandler
              :: alwaysFrame alwaysHandler
              :: setResume (resume cur ++ [Result]) (advance cur)
              :: below) w))
  /\ (forall w top skipped h rest k v stack,
         frameStack (evaluation w)
         = top :: catchFrame [] :: alwaysFrame [] :: skipped ++ h :: rest ->
         instructions top !! nextInstruction top = Some (INTERRUPT k) ->
         operandStack top = v :: stack ->
         truthy v = true ->
         Forall (fun f => k ∉ resume f) skipped ->
         k ∈ resume h ->
         let n := if decide (k = Exception) then 3 else 2 in
         stepsN natives (1 + 3 * (n - 1)) w
         = Done tt
             (withRaised (raised w ++ replicate n (k, v))
                (withFrameStack
                   ({| instructions := instructions h; nextInstruction := nextInstruction h;
                       locals := locals h; operandStack := v :: operandStack h;
                       resume := filter (fun elem => elem ≠ k) (resume h) |} :: rest)
                   w))).
Proof.
  split; [apply step_TRY_CATCH_ALWAYS|].
  intros w top skipped h rest k v stack Hfs Hi Hst Hv Hskipped Hh n.
  assert (Hbelow : interrupted k v (skipped ++ h :: rest) w
                   = Done tt
                       (withRaised (raised w ++ [(k, v)])
                          (withFrameStack (resumed k v h :: rest) w))).
  { unfold interrupted, deliver. by rewrite (unwound_app _ _ _ _ Hskipped Hh). }
  set (below := skipped ++ h :: rest) in *.
  destruct (decide (k = Exception)) as [->|Hk]; subst n.
  - change (1 + 3 * (3 - 1)) with 7.
    rewrite stepsN_S.
    rewrite (step_INTERRUPT natives w top _ Exception v stack Hfs Hi Hst Hv).
    assert (forall x,
               interrupted Exception v (catchFrame [] :: alwaysFrame [] :: below) x
               = Done tt (withRaised (raised x ++ [(Exception, v)])
                            (withFrameStack
                               (resumed Exception v (catchFrame []) :: alwaysFrame [] :: below)
                               x))) as Hcatch by reflexivity.
    assert (forall x,
               interrupted Exception v (alwaysFrame [] :: below) x
               = Done tt (withRaised (raised x ++ [(Exception, v)])
                            (withFrameStack (resumed Exception v (alwaysFrame []) :: below) x)))
      as Halways by reflexivity.
    rewrite (Hcatch w), stepsN_S.
    rewrite (step_STORE_local natives _ (resumed Exception v (catchFrame []))
               (alwaysFrame [] :: below) "<exception>" v []);
      [|reflexivity | reflexivity | reflexivity | exact Hv | discriminate].
    set (f := assign _ _ _). rewrite stepsN_S.
    rewrite (step_LOAD natives _ f (alwaysFrame [] :: below) "<exception>");
      [|reflexivity..].
    rewrite (loadLocal_Some "<exception>" (f :: alwaysFrame [] :: below) 0 f v eq_refl eq_refl
               ltac:(apply lookup_insert_eq) Hv) by (intros; lia).
    rewrite stepsN_S.
    rewrite (step_INTERRUPT natives _ (setOperandStack [v] (advance f))
               (alwaysFrame [] :: below) Exception v []); [|reflexivity..|exact Hv].
    rewrite Halways.
    rewrite (always_frame_passes_on natives _ Exception v below Hv); [|reflexivity].
    transitivity (interrupted Exception v below
                    (withRaised ((raised w ++ [(Exception, v)]) ++ [(Exception, v)]) w));
      [reflexivity|].
    rewrite interrupted_raised, Hbelow. subst below.
    unfold resumed. simpl. by rewrite <- !app_assoc.
  - assert (k ∉ resume (catchFrame [])) as Hcatch.
    { simpl. rewrite elem_of_cons, elem_of_nil. tauto. }
    assert (k ∈ resume (alwaysFrame [])) as Halways by (destruct k; simpl; set_solver).
    change (1 + 3 * (2 - 1)) with 4. rewrite stepsN_S.
    rewrite (step_INTERRUPT natives w top _ k v stack Hfs Hi Hst Hv).
    assert (interrupted k v (catchFrame [] :: alwaysFrame [] :: below) w
            = Done tt (withRaised (raised w ++ [(k, v)])
                         (withFrameStack (resumed k v (alwaysFrame []) :: below) w))) as ->.
    { unfold interrupted, deliver.
      change (catchFrame [] :: alwaysFrame [] :: below)
        with ([catchFrame []] ++ alwaysFrame [] :: below).
      by rewrite (unwound_app k [catchFrame []] (alwaysFrame []) below
                    ltac:(by repeat constructor) Halways). }
    rewrite (always_frame_passes_on natives _ k v below Hv); [|reflexivity].
    transitivity (interrupted k v below (withRaised (raised w ++ [(k, v)]) w));
      [reflexivity|].
    rewrite interrupted_raised, Hbelow. subst below.
    unfold resumed. simpl. by rewrite <- !app_assoc.
Qed.

(** The theorem on a return raised under a [try] whose caller resumes on
    [return]. *)
Lemma try_passes_interruptions_on_witness :
  stepsN Example.natives 4
    (Example.world
       [ Example.resuming [INTERRUPT Return_] ["v"] [];
         catchFrame []; alwaysFrame [];
         Example.resuming [] ["a"] [Result];
         Example.resuming [] ["b"] [Return_] ] [])
  = Done tt
      (withRaised [(Return_, "v"); (Return_, "v")]
         (Example.world [ Example.resuming [] ["v"; "b"] [] ] [])).
Proof.
  etransitivity.
  - apply (proj2 (try_passes_interruptions_on Example.natives)
             (Example.world
                [ Example.resuming [INTERRUPT Return_] ["v"] [];
                  catchFrame []; alwaysFrame [];
                  Example.resuming [] ["a"] [Result];
                  Example.resuming [] ["b"] [Return_] ] [])
             (Example.resuming [INTERRUPT Return_] ["v"] [])
             [ Example.resuming [] ["a"] [Result] ]
             (Example.resuming [] ["b"] [Return_]) [] Return_ "v" []
             eq_refl eq_refl eq_refl eq_refl).
    + repeat constructor. by apply (bool_decide_unpack _).
    + by apply (bool_decide_unpack _).
  - reflexivity.
Defined.

(** ** A [CALL] of a native method *)

Lemma run_instancesOf ids w :
  run (instancesOf ids) w
  = Done (map (fun i => getReferent (instances (evaluation w) !! i) i) ids) w.
Proof.
  induction ids as [|i ids IH]; [reflexivity|].
  cbn [instancesOf]. rewrite run_bind. cbn [perform run handle].
  rewrite run_bind, IH. reflexivity.
Qed.

(** X14. A [CALL] that resolves to a native method pushes no frame and marks
    nothing to resume: once the arguments and the receiver are popped, the
    native runs on the evaluation, with the calling frame on top, and is handed
    the receiver and, for each argument id in the order the arguments were
    pushed, what the heap gives under it: the instance, or what every plain
    object inherits under an id such as [toString], or [undefined] when it
    gives neither. *)
Theorem call_runs_native natives w cur below message arity lookupStart
    args selfId rest self startClass method native :
  frameStack (evaluation w) = cur :: below ->
  instructions cur !! nextInstruction cur = Some (CALL message arity lookupStart) ->
  operandStack cur = reverse args ++ selfId :: rest ->
  length args = arity ->
  Forall (fun v => truthy v = true) args ->
  truthy selfId = true ->
  instances (evaluation w) !! selfId = Some self ->
  lookupClass (environment (evaluation w)) (module self) lookupStart = Some startClass ->
  methodLookup (environment (evaluation w)) message arity startClass = Some method ->
  isNative method = true ->
  natives method = Some native ->
  step natives w
  = run (native (AnInstance self)
           (map (fun i => match instances (evaluation w) !! i with
                          | Some argument => Some (AnInstance argument)
                          | None => if bool_decide (i ∈ objectPrototype)
                                    then Some (Inherited i) else None
                          end) args))
      (withFrameStack (setOperandStack rest (advance cur) :: below) w).
Proof.
  intros Hfs Hi Hst Hlen Hall Hs Hself Hstart Hmethod Hnative Hlookup.
  rewrite (step_fetch _ _ _ _ _ Hfs Hi). cbn [execute]. unfold stepCALL.
  call_prelude args selfId rest self Hst.
  rewrite Hstart. rewrite run_bind. cbn [run]. rewrite Hmethod, Hnative, Hlookup.
  rewrite run_bind, run_instancesOf. reflexivity.
Qed.

(** The theorem on [o.size(a1)], a native of [A] that answers [void]; [a1] is
    no instance of the heap. *)
Lemma call_runs_native_witness :
  step Example.natives
    (Example.world [Example.frame [CALL "size" 0 None] [] ["o"; "x"]] [Example.object "o" "B"])
  = Done tt
      (Example.world
         [setOperandStack [VOID_ID; "x"]
            (advance (Example.frame [CALL "size" 0 None] [] ["o"; "x"]))]
         [Example.object "o" "B"]).
Proof.
  etransitivity.
  - apply (call_runs_native Example.natives
             (Example.world [Example.frame [CALL "size" 0 None] [] ["o"; "x"]]
                [Example.object "o" "B"])
             (Example.frame [CALL "size" 0 None] [] ["o"; "x"]) []
             "size" 0 None [] "o" ["x"] (Example.object "o" "B")
             (resolve Example.env "B") Example.sizeMethod
             (fun _ _ => pushOperand VOID_ID));
      try reflexivity.
    constructor.
  - reflexivity.
Defined.

(** ** Where the lookup of a [CALL] starts *)

Lemma findIndexSucc_middle (start : Name) before after :
  start ∉ before -> findIndexSucc start (before ++ start :: after) = S (length before).
Proof.
  intros Hnotin. unfold findIndexSucc.
  assert (list_find (fun fqn => fqn = start) (before ++ start :: after)
          = Some (length before, start)) as ->; [|reflexivity].
  apply list_find_Some. split; [by rewrite list_lookup_middle|]. split; [reflexivity|].
  intros j y Hj Hlt ->. apply Hnotin.
  rewrite lookup_app_l in Hj by exact Hlt. by eapply list_elem_of_lookup_2.
Qed.

Lemma findIndexSucc_absent (start : Name) l : start ∉ l -> findIndexSucc start l = 0.
Proof.
  intros Hnotin. unfold findIndexSucc.
  assert (list_find (fun fqn => fqn = start) l = None) as ->; [|reflexivity].
  apply list_find_None. apply Forall_forall. by intros x Hx ->.
Qed.

(** X15. Where the method lookup of a [CALL] with a [lookupStart] starts, on a
    receiver of module [selfModule], whose hierarchy is named [ownHierarchy]:
    at the class after the first one named [lookupStart]; at
    [resolve(undefined)] when that one is the last of the hierarchy; and, when
    the hierarchy has no class of that name, at its first class, the
    receiver's own, as in a [CALL] without [lookupStart]. *)
Theorem super_lookup_start environment selfModule start :
  truthy start = true ->
  let ownHierarchy :=
    map (fun c => fullyQualifiedName environment (NClass c))
      (hierarchy environment (resolve environment selfModule)) in
  (forall before next after,
      ownHierarchy = before ++ start :: next :: after -> start ∉ before ->
      lookupClass environment selfModule (Some start) = Some (resolve environment next))
  /\ (forall before,
         ownHierarchy = before ++ [start] -> start ∉ before ->
         lookupClass environment selfModule (Some start) = resolveUndefined environment)
  /\ (forall first others,
         ownHierarchy = first :: others -> start ∉ ownHierarchy ->
         lookupClass environment selfModule (Some start) = Some (resolve environment first)).
Proof.
  intros Hstart ownHierarchy. unfold lookupClass, lookupStartClass. rewrite Hstart.
  cbn [resolveMaybe]. fold (classFqn environment).
  change (map (classFqn environment) (hierarchy environment (resolve environment selfModule)))
    with ownHierarchy.
  split; [|split].
  - intros before next after Heq Hnotin. rewrite Heq.
    rewrite findIndexSucc_middle by exact Hnotin.
    replace (S (length before)) with (length (before ++ [start]))
      by (rewrite length_app; simpl; lia).
    rewrite (cons_middle start before (next :: after)), app_assoc.
    rewrite list_lookup_middle by reflexivity. reflexivity.
  - intros before Heq Hnotin. rewrite Heq.
    rewrite findIndexSucc_middle by exact Hnotin.
    rewrite lookup_ge_None_2 by (rewrite length_app; simpl; lia). reflexivity.
  - intros first others Heq Hnotin. rewrite findIndexSucc_absent by exact Hnotin.
    rewrite Heq. reflexivity.
Qed.

(** The theorem on the hierarchy of [B], which is [B], [A], [Object]. *)
Lemma super_lookup_start_witness :
  lookupClass Example.env "B" (Some "A") = Some (resolve Example.env "wollok.lang.Object")
  /\ lookupClass Example.env "B" (Some "C") = Some (resolve Example.env "B").
Proof.
  split.
  - apply (proj1 (super_lookup_start Example.env "B" "A" eq_refl)
             ["B"] "wollok.lang.Object" []); [reflexivity|].
    by apply (bool_decide_unpack _).
  - apply (proj2 (proj2 (super_lookup_start Example.env "B" "C" eq_refl))
             "B" ["A"; "wollok.lang.Object"]); [reflexivity|].
    by apply (bool_decide_unpack _).
Defined.

(** ** The locals that [buildEvaluationFor] starts from *)

Lemma initial_locals_lookup environment (l : list Singleton) (base : Locals) name i :
  (exists s, s ∈ l /\ fullyQualifiedName environment (NSingleton s) = name) ->
  (forall s, s ∈ l -> fullyQualifiedName environment (NSingleton s) = name ->
             singleton_id s = i) ->
  fold_left (fun all singleton =>
               <[fullyQualifiedName environment (NSingleton singleton)
                 := singleton_id singleton]> all) l base !! name
  = Some i.
Proof.
  induction l as [|x l IH] using rev_ind; intros (s & Hs & Hname) Hall.
  - by apply elem_of_nil in Hs.
  - rewrite fold_left_app. simpl.
    destruct (decide (fullyQualifiedName environment (NSingleton x) = name)) as [Hx|Hx].
    + rewrite Hx, lookup_insert_eq. f_equal. apply Hall; [|exact Hx].
      apply elem_of_app. right. by left.
    + rewrite lookup_insert_ne by exact Hx. apply IH.
      * exists s. split; [|exact Hname].
        apply elem_of_app in Hs as [Hs|Hs]; [exact Hs|].
        apply list_elem_of_singleton in Hs as ->. contradiction.
      * intros s' Hs'. apply Hall. apply elem_of_app. by left.
Qed.



(** ** What the instructions on operands, locals and instances leave alone *)

Lemma shape_alter (g : Frame -> Frame) d frames :
  (forall f, instructions (g f) = instructions f
             /\ nextInstruction (g f) = nextInstruction f
             /\ resume (g f) = resume f) ->
  shape (alter g d frames) = shape frames.
Proof.
  intros Hg. unfold shape. revert d.
  induction frames as [|f frames IH]; intros [|d]; simpl; try reflexivity.
  - destruct (Hg f) as (-> & -> & ->). reflexivity.
  - f_equal. apply IH.
Qed.

Lemma handle_shape {X : Type} (op : Op X) w :
  keepsFrames op = true ->
  shape (frameStack (evaluation (outcomeWorld (handle op w))))
  = shape (frameStack (evaluation w)).
Proof.
  destruct op; simpl; try reflexivity; try discriminate; intros _;
    unfold onFrame, onInstance;
    repeat match goal with
           | |- context [match ?x with _ => _ end] => destruct x; simpl
           end; try reflexivity;
    by apply shape_alter.
Qed.

Lemma handle_heap {X : Type} (op : Op X) w :
  keepsHeap op = true ->
  instances (evaluation (outcomeWorld (handle op w))) = instances (evaluation w).
Proof.
  destruct op; simpl; try reflexivity; try discriminate; intros _;
    unfold onFrame, onInstance;
    repeat match goal with
           | |- context [match ?x with _ => _ end] => destruct x; simpl
           end; reflexivity.
Qed.

Lemma straight_keepsFrames natives environment frames currentFrame next instruction :
  straight instruction = true ->
  within (@keepsFrames) (execute natives environment frames currentFrame next instruction).
Proof.
  destruct instruction; try discriminate; intros _; cbn [execute];
    unfold popOperand, pushOperand, getInstance, addInstance; within_cases.
Qed.

Lemma reading_keepsHeap natives environment frames currentFrame next instruction :
  reading instruction = true ->
  within (@keepsHeap) (execute natives environment frames currentFrame next instruction).
Proof.
  destruct instruction; try discriminate; intros _; cbn [execute];
    unfold popOperand, pushOperand, getInstance, addInstance; within_cases.
Qed.

(** What a step on a straight instruction leaves of the frame stack, whatever
    its outcome. *)
Lemma step_straight natives w cur below instruction :
  frameStack (evaluation w) = cur :: below ->
  instructions cur !! nextInstruction cur = Some instruction ->
  straight instruction = true ->
  shape (frameStack (evaluation (outcomeWorld (step natives w))))
  = shape (advance cur :: below).
Proof.
  intros Hfs Hi Hs. rewrite (step_fetch _ _ _ _ _ Hfs Hi).
  rewrite (within_run (@keepsFrames) (fun w => shape (frameStack (evaluation w)))).
  - reflexivity.
  - intros X op w0. apply handle_shape.
  - by apply straight_keepsFrames.
Qed.

Lemma step_reading natives w cur below instruction :
  frameStack (evaluation w) = cur :: below ->
  instructions cur !! nextInstruction cur = Some instruction ->
  reading instruction = true ->
  instances (evaluation (outcomeWorld (step natives w))) = instances (evaluation w).
Proof.
  intros Hfs Hi Hs. rewrite (step_fetch _ _ _ _ _ Hfs Hi).
  rewrite (within_run (@keepsHeap) (fun w => instances (evaluation w))).
  - reflexivity.
  - intros X op w0. apply handle_heap.
  - by apply reading_keepsHeap.
Qed.

(** X17. A step on [LOAD], [STORE], [PUSH], [GET], [SET], [SWAP],
    [INSTANTIATE] or [INHERITS] leaves, whether it completes or throws, the
    frame stack with the frames it had, each with its instructions and its
    resume set, the current frame one instruction further and the others
    where they were; on all of these but [SET] and [INSTANTIATE] it leaves
    the instances as they were too. *)
Theorem straight_step_effect natives w cur below instruction :
  frameStack (evaluation w) = cur :: below ->
  instructions cur !! nextInstruction cur = Some instruction ->
  straight instruction = true ->
  let w' := outcomeWorld (step natives w) in
  map (fun f => (instructions f, nextInstruction f, resume f)) (frameStack (evaluation w'))
  = (instructions cur, S (nextInstruction cur), resume cur)
    :: map (fun f => (instructions f, nextInstruction f, resume f)) below
  /\ (reading instruction = true -> instances (evaluation w') = instances (evaluation w)).
Proof.
  intros Hfs Hi Hs. split.
  - exact (step_straight natives w cur below instruction Hfs Hi Hs).
  - intros Hr. exact (step_reading natives w cur below instruction Hfs Hi Hr).
Qed.

Lemma straight_step_effect_witness :
  let w := Example.world [Example.resuming [SWAP] ["a"; "b"] [Result]] [] in
  map (fun f => (instructions f, nextInstruction f, resume f))
    (frameStack (evaluation (outcomeWorld (step Example.natives w))))
  = [([SWAP], 1, [Result])]
  /\ instances (evaluation (outcomeWorld (step Example.natives w)))
     = instances (evaluation w).
Proof.
  intros w.
  destruct (straight_step_effect Example.natives w
              (Example.resuming [SWAP] ["a"; "b"] [Result]) [] SWAP
              eq_refl eq_refl eq_refl) as [Hshape Hheap].
  split; [exact Hshape | exact (Hheap eq_refl)].
Defined.

(** ** [run] on code made of such instructions *)

Lemma run_stepAll_0 natives environment fuel w cur below :
  frameStack (evaluation w) = cur :: below ->
  length (instructions cur) <= nextInstruction cur ->
  run (stepAll natives environment fuel) w = Done true w.
Proof.
  intros Hfs Hend. destruct fuel; cbn [stepAll]; rewrite run_bind;
    cbn [perform run handle]; rewrite Hfs;
    (destruct (Nat.ltb_spec (nextInstruction cur) (length (instructions cur))); [lia|]);
    reflexivity.
Qed.

Lemma run_stepAll_S natives fuel w cur below :
  frameStack (evaluation w) = cur :: below ->
  nextInstruction cur < length (instructions cur) ->
  run (stepAll natives (environment (evaluation w)) (S fuel)) w
  = match step natives w with
    | Done _ w' => run (stepAll natives (environment (evaluation w)) fuel) w'
    | Thrown e w' => Thrown e w'
    end.
Proof.
  intros Hfs Hpc. cbn [stepAll]. rewrite run_bind. cbn [perform run handle]. rewrite Hfs.
  destruct (Nat.ltb_spec (nextInstruction cur) (length (instructions cur))); [|lia].
  rewrite run_bind. reflexivity.
Qed.

Lemma within_environment {A : Type} (p : Prog A) w :
  environment (evaluation (outcomeWorld (run p w))) = environment (evaluation w).
Proof.
  revert w. induction p as [a | e | X op k IH]; intros w; simpl; try reflexivity.
  assert (environment (evaluation (outcomeWorld (handle op w)))
          = environment (evaluation w)) as Hh.
  { destruct op; simpl; try reflexivity; unfold onFrame, onInstance;
      repeat match goal with
             | |- context [match ?x with _ => _ end] => destruct x; simpl
             end; reflexivity. }
  destruct (handle op w) as [x w1|e w1]; simpl in *; [|exact Hh].
  by rewrite IH.
Qed.

(** The loop of [run] on a frame whose remaining instructions are straight:
    within as many steps as instructions remain it ends, at the end of the
    frame, or a step throws. *)
Lemma stepAll_straight natives fuel : forall w cur below,
  frameStack (evaluation w) = cur :: below ->
  Forall (fun i => straight i = true) (drop (nextInstruction cur) (instructions cur)) ->
  nextInstruction cur <= length (instructions cur) ->
  length (instructions cur) - nextInstruction cur <= fuel ->
  match run (stepAll natives (environment (evaluation w)) fuel) w with
  | Done finished w' =>
      finished = true
      /\ shape (frameStack (evaluation w'))
         = shape (setNextInstruction (length (instructions cur)) cur :: below)
  | Thrown _ _ => True
  end.
Proof.
  induction fuel as [|fuel IH]; intros w cur below Hfs Hall Hle Hfuel.
  - rewrite (run_stepAll_0 _ _ _ _ cur below Hfs) by lia.
    split; [reflexivity|]. rewrite Hfs. unfold shape. simpl.
    by replace (length (instructions cur)) with (nextInstruction cur) by lia.
  - destruct (decide (nextInstruction cur < length (instructions cur))) as [Hpc|Hpc].
    + rewrite (run_stepAll_S _ _ _ cur below Hfs Hpc).
      destruct (lookup_lt_is_Some_2 _ _ Hpc) as [instruction Hi].
      rewrite (drop_S _ _ _ Hi) in Hall. inversion Hall as [|? ? Hs Hrest]; subst.
      pose proof (step_straight natives w cur below instruction Hfs Hi Hs) as Hshape.
      pose proof (within_environment
                    (stepProgram natives (environment (evaluation w))) w) as Henv.
      fold (step natives w) in Henv.
      destruct (step natives w) as [[] w1|e w1]; [|exact I].
      simpl in Hshape, Henv.
      destruct (frameStack (evaluation w1)) as [|cur1 below1] eqn:Hfs1; [discriminate|].
      unfold shape in Hshape. simpl in Hshape.
      injection Hshape as Hcode Hnext Hresume Hbelow.
      rewrite <- Henv.
      specialize (IH w1 cur1 below1 Hfs1).
      rewrite Hcode, Hnext in IH.
      specialize (IH Hrest ltac:(lia) ltac:(lia)).
      destruct (run (stepAll natives (environment (evaluation w1)) fuel) w1)
        as [finished w2|]; [|exact I].
      destruct IH as [-> IH]. split; [reflexivity|].
      rewrite IH. unfold shape. simpl. by rewrite Hcode, Hresume, Hbelow.
    + rewrite (run_stepAll_0 _ _ _ _ cur below Hfs) by lia.
      split; [reflexivity|]. rewrite Hfs. unfold shape. simpl.
      by replace (length (instructions cur)) with (nextInstruction cur) by lia.
Qed.

Lemma plainExpression_straight environment e :
  plainExpression e = true ->
  Forall (fun i => straight i = true) (compileExpression environment e).
Proof.
  destruct e as [r| |value| | | | | |]; try discriminate; cbn [compileExpression].
  - intros _. repeat match goal with
                     | |- context [if ?x then _ else _] => destruct x
                     end; repeat constructor.
  - intros _. repeat constructor.
  - destruct value; try discriminate; intros _; repeat constructor.
Qed.

Lemma plainSentence_straight environment s :
  plainSentence s = true ->
  Forall (fun i => straight i = true) (compileSentence environment s).
Proof.
  destruct s as [name value|value|reference value|value]; try discriminate;
    cbn [plainSentence compileSentence]; intros Hv;
    pose proof (plainExpression_straight environment value Hv) as Hcode.
  - apply Forall_app. split; [exact Hcode | repeat constructor].
  - destruct (is_Field _).
    + apply Forall_app. split; [repeat constructor|].
      apply Forall_app. split; [exact Hcode | repeat constructor].
    + apply Forall_app. split; [exact Hcode | repeat constructor].
  - exact Hcode.
Qed.

Lemma plainBody_straight environment sentences :
  forallb plainSentence sentences = true ->
  Forall (fun i => straight i = true) (compileBody environment (Body_ sentences)).
Proof.
  cbn [compileBody]. induction sentences as [|s sentences IH]; simpl; [constructor|].
  intros [Hs Hrest]%andb_prop. apply Forall_app. split.
  - by apply plainSentence_straight.
  - by apply IH.
Qed.

(** X18. [run] on a body made of declarations, assignments and expression
    sentences over references, [self] and literals of a value takes at most
    as many steps as the body has instructions: with that much fuel it
    answers or throws, and when it answers the frame stack has the frames it
    had before, each with its instructions, its position and its resume
    set. *)
Theorem run_plain_body_ends natives w sentences fuel :
  forallb plainSentence sentences = true ->
  length (compileBody (environment (evaluation w)) (Body_ sentences)) <= fuel ->
  match run (runBody natives (environment (evaluation w)) fuel (Body_ sentences)) w with
  | Done answer w' =>
      is_Some answer
      /\ map (fun f => (instructions f, nextInstruction f, resume f))
           (frameStack (evaluation w'))
         = map (fun f => (instructions f, nextInstruction f, resume f))
             (frameStack (evaluation w))
  | Thrown _ _ => True
  end.
Proof.
  intros Hplain Hfuel. unfold runBody. rewrite run_bind. cbn [perform run handle].
  set (body := Body_ sentences) in *.
  set (w0 := withFrameStack (runFrame (environment (evaluation w)) body
                              :: frameStack (evaluation w)) w).
  rewrite run_bind.
  pose proof (stepAll_straight natives fuel w0
                (runFrame (environment (evaluation w)) body) (frameStack (evaluation w))
                eq_refl (plainBody_straight _ _ Hplain)
                ltac:(cbn [runFrame newFrame nextInstruction]; lia)
                ltac:(cbn [runFrame newFrame nextInstruction instructions]; lia)) as Hloop.
  change (environment (evaluation w0)) with (environment (evaluation w)) in Hloop.
  destruct (run (stepAll natives (environment (evaluation w)) fuel) w0)
    as [finished w1|]; [|exact I].
  destruct Hloop as [-> Hshape].
  destruct (frameStack (evaluation w1)) as [|top rest] eqn:Hfs1; [discriminate|].
  unfold shape in Hshape. simpl in Hshape. injection Hshape as _ _ _ Hrest.
  rewrite run_bind. cbn [perform run handle]. rewrite Hfs1. simpl.
  destruct (operandStack top) as [|v stack]; simpl; rewrite ?Hfs1; simpl;
    (split; [by eexists | exact Hrest]).
Qed.

Lemma run_plain_body_ends_witness :
  exists answer w',
    run (runBody Example.natives (environment (evaluation (Example.world [] []))) 1
           (Body_ [Expression_ (Literal LNull)])) (Example.world [] [])
    = Done answer w'
    /\ is_Some answer
    /\ map (fun f => (instructions f, nextInstruction f, resume f))
         (frameStack (evaluation w'))
       = map (fun f => (instructions f, nextInstruction f, resume f))
           (frameStack (evaluation (Example.world [] []))).
Proof.
  pose proof (run_plain_body_ends Example.natives (Example.world [] [])
                [Expression_ (Literal LNull)] 1 eq_refl
                ltac:(simpl; lia)) as H.
  destruct (run (runBody Example.natives (environment (evaluation (Example.world [] []))) 1
                   (Body_ [Expression_ (Literal LNull)])) (Example.world [] []))
    as [answer w'|e w'] eqn:Hrun.
  - exists answer, w'. split; [reflexivity | exact H].
  - vm_compute in Hrun. discriminate.
Defined.

(** ** Operands and receivers that are not there *)

Lemma run_popOperand_empty w f below :
  operandStack f = [] ->
  run popOperand (withFrameStack (f :: below) w)
  = Thrown PoppedEmptyOperandStack (withFrameStack (f :: below) w).
Proof.
  intros Hst. unfold popOperand. rewrite run_bind. simpl. rewrite Hst. reflexivity.
Qed.

Lemma setOperandStack_twice s s' f :
  setOperandStack s (setOperandStack s' f) = setOperandStack s f.
Proof. reflexivity. Qed.

Lemma setOperandStack_same f : setOperandStack (operandStack f) f = f.
Proof. by destruct f. Qed.

Lemma run_popOperands_short n : forall w f below,
  length (operandStack f) < n ->
  Forall (fun v => truthy v = true) (operandStack f) ->
  run (popOperands n) (withFrameStack (f :: below) w)
  = Thrown PoppedEmptyOperandStack (withFrameStack (setOperandStack [] f :: below) w).
Proof.
  induction n as [|n IH]; intros w f below Hlen Hall; [lia|].
  cbn [popOperands]. rewrite run_bind.
  destruct (operandStack f) as [|v rest] eqn:Hst.
  - rewrite run_popOperand_empty by exact Hst.
    by rewrite <- Hst, setOperandStack_same.
  - apply Forall_cons in Hall as [Hv Hall].
    rewrite (run_popOperand _ _ _ v rest) by auto.
    rewrite run_bind, IH by (simpl in *; auto; lia).
    reflexivity.
Qed.

(** Popping [n] operands and one more from fewer than [n + 1]. *)
Lemma run_popOperands_then_pop {A : Type} n (k : list Id -> Id -> Prog A) w f below :
  length (operandStack f) < S n ->
  Forall (fun v => truthy v = true) (operandStack f) ->
  run (popped ← popOperands n; v ← popOperand; k popped v) (withFrameStack (f :: below) w)
  = Thrown PoppedEmptyOperandStack (withFrameStack (setOperandStack [] f :: below) w).
Proof.
  intros Hlen Hall. rewrite run_bind.
  destruct (decide (length (operandStack f) < n)) as [Hn|Hn].
  - by rewrite run_popOperands_short.
  - rewrite (run_popOperands n _ _ _ (operandStack f) []);
      [|by rewrite app_nil_r|lia|exact Hall].
    rewrite run_bind, run_popOperand_empty by reflexivity. reflexivity.
Qed.

Lemma run_pop_then_popOperands {A : Type} n (k : Id -> list Id -> Prog A) w f below :
  length (operandStack f) < S n ->
  Forall (fun v => truthy v = true) (operandStack f) ->
  run (v ← popOperand; popped ← popOperands n; k v popped) (withFrameStack (f :: below) w)
  = Thrown PoppedEmptyOperandStack (withFrameStack (setOperandStack [] f :: below) w).
Proof.
  intros Hlen Hall. rewrite run_bind.
  destruct (operandStack f) as [|v rest] eqn:Hst.
  - rewrite run_popOperand_empty by exact Hst.
    by rewrite <- Hst, setOperandStack_same.
  - apply Forall_cons in Hall as [Hv Hall].
    rewrite (run_popOperand _ _ _ v rest) by auto.
    rewrite run_bind, run_popOperands_short by (simpl in *; auto; lia).
    reflexivity.
Qed.

(** X19. A step on an instruction that finds fewer operands on the current
    frame than it pops throws the error of an empty operand stack, with the
    instruction counted as done and the operands that were there popped. *)
Theorem operand_stack_underflow natives w cur below instruction :
  frameStack (evaluation w) = cur :: below ->
  instructions cur !! nextInstruction cur = Some instruction ->
  length (operandStack cur) < operandsNeeded instruction ->
  Forall (fun v => truthy v = true) (operandStack cur) ->
  step natives w
  = Thrown PoppedEmptyOperandStack
      (withFrameStack (setOperandStack [] (advance cur) :: below) w).
Proof.
  intros Hfs Hi Hlen Hall. rewrite (step_fetch _ _ _ _ _ Hfs Hi).
  assert (length (operandStack (advance cur)) < operandsNeeded instruction) as Hlen'
    by exact Hlen.
  assert (Forall (fun v => truthy v = true) (operandStack (advance cur))) as Hall'
    by exact Hall.
  assert (forall A (k : Id -> Prog A),
            length (operandStack cur) < 1 ->
            run (v ← popOperand; k v) (withFrameStack (advance cur :: below) w)
            = Thrown PoppedEmptyOperandStack
                (withFrameStack (setOperandStack [] (advance cur) :: below) w)) as Hone.
  { intros A k Hshort. rewrite run_bind, run_popOperand_empty.
    - destruct cur as [? ? ? [|] ?]; [reflexivity | simpl in Hshort; lia].
    - destruct cur as [? ? ? [|] ?]; [reflexivity | simpl in Hshort; lia]. }
  assert (forall A (k : Id -> Id -> Prog A),
            length (operandStack cur) < 2 ->
            run (a ← popOperand; b ← popOperand; k a b)
              (withFrameStack (advance cur :: below) w)
            = Thrown PoppedEmptyOperandStack
                (withFrameStack (setOperandStack [] (advance cur) :: below) w)) as Htwo.
  { intros A k Hshort.
    destruct (operandStack cur) as [|v rest] eqn:Hst.
    - apply Hone; rewrite ?Hst; simpl; lia.
    - apply Forall_cons in Hall as [Hv _].
      destruct rest; [|simpl in Hshort; lia].
      rewrite run_bind, (run_popOperand _ _ _ v []) by auto.
      rewrite run_bind, run_popOperand_empty by reflexivity. reflexivity. }
  destruct instruction; cbn [operandsNeeded] in Hlen; try lia; cbn [execute].
  all: try (by apply Hone).
  all: try (by apply Htwo).
  - unfold stepCALL. by apply run_popOperands_then_pop.
  - unfold stepINIT. by apply run_pop_then_popOperands.
Qed.

Lemma operand_stack_underflow_witness :
  step Example.natives (Example.world [Example.frame [SWAP] [] ["a"]] [])
  = Thrown PoppedEmptyOperandStack
      (Example.world [setOperandStack [] (advance (Example.frame [SWAP] [] ["a"]))] []).
Proof.
  apply (operand_stack_underflow Example.natives
           (Example.world [Example.frame [SWAP] [] ["a"]] [])
           (Example.frame [SWAP] [] ["a"]) [] SWAP eq_refl eq_refl).
  - simpl. lia.
  - repeat constructor.
Defined.


